(** * StarryGen: block engine, prompt compiler, history diff and Labs canvas

    A shallow embedding of the logic of the StarryGen editor:
    - [types.ts]            : the data model (records below);
    - [constants.ts]        : [BLOCK_DEFINITIONS], [getSmartLabel];
    - [components/Editor]   : [getChangeSummary], [effectiveBlocks],
                              [addBlock], [insertNewBlock], [duplicateBlock],
                              [toggleBlockActive], the block of
                              [addBlockFromLibrary];
    - [App.tsx]             : [updateGlobalBlock];
    - [services/geminiService.ts] : [parseRawBlocksToState],
                              [constructPromptFromBlocks];
    - [components/Labs]     : the grain stage of the draw effect and
                              [handlePointerMove].
    Beside these, of the same files and of their callers:
    - [services/geminiService.ts] : [getEffectiveApiKey],
                              [retryWithBackoff], the [cleanJson] step of
                              [analyzeReference] and [refineBlocks], the
                              chroma key loop of [processTransparency];
    - [App.tsx]             : [handleSaveApiKey];
    - [components/Editor]   : [removeBlock], the file name of
                              [handleDownload];
    - [components/BlockControls] : [visibleSections], [updateField],
                              [toggleSection], the custom properties;
    - [components/ProjectView] : [removeGlobalBlock], [confirmAddTo],
                              [libraryBlocks];
    - [components/UI.tsx]   : [addTag], [removeTag] of the tag input,
                              [addItem], [removeItem] of the item list.

    Conventions of the embedding.
    - A JavaScript value of static type [any] is a [jsval].  [undefined] is
      the [None] of an [option jsval]; JSON cannot carry it.
    - Numbers stored in block fields are integers ([Z]) that a double holds
      exactly, of magnitude at most 2^53, so that they print in plain
      decimal digits; every numeric default of the schema is one.
      [Number(s)] is read for decimal integer text.
    - The grain stage computes as the source does, in IEEE 754 doubles (the
      kernel's [float]), and stores into the image data as a
      [Uint8ClampedArray] does.  The canvas coordinates of the drag
      interaction, which divide, are exact rationals ([Q]) where the source
      computes in doubles.
    - A JavaScript object used as a record with string keys is an association
      list in insertion order, which is the order [Object.entries] and
      [JSON.stringify] follow for keys that are not array indices.  Strings
      are sequences of bytes.
    - A [TypeError] thrown by the source is the [None] of the result.
      Printing a value (a template literal, [join], a property key,
      [Number]) throws on an object that has a member named [toString]: a
      JSON value is no function, so the member hides
      [Object.prototype.toString] and the conversion finds nothing to
      call.
    - [Date.now()] and [Math.random()] are inputs: a clock reading given to
      the operation, a stream of draws given to the grain stage.
    - An optional argument left out is its falsy value: [""] for a string,
      [[]] for a list of blocks.
    - An event handler runs on the state the previous handler left, as
      React re-renders between events.
    - The string methods that classify characters ([trim], [toLowerCase],
      the class [\s]) read a character as the code unit of its value, 0 to
      255.
    - A promise is the way it settles: a value, or what was thrown; an
      operation that is called again and again is the sequence of the ways
      its calls end. *)

From Stdlib Require Import List String Ascii Bool ZArith QArith Qminmax Qround Lia.
From Stdlib Require Import DecimalString DecimalPos DecimalZ Permutation Sorted.
From Stdlib Require Import Uint63 PrimFloat SpecFloat FloatOps.
Import ListNotations.
Close Scope Q_scope.
Open Scope string_scope.

(** A decimal literal of a double is the nearest double, as in the source. *)
Set Warnings "-inexact-float".

Set Implicit Arguments.

(* ================================================================== *)
(** * JavaScript values *)
(* ================================================================== *)

Unset Elimination Schemes.
Inductive jsval : Type :=
| VNull
| VBool (b : bool)
| VNum (n : Z)
| VStr (s : string)
| VArr (l : list jsval)
| VObj (l : list (string * jsval)).
Set Elimination Schemes.

(** Property lookup on an object literal: first binding of the key. *)
Fixpoint obj_get {A : Type} (o : list (string * A)) (k : string) : option A :=
  match o with
  | [] => None
  | (k', v) :: o' => if String.eqb k' k then Some v else obj_get o' k
  end.

(** [o[k] = v]: overwrite in place when the key exists, else append. *)
Fixpoint obj_set {A : Type} (o : list (string * A)) (k : string) (v : A)
  : list (string * A) :=
  match o with
  | [] => [(k, v)]
  | (k', v') :: o' =>
      if String.eqb k' k then (k', v) :: o' else (k', v') :: obj_set o' k v
  end.

Definition obj_keys {A : Type} (o : list (string * A)) : list string :=
  map fst o.

(** JavaScript truthiness ([ToBoolean]). *)
Definition truthy (v : jsval) : bool :=
  match v with
  | VNull => false
  | VBool b => b
  | VNum n => negb (Z.eqb n 0)
  | VStr s => negb (String.eqb s "")
  | VArr _ => true
  | VObj _ => true
  end.

Definition truthy_opt (v : option jsval) : bool :=
  match v with
  | None => false
  | Some v => truthy v
  end.

Definition string_of_Z (z : Z) : string := NilZero.string_of_int (Z.to_int z).

(** The error monad of a computation that may throw a [TypeError]. *)
Definition bind {A B : Type} (m : option A) (k : A -> option B) : option B :=
  match m with
  | None => None
  | Some a => k a
  end.

Notation "x <- m ;; k" := (bind m (fun x => k))
  (at level 61, m at next level, right associativity).

Fixpoint mapM {A B : Type} (f : A -> option B) (l : list A)
  : option (list B) :=
  match l with
  | [] => Some []
  | a :: l' => b <- f a ;; bs <- mapM f l' ;; Some (b :: bs)
  end.

(** [o.hasOwnProperty(k)]. *)
Definition has_own {A : Type} (o : list (string * A)) (k : string) : bool :=
  match obj_get o k with
  | Some _ => true
  | None => false
  end.

(** [ToString], as applied by a template literal, by [Array.join] and to a
    property key.  An array prints its elements joined by commas, [null]
    and [undefined] elements as empty.  An object prints with the
    [toString] it finds: the one of [Object.prototype], which gives
    "[object Object]", unless the object has a member of that name of its
    own; such a member is data and cannot be called, [valueOf] gives the
    object back, and the conversion throws a [TypeError]. *)
Fixpoint ToString (v : jsval) : option string :=
  match v with
  | VNull => Some "null"
  | VBool true => Some "true"
  | VBool false => Some "false"
  | VNum n => Some (string_of_Z n)
  | VStr s => Some s
  | VArr l =>
      option_map (String.concat ",")
        ((fix elements (l : list jsval) : option (list string) :=
            match l with
            | [] => Some []
            | x :: l' =>
                s <- match x with VNull => Some "" | _ => ToString x end ;;
                ss <- elements l' ;;
                Some (s :: ss)
            end) l)
  | VObj o => if has_own o "toString" then None else Some "[object Object]"
  end.

Definition ToString_opt (v : option jsval) : option string :=
  match v with
  | None => Some "undefined"
  | Some v => ToString v
  end.

(** An element of an array being joined. *)
Definition join_element (x : jsval) : option string :=
  match x with
  | VNull => Some ""
  | _ => ToString x
  end.

(** [Array.prototype.join]: null and undefined elements print as empty. *)
Definition Array_join (sep : string) (l : list jsval) : option string :=
  option_map (String.concat sep) (mapM join_element l).

(** [v === s] for a string [s]. *)
Definition strict_eq_str (v : option jsval) (s : string) : bool :=
  match v with
  | Some (VStr s') => String.eqb s' s
  | _ => false
  end.

(** [v === true] and [v === false]. *)
Definition strict_eq_bool (v : option jsval) (b : bool) : bool :=
  match v with
  | Some (VBool b') => Bool.eqb b' b
  | _ => false
  end.

(** [arr.includes(v)] for an array of strings (SameValueZero). *)
Definition includes_str (arr : list string) (v : option jsval) : bool :=
  existsb (fun s => strict_eq_str v s) arr.

(** [s.slice(0, -2)]. *)
Definition slice_0_m2 (s : string) : string :=
  substring 0 (String.length s - 2) s.

(** The elements an optional result kept, in order. *)
Fixpoint keep_some {A : Type} (l : list (option A)) : list A :=
  match l with
  | [] => []
  | Some a :: l' => a :: keep_some l'
  | None :: l' => keep_some l'
  end.

(* ================================================================== *)
(** * types.ts *)
(* ================================================================== *)

Inductive BlockType : Type :=
| SUBJECT | BACKGROUND | MOOD | LIGHTING | CAMERA | STYLE
| POST_PROCESSING | FX.

(** The string value of each enum member. *)
Definition BlockType_value (t : BlockType) : string :=
  match t with
  | SUBJECT => "Subject"
  | BACKGROUND => "Background & Atmosphere"
  | MOOD => "Mood & Emotion"
  | LIGHTING => "Lighting"
  | CAMERA => "Camera & Composition"
  | STYLE => "Art Style"
  | POST_PROCESSING => "Post-Processing"
  | FX => "Special Effects"
  end.

(** [Object.values(BlockType)], in declaration order. *)
Definition BlockType_values : list BlockType :=
  [SUBJECT; BACKGROUND; MOOD; LIGHTING; CAMERA; STYLE; POST_PROCESSING; FX].

Definition BlockType_eqb (a b : BlockType) : bool :=
  match a, b with
  | SUBJECT, SUBJECT | BACKGROUND, BACKGROUND | MOOD, MOOD
  | LIGHTING, LIGHTING | CAMERA, CAMERA | STYLE, STYLE
  | POST_PROCESSING, POST_PROCESSING | FX, FX => true
  | _, _ => false
  end.

Inductive FieldType : Type :=
| FSelect | FText | FSlider | FColor | FToggle | FVisualSelect | FTags
| FRadio | FSegmented | FCheckbox | FDetailedList | FPositionPicker.

Record BlockField : Type := mkField {
  f_id : string;
  f_label : string;
  f_type : FieldType;
  defaultValue : jsval
}.

(** [value: string | string[]] of a section condition. *)
Inductive CondValue : Type :=
| CondScalar (s : string)
| CondSet (l : list string).

Record Condition : Type := mkCondition {
  c_blockType : option BlockType;
  c_sectionId : string;
  c_fieldId : string;
  c_value : CondValue
}.

Record BlockSectionDefinition : Type := mkSection {
  s_id : string;
  s_label : string;
  toggleable : bool;
  condition : option Condition;
  fields : list BlockField
}.

Record BlockDefinition : Type := mkDefinition {
  d_type : BlockType;
  d_label : string;
  singleActiveInstance : bool;
  sections : list BlockSectionDefinition
}.

Record SectionState : Type := mkSectionState {
  enabled : option jsval;
  st_fields : list (string * jsval)
}.

Inductive CustomType : Type := CText | CSlider | CCheckbox | CColor.

Record CustomProperty : Type := mkCustom {
  cp_id : string;
  cp_label : string;
  cp_type : CustomType;
  cp_value : option jsval
}.

(** A block; [isGlobal] is the member the editor adds to the global blocks
    it lists ([BlockState & { isGlobal?: boolean }]), [None] on an object
    that has no such member. *)
Record BlockState : Type := mkBlock {
  b_id : string;
  b_type : BlockType;
  customLabel : option string;
  isActive : bool;
  b_sections : list (string * SectionState);
  customValues : option (list CustomProperty);
  referenceImage : option string;
  isGlobal : option bool
}.

(** [{ ...b, isActive: a }]. *)
Definition set_isActive (b : BlockState) (a : bool) : BlockState :=
  mkBlock (b_id b) (b_type b) (customLabel b) a (b_sections b)
          (customValues b) (referenceImage b) (isGlobal b).

(** [{ ...b, isGlobal: true }]. *)
Definition set_isGlobal (b : BlockState) : BlockState :=
  mkBlock (b_id b) (b_type b) (customLabel b) (isActive b) (b_sections b)
          (customValues b) (referenceImage b) (Some true).

Record TextOverlay : Type := mkOverlay {
  o_id : string;
  o_text : string;
  o_x : Q;
  o_y : Q;
  o_size : Q;
  o_color : string;
  o_font : string;
  o_shadow : bool;
  o_bg : string;
  o_letterSpacing : Q
}.

(* ================================================================== *)
(** * constants.ts: the schema registry *)
(* ================================================================== *)

(** The members of a definition that the modelled functions read are kept
    ([id], [label], [type], [defaultValue], [toggleable], [condition],
    [singleActiveInstance]); presentation members ([icon], [colorTheme],
    [description], [group], [defaultOpen], [options], [suggestions], [min],
    [max], [unit], [allowedDetailTypes], [maxItems]) are not. *)

Definition human_like : list string := ["Human"; "Animal"; "Creature"; "Robot"].

Definition SUBJECT_definition : BlockDefinition :=
  mkDefinition SUBJECT "Subject" false
  [ mkSection "core" "Identity" false None
      [ mkField "category" "Type" FSelect (VStr "Human");
        mkField "count" "Number" FRadio (VStr "Single");
        mkField "role" "Description/Role" FText (VStr "") ];
    mkSection "placement" "Placement & Depth" false None
      [ mkField "frame_position" "Frame Position" FPositionPicker
          (VObj [("x", VNum 50); ("y", VNum 50); ("label", VStr "Center")]);
        mkField "subject_size" "Size" FSlider (VNum 80);
        mkField "subject_distance" "Distance from Camera" FSlider (VNum 50) ];
    mkSection "human_physique" "Body & Looks" false
      (Some (mkCondition None "core" "category" (CondScalar "Human")))
      [ mkField "age" "Age" FText (VStr "");
        mkField "gender" "Gender" FSelect (VStr "Female");
        mkField "ethnicity" "Ethnicity" FText (VStr "");
        mkField "body_type" "Physique" FSelect (VStr "Average");
        mkField "hair_style" "Hair Style" FText (VStr "");
        mkField "hair_color" "Hair Color" FColor (VStr "#000000") ];
    mkSection "human_attire" "Wearables" false
      (Some (mkCondition None "core" "category" (CondScalar "Human")))
      [ mkField "style" "Fashion Style" FSelect (VStr "Casual");
        mkField "attire_head" "Headwear" FDetailedList (VArr []);
        mkField "attire_inner" "Upper Body (Inner)" FDetailedList (VArr []);
        mkField "attire_outer" "Outerwear (Coat/Jacket)" FDetailedList (VArr []);
        mkField "attire_lower" "Lower Body" FDetailedList (VArr []);
        mkField "attire_feet" "Footwear" FDetailedList (VArr []);
        mkField "accessories" "Props / Extras" FDetailedList (VArr []) ];
    mkSection "creature_traits" "Traits" false
      (Some (mkCondition None "core" "category"
               (CondSet ["Animal"; "Creature"; "Robot"])))
      [ mkField "species" "Species" FText (VStr "");
        mkField "texture" "Skin/Surface" FSelect (VStr "Fur");
        mkField "color_pattern" "Color" FText (VStr "") ];
    mkSection "object_specs" "Details" false
      (Some (mkCondition None "core" "category" (CondSet ["Object"; "Vehicle"])))
      [ mkField "material_type" "Material" FSelect (VStr "Matte Plastic");
        mkField "condition" "Condition" FSegmented (VStr "Brand New") ];
    mkSection "pose_action" "Action & Pose" false
      (Some (mkCondition None "core" "category" (CondSet human_like)))
      [ mkField "pose" "Pose" FText (VStr "");
        mkField "view_angle" "Angle" FSelect (VStr "Front");
        mkField "action" "Activity" FText (VStr "") ];
    mkSection "object_view" "Orientation" false
      (Some (mkCondition None "core" "category" (CondSet ["Object"; "Vehicle"])))
      [ mkField "placement_context" "Context" FText (VStr "");
        mkField "rotation" "Angle" FRadio (VStr "Front facing") ];
    mkSection "interactions" "Interactions" true
      (Some (mkCondition None "core" "category" (CondSet human_like)))
      [ mkField "target_subject" "With Whom?" FSelect (VStr "None");
        mkField "interaction_type" "Doing What?" FText (VStr "") ] ].

Definition BACKGROUND_definition : BlockDefinition :=
  mkDefinition BACKGROUND "Background" true
  [ mkSection "setting" "Location" false None
      [ mkField "type" "Type" FSelect (VStr "Outdoor");
        mkField "environment" "Setting" FText (VStr "");
        mkField "time" "Time" FSelect (VStr "Day") ];
    mkSection "weather" "Weather" true None
      [ mkField "precip_type" "Condition" FSelect (VStr "None");
        mkField "intensity" "Intensity" FSlider (VNum 50);
        mkField "wetness" "Wetness" FSlider (VNum 50) ];
    mkSection "fog" "Atmosphere (Fog)" true None
      [ mkField "density" "Density" FSlider (VNum 30);
        mkField "color" "Color" FColor (VStr "#a1a1aa") ];
    mkSection "transparency" "Background Removal" true None
      [ mkField "remove_bg" "Transparent BG" FToggle (VBool false) ] ].

Definition LIGHTING_definition : BlockDefinition :=
  mkDefinition LIGHTING "Lighting" true
  [ mkSection "key_light" "Main Light" false None
      [ mkField "source" "Source" FSelect (VStr "Sun");
        mkField "direction" "Direction" FSelect (VStr "Side");
        mkField "intensity" "Brightness" FSlider (VNum 80);
        mkField "color" "Color" FColor (VStr "#ffffff");
        mkField "quality" "Softness" FSegmented (VStr "Soft") ];
    mkSection "fill_light" "Fill Light" true None
      [ mkField "intensity" "Brightness" FSlider (VNum 40);
        mkField "color" "Color" FColor (VStr "#b0b0b0") ];
    mkSection "rim_light" "Rim / Back Light" true None
      [ mkField "intensity" "Brightness" FSlider (VNum 70);
        mkField "color" "Color" FColor (VStr "#ffffff") ] ].

Definition MOOD_definition : BlockDefinition :=
  mkDefinition MOOD "Mood" true
  [ mkSection "emotion" "Emotion" false
      (Some (mkCondition (Some SUBJECT) "core" "category" (CondSet human_like)))
      [ mkField "primary" "Feeling" FText (VStr "");
        mkField "intensity" "Intensity" FSlider (VNum 50) ];
    mkSection "atmosphere" "Vibe" false None
      [ mkField "vibe" "Atmosphere" FText (VStr "") ] ].

Definition CAMERA_definition : BlockDefinition :=
  mkDefinition CAMERA "Camera" true
  [ mkSection "composition" "Framing" false None
      [ mkField "shot_size" "Shot Size" FSelect (VStr "Medium Shot");
        mkField "angle" "Angle" FSelect (VStr "Eye Level") ];
    mkSection "optics" "Lens & Focus" false None
      [ mkField "focal_length" "Zoom Level" FSelect (VStr "50mm Portrait");
        mkField "aperture" "Blur Background" FRadio (VStr "f/2.8") ] ].

Definition STYLE_definition : BlockDefinition :=
  mkDefinition STYLE "Art Style" true
  [ mkSection "render" "Look & Feel" false None
      [ mkField "medium" "Medium" FSelect (VStr "Photography");
        mkField "engine" "Engine/Tool" FText (VStr "") ];
    mkSection "film_stock" "Film Look" false
      (Some (mkCondition None "render" "medium" (CondScalar "Photography")))
      [ mkField "film_type" "Stock" FText (VStr "");
        mkField "grain" "Grain" FSlider (VNum 20) ] ].

Definition POST_PROCESSING_definition : BlockDefinition :=
  mkDefinition POST_PROCESSING "Color Grade" true
  [ mkSection "grading" "Colors" false None
      [ mkField "tone" "Tone" FSelect (VStr "Natural");
        mkField "contrast" "Contrast" FSlider (VNum 50);
        mkField "saturation" "Saturation" FSlider (VNum 50) ] ].

Definition FX_definition : BlockDefinition :=
  mkDefinition FX "Effects" false
  [ mkSection "particles" "Particles" false None
      [ mkField "type" "Type" FSelect (VStr "Dust");
        mkField "amount" "Amount" FSlider (VNum 40) ] ].

Definition BLOCK_DEFINITIONS (t : BlockType) : BlockDefinition :=
  match t with
  | SUBJECT => SUBJECT_definition
  | BACKGROUND => BACKGROUND_definition
  | LIGHTING => LIGHTING_definition
  | MOOD => MOOD_definition
  | CAMERA => CAMERA_definition
  | STYLE => STYLE_definition
  | POST_PROCESSING => POST_PROCESSING_definition
  | FX => FX_definition
  end.

(** [defs.find(x => x.id === k)]. *)
Definition find_section (d : BlockDefinition) (secId : string)
  : option BlockSectionDefinition :=
  find (fun s => String.eqb (s_id s) secId) (sections d).

Definition find_field (s : BlockSectionDefinition) (fieldId : string)
  : option BlockField :=
  find (fun f => String.eqb (f_id f) fieldId) (fields s).

(** The sections object built by [addBlock] (and [createDefaultBlockState]):
    every schema field at its default, toggleable sections switched off. *)
Definition default_fields (s : BlockSectionDefinition) : list (string * jsval) :=
  fold_left (fun fs f => obj_set fs (f_id f) (defaultValue f)) (fields s) [].

Definition default_sections (d : BlockDefinition) : list (string * SectionState) :=
  fold_left
    (fun secs s =>
       obj_set secs (s_id s)
         (mkSectionState (if toggleable s then Some (VBool false) else None)
                         (default_fields s)))
    (sections d) [].

(** [block.customLabel && ...]: a defined, non-empty label. *)
Definition label_truthy (l : option string) : bool :=
  match l with
  | Some s => negb (String.eqb s "")
  | None => false
  end.

Definition section_field (b : BlockState) (sec fld : string) : option jsval :=
  match obj_get (b_sections b) sec with
  | Some st => obj_get (st_fields st) fld
  | None => None
  end.

(** [getSmartLabel]: the user's own name when the label was renamed, else a
    name derived from the block's fields, else the label or the type's.
    The result is what the field holds, of any type, or a string the
    function makes of it; making one may throw. *)
Definition getSmartLabel (block : BlockState) : option jsval :=
  let def := BLOCK_DEFINITIONS (b_type block) in
  let renamed :=
    match customLabel block with
    | Some l =>
        negb (String.eqb l "") && negb (String.eqb l (d_label def))
        && negb (String.prefix (d_label def ++ " ") l)
    | None => false
    end in
  let fallback :=
    VStr (if label_truthy (customLabel block)
          then match customLabel block with Some l => l | None => "" end
          else d_label def) in
  if renamed then
    Some (VStr (match customLabel block with Some l => l | None => "" end))
  else
    match b_type block with
    | SUBJECT =>
        let role := section_field block "core" "role" in
        let category := section_field block "core" "category" in
        if truthy_opt role && negb (strict_eq_str role "Subject")
           && negb (strict_eq_str role "Description/Role")
        then Some (match role with Some r => r | None => VNull end)
        else if truthy_opt category
        then Some (match category with Some c => c | None => VNull end)
        else Some fallback
    | BACKGROUND =>
        let env := section_field block "setting" "environment" in
        let type := section_field block "setting" "type" in
        if truthy_opt env && negb (strict_eq_str env "Environment")
        then Some (match env with Some e => e | None => VNull end)
        else if truthy_opt type
        then t <- ToString_opt type ;; Some (VStr (t ++ " Scene"))
        else Some fallback
    | LIGHTING =>
        let source := section_field block "key_light" "source" in
        if truthy_opt source
        then t <- ToString_opt source ;; Some (VStr (t ++ " Light"))
        else Some fallback
    | _ => Some fallback
    end.

(* ================================================================== *)
(** * services/geminiService.ts: the prompt compiler *)
(* ================================================================== *)

Definition ISOLATION : string :=
  "Isolated on a solid pure white background (#FFFFFF). No shadows, no environment, clean edges for cutout.".

Definition dquote : string := String "034"%char EmptyString.

(** [TYPE_PRIORITY[type] ?? 99]: every member of the enum has an entry. *)
Definition TYPE_PRIORITY (t : BlockType) : nat :=
  match t with
  | SUBJECT => 0
  | CAMERA => 1
  | LIGHTING => 2
  | BACKGROUND => 3
  | FX => 4
  | STYLE => 5
  | POST_PROCESSING => 6
  | MOOD => 7
  end.

(** [Array.prototype.sort] with comparator [(a, b) => p(a) - p(b)]: the
    sort is stable (ECMAScript 2019), so its result is the one a stable
    insertion sort computes. *)
Fixpoint insert_by {A : Type} (p : A -> nat) (x : A) (l : list A) : list A :=
  match l with
  | [] => [x]
  | y :: l' => if (p x <=? p y)%nat then x :: y :: l' else y :: insert_by p x l'
  end.

Fixpoint sort_by {A : Type} (p : A -> nat) (l : list A) : list A :=
  match l with
  | [] => []
  | x :: l' => insert_by p x (sort_by p l')
  end.

Definition block_priority (b : BlockState) : nat := TYPE_PRIORITY (b_type b).

(** The order the sort establishes. *)
Definition prio_le {A : Type} (p : A -> nat) (a b : A) : Prop :=
  (p a <= p b)%nat.

Definition is_active_of (t : BlockType) (b : BlockState) : bool :=
  BlockType_eqb (b_type b) t && isActive b.

Definition has_type (types : list BlockType) (t : BlockType) : bool :=
  existsb (BlockType_eqb t) types.

(** Lines 367-377: the list the compiler works on. *)
Definition blocksToProcess (localBlocks globalBlocks : list BlockState)
    (useBaseStyle : bool) : list BlockState :=
  if useBaseStyle && (0 <? List.length globalBlocks)%nat then
    let localTypes := map b_type (filter isActive localBlocks) in
    let activeGlobals :=
      filter (fun gb =>
                if negb (isActive gb) then false
                else if singleActiveInstance (BLOCK_DEFINITIONS (b_type gb))
                        && has_type localTypes (b_type gb) then false
                else true) globalBlocks in
    (activeGlobals ++ localBlocks)%list
  else localBlocks.

(** Lines 379-380. *)
Definition isTransparencyEnabled (blocks : list BlockState) : bool :=
  match find (is_active_of BACKGROUND) blocks with
  | Some backgroundBlock =>
      strict_eq_bool (section_field backgroundBlock "transparency" "remove_bg")
                     true
  | None => false
  end.

(** Lines 413-418: the block a condition is evaluated against, the block
    itself or the first active block of the type the condition names;
    [None] when it names a type that has no active block. *)
Definition controllingBlock (sortedBlocks : list BlockState)
    (block : BlockState) (c : Condition) : option BlockState :=
  match c_blockType c with
  | Some t => find (is_active_of t) sortedBlocks
  | None => Some block
  end.

(** Lines 412-427: a section's condition, evaluated against the controlling
    block; [false] when there is none. *)
Definition isSectionVisible (sortedBlocks : list BlockState)
    (block : BlockState) (c : Condition) : bool :=
  match controllingBlock sortedBlocks block c with
  | None => false
  | Some controlling =>
      let controllingValue :=
        section_field controlling (c_sectionId c) (c_fieldId c) in
      match c_value c with
      | CondSet l => includes_str l controllingValue
      | CondScalar s => strict_eq_str controllingValue s
      end
  end.

(** Lines 407-429: the predicate of the [activeSections] filter. *)
Definition sectionIsActive (sortedBlocks : list BlockState)
    (block : BlockState) (def : BlockDefinition)
    (entry : string * SectionState) : bool :=
  match find_section def (fst entry) with
  | None => false
  | Some secDef =>
      if toggleable secDef && negb (truthy_opt (enabled (snd entry)))
      then false
      else match condition secDef with
           | Some c => isSectionVisible sortedBlocks block c
           | None => true
           end
  end.

Definition activeSections (sortedBlocks : list BlockState)
    (block : BlockState) : list (string * SectionState) :=
  filter (sectionIsActive sortedBlocks block (BLOCK_DEFINITIONS (b_type block)))
         (b_sections block).

(** [Number(s)] for a string holding an optionally signed decimal integer;
    the empty string is 0; any other text is NaN ([None]) in the integer
    model of numbers. *)
Definition digit_of (c : ascii) : option Z :=
  let n := nat_of_ascii c in
  if (48 <=? n)%nat && (n <=? 57)%nat then Some (Z.of_nat (n - 48)) else None.

Fixpoint parse_digits (acc : Z) (s : string) : option Z :=
  match s with
  | EmptyString => Some acc
  | String c s' =>
      match digit_of c with
      | Some d => parse_digits (acc * 10 + d) s'
      | None => None
      end
  end.

Definition Number_of_string (s : string) : option Z :=
  match s with
  | EmptyString => Some 0%Z
  | String "-"%char (String c s' as r) => option_map Z.opp (parse_digits 0 r)
  | String "+"%char (String c s' as r) => parse_digits 0 r
  | String "-"%char EmptyString => None
  | String "+"%char EmptyString => None
  | _ => parse_digits 0 s
  end.

(** [Number(v)], and the conversion the operator [>] applies; the inner
    [None] is NaN.  An array is converted through the string it prints as;
    an object through [valueOf], which gives it back, and then [toString]:
    NaN, or the [TypeError] of [ToString]. *)
Definition ToNumber (v : jsval) : option (option Z) :=
  match v with
  | VNull => Some (Some 0%Z)
  | VBool true => Some (Some 1%Z)
  | VBool false => Some (Some 0%Z)
  | VNum n => Some (Some n)
  | VStr s => Some (Number_of_string s)
  | VArr _ => s <- ToString v ;; Some (Number_of_string s)
  | VObj _ => s <- ToString v ;; Some None
  end.

(** [v < k] and [v > k] on a possibly-NaN number. *)
Definition num_lt (v : option Z) (k : Z) : bool :=
  match v with Some n => (n <? k)%Z | None => false end.

Definition num_gt (v : option Z) (k : Z) : bool :=
  match v with Some n => (k <? n)%Z | None => false end.

(** [x.prop] for a JSON value [x]: a [TypeError] on [null], the member of an
    object, [undefined] on anything else ([length] of strings and arrays
    apart, which the callers ask for separately). *)
Definition get_prop (x : jsval) (k : string) : option (option jsval) :=
  match x with
  | VNull => None
  | VObj o => Some (obj_get o k)
  | _ => Some None
  end.

(** Lines 498-501: one item of a detailed list,
    [`${details}${item.name}`]. *)
Definition render_item (item : jsval) : option string :=
  d <- get_prop item "details" ;;
  details <-
    match d with
    | None => Some ""
    | Some dv =>
        if negb (truthy dv) then Some ""
        else match dv with
             | VArr l =>
                 if (0 <? List.length l)%nat
                 then j <- Array_join " " l ;; Some (j ++ " ") else Some ""
             | VStr _ => None
             | VObj o =>
                 len <- match obj_get o "length" with
                        | Some n => ToNumber n
                        | None => Some None
                        end ;;
                 if num_gt len 0 then None else Some ""
             | _ => Some ""
             end
    end ;;
  n <- get_prop item "name" ;;
  name <- ToString_opt n ;;
  Some (details ++ name).

Definition is_array (v : jsval) : bool :=
  match v with VArr _ => true | _ => false end.

Definition field_type_is (f : option BlockField) (t : FieldType) : bool :=
  match f, t with
  | Some fd, FPositionPicker =>
      match f_type fd with FPositionPicker => true | _ => false end
  | Some fd, FDetailedList =>
      match f_type fd with FDetailedList => true | _ => false end
  | _, _ => false
  end.

(** Lines 463-513: the contribution of one field to [fieldsDesc]. *)
Definition render_field (secDef : option BlockSectionDefinition)
    (fieldsDesc : string) (entry : string * jsval) : option string :=
  let '(fieldId, val) := entry in
  if strict_eq_str (Some val) "None" || strict_eq_bool (Some val) false
     || strict_eq_str (Some val) ""
     || match val with VArr [] => true | _ => false end
  then Some fieldsDesc
  else
    let fieldDef :=
      match secDef with
      | Some sd => find_field sd fieldId
      | None => None
      end in
    if String.eqb fieldId "subject_distance" then
      dist <- ToNumber val ;;
      let distLabel :=
        if num_lt dist 25 then "Extreme Foreground, close to lens"
        else if num_lt dist 45 then "Foreground"
        else if num_lt dist 65 then "Mid-ground"
        else if num_lt dist 85 then "Background"
        else "Far Distance" in
      Some (fieldsDesc ++ "Depth: " ++ distLabel ++ ", ")
    else if String.eqb fieldId "subject_size" then
      v <- ToString val ;;
      Some (fieldsDesc ++ "Visual Scale: Subject occupies approx "
              ++ v ++ "% of the image frame, ")
    else
      picked <-
        (if field_type_is fieldDef FPositionPicker then
           match val with
           | VNull => None
           | VObj o => Some (match obj_get o "label" with
                             | Some l => if truthy l then Some l else None
                             | None => None
                             end)
           | _ => Some None
           end
         else Some None) ;;
      match picked with
      | Some l =>
          if strict_eq_str (Some l) "Center"
          then Some (fieldsDesc
                       ++ "Position: Perfectly Centered in the middle of the frame, ")
          else
            label <- ToString l ;;
            Some (fieldsDesc ++ "Frame Position: " ++ label ++ ", ")
      | None =>
          match val with
          | VBool true => Some (fieldsDesc ++ fieldId ++ ", ")
          | VArr l =>
              if field_type_is fieldDef FDetailedList then
                items <- mapM render_item l ;;
                if (0 <? List.length items)%nat then
                  Some (fieldsDesc
                          ++ match fieldDef with
                             | Some fd => f_label fd
                             | None => ""
                             end
                          ++ ": " ++ String.concat ", " items ++ ", ")
                else Some fieldsDesc
              else match fieldDef with
                   | Some fd =>
                       j <- Array_join ", " l ;;
                       Some (fieldsDesc ++ f_label fd ++ ": " ++ j ++ ", ")
                   | None => Some fieldsDesc
                   end
          | _ =>
              match fieldDef with
              | Some fd =>
                  v <- ToString val ;;
                  Some (fieldsDesc ++ f_label fd ++ ": " ++ v ++ ", ")
              | None => Some fieldsDesc
              end
          end
      end.

(** [entries.forEach] threading an accumulator through a step that may
    throw. *)
Fixpoint foldM {A S : Type} (f : S -> A -> option S) (s : S) (l : list A)
  : option S :=
  match l with
  | [] => Some s
  | a :: l' => s' <- f s a ;; foldM f s' l'
  end.

Definition nonempty (s : string) : bool := negb (String.eqb s "").

(** [arr.push(x)]. *)
Definition push {A : Type} (l : list A) (x : A) : list A := (l ++ [x])%list.

(** Lines 450-518: one active section, added to the block's description
    parts or recorded as its interaction suffix. *)
Definition render_section (def : BlockDefinition) (subjectName : string)
    (acc : list string * string) (entry : string * SectionState)
  : option (list string * string) :=
  let '(blockDescParts, interactions) := acc in
  let '(secId, secState) := entry in
  let secDef := find_section def secId in
  if String.eqb secId "interactions" then
    let target := obj_get (st_fields secState) "target_subject" in
    let action := obj_get (st_fields secState) "interaction_type" in
    if truthy_opt target && negb (strict_eq_str target "None")
    then
      a <- ToString_opt action ;;
      t <- ToString_opt target ;;
      Some (blockDescParts,
            " [INTERACTION: " ++ subjectName ++ " is " ++ a ++ " " ++ t ++ "]")
    else Some acc
  else
    fieldsDesc <- foldM (render_field secDef) "" (st_fields secState) ;;
    if nonempty fieldsDesc
    then Some (push blockDescParts (slice_0_m2 fieldsDesc), interactions)
    else Some acc.

(** Lines 520-531: the user's custom properties.  The value is printed
    before the type of the property is looked at. *)
Definition render_custom (customDesc : string) (cv : CustomProperty)
  : option string :=
  if nonempty (cp_label cv)
     && match cp_value cv with Some _ => true | None => false end
     && negb (strict_eq_str (cp_value cv) "")
  then
    printed <- ToString_opt (cp_value cv) ;;
    let isCheckbox := match cp_type cv with CCheckbox => true | _ => false end in
    let valStr :=
      if isCheckbox then (if truthy_opt (cp_value cv) then "Yes" else "No")
      else printed in
    if isCheckbox && negb (truthy_opt (cp_value cv)) then Some customDesc
    else Some (customDesc ++ cp_label cv ++ ": " ++ valStr ++ ", ")
  else Some customDesc.

(** Lines 435-448: the framing phrase of a Camera block. *)
Definition camera_framing (aspectRatio : string)
    (active : list (string * SectionState)) : list string :=
  let shotSize :=
    match find (fun e => String.eqb (fst e) "composition") active with
    | Some e => obj_get (st_fields (snd e)) "shot_size"
    | None => None
    end in
  let isWideRatio :=
    String.eqb aspectRatio "16:9" || String.eqb aspectRatio "21:9" in
  if strict_eq_str shotSize "Extreme Close-up" then
    ["FRAMING: MACRO SHOT. Focus exclusively on details. If aspect ratio is wide, fill the frame horizontally with the subject's face/detail. Do not zoom out."]
  else if strict_eq_str shotSize "Close-up" then
    if isWideRatio then
      ["FRAMING: ANAMORPHIC CLOSE-UP. Subject dominates the foreground. Crop top of head/chin if needed to fill width. Do not show wide environment."]
    else ["FRAMING: CLOSE-UP. Subject fills the frame."]
  else [].

(** Lines 403-537, the body of the loop: the clause of one active block,
    [Some None] when the block renders nothing. *)
Definition renderBlock (sortedBlocks : list BlockState) (aspectRatio : string)
    (block : BlockState) : option (option string) :=
  let def := BLOCK_DEFINITIONS (b_type block) in
  let active := activeSections sortedBlocks block in
  let subjectName :=
    if label_truthy (customLabel block)
    then match customLabel block with Some l => l | None => "" end
    else "The Subject" in
  let framing :=
    match b_type block with
    | CAMERA => camera_framing aspectRatio active
    | _ => []
    end in
  acc <- foldM (render_section def subjectName) (framing, "") active ;;
  let '(sectionParts, interactions) := acc in
  blockDescParts <-
    match customValues block with
    | Some cvs =>
        if (0 <? List.length cvs)%nat then
          customDesc <- foldM render_custom "" cvs ;;
          if nonempty customDesc
          then Some (push sectionParts
                          ("Custom Details: " ++ slice_0_m2 customDesc))
          else Some sectionParts
        else Some sectionParts
    | None => Some sectionParts
    end ;;
  if (0 <? List.length blockDescParts)%nat || nonempty interactions then
    let label :=
      match customLabel block with
      | Some l =>
          if nonempty l && negb (String.eqb l "Subject")
          then dquote ++ l ++ dquote else subjectName
      | None => subjectName
      end in
    Some (Some ("[" ++ BlockType_value (b_type block) ++ " - " ++ label ++ "]: "
                  ++ String.concat " | " blockDescParts ++ interactions))
  else Some None.

(** Lines 363-365: the style directive. *)
Definition style_prefix (baseStyle : string) (useBaseStyle : bool)
  : list string :=
  if useBaseStyle && nonempty baseStyle
  then ["Style: " ++ baseStyle ++ "."] else [].

(** [promptParts] at the end of [constructPromptFromBlocks]. *)
Definition promptParts (localBlocks : list BlockState) (baseStyle : string)
    (useBaseStyle : bool) (globalBlocks : list BlockState)
    (aspectRatio : string) : option (list string) :=
  let style := style_prefix baseStyle useBaseStyle in
  let toProcess := blocksToProcess localBlocks globalBlocks useBaseStyle in
  let isolation := if isTransparencyEnabled toProcess then [ISOLATION] else [] in
  let sortedBlocks := sort_by block_priority toProcess in
  rendered <- mapM (renderBlock sortedBlocks aspectRatio)
                   (filter isActive sortedBlocks) ;;
  Some (style ++ isolation ++ keep_some rendered)%list.

Definition constructPromptFromBlocks (localBlocks : list BlockState)
    (baseStyle : string) (useBaseStyle : bool) (globalBlocks : list BlockState)
    (aspectRatio : string) : option string :=
  option_map (String.concat ". ")
    (promptParts localBlocks baseStyle useBaseStyle globalBlocks aspectRatio).

(* ================================================================== *)
(** * components/Editor, App.tsx, ProjectView: the block state store *)
(* ================================================================== *)

Definition string_of_nat (n : nat) : string := string_of_Z (Z.of_nat n).

(** The part of the editor's React state the block operations touch,
    together with the project's global blocks it receives as a prop and
    changes through [onUpdateGlobalBlock]. *)
Record EditorState : Type := mkEditor {
  blocks : list BlockState;
  globalBlocks : list BlockState;
  useBaseStyle : bool;
  selectedBlockId : option string;
  toastMessage : option string
}.

Definition count_of_type (t : BlockType) (bs : list BlockState) : nat :=
  List.length (filter (fun b => BlockType_eqb (b_type b) t) bs).

Definition some_id (bs : list BlockState) (i : string) : bool :=
  existsb (fun gb => String.eqb (b_id gb) i) bs.

(** [effectiveBlocks] of the editor: the global blocks it lists are copies
    that carry [isGlobal: true]; the document's own blocks are listed as
    they are. *)
Definition effectiveBlocks (st : EditorState) : list BlockState :=
  if useBaseStyle st && (0 <? List.length (globalBlocks st))%nat then
    let localTypes := map b_type (blocks st) in
    let relevantGlobals :=
      filter (fun gb =>
                if singleActiveInstance (BLOCK_DEFINITIONS (b_type gb))
                   && has_type localTypes (b_type gb)
                then false else true)
             (map set_isGlobal (globalBlocks st)) in
    (relevantGlobals ++ blocks st)%list
  else blocks st.

(** [insertNewBlock]. *)
Definition insertNewBlock (st : EditorState) (newBlock : BlockState)
    (isSingleInstance : bool) : EditorState :=
  let deactivatedOther :=
    isSingleInstance
    && existsb (fun b => BlockType_eqb (b_type b) (b_type newBlock)
                         && isActive b) (blocks st) in
  let updatedBlocks :=
    if isSingleInstance then
      map (fun b => if BlockType_eqb (b_type b) (b_type newBlock) && isActive b
                    then set_isActive b false else b) (blocks st)
    else blocks st in
  mkEditor (push updatedBlocks newBlock) (globalBlocks st) (useBaseStyle st)
           (Some (b_id newBlock))
           (Some (if deactivatedOther then "Switched active to new block."
                  else "Added block: "
                         ++ match customLabel newBlock with
                            | Some l => l
                            | None => "undefined"
                            end)).

(** [addBlock]; [now] is the value of [Date.now()]. *)
Definition addBlock (st : EditorState) (type : BlockType) (now : Z)
  : EditorState :=
  let def := BLOCK_DEFINITIONS type in
  let existingCount := count_of_type type (blocks st) in
  let newCount := (existingCount + 1)%nat in
  let customLabel := d_label def ++ " " ++ string_of_nat newCount in
  let newBlock :=
    mkBlock ("block-" ++ string_of_Z now) type (Some customLabel) true
            (default_sections def) None None None in
  insertNewBlock st newBlock (singleActiveInstance def).

(** The block [addBlockFromLibrary] makes of a library block and passes to
    [insertNewBlock].  Its [customLabel] is what [getSmartLabel] returns, of
    any type, so the block is a record of its own.
    [JSON.parse(JSON.stringify(libraryBlock))] is a copy of the library
    block: its members are JSON values, and a member that is [undefined] is
    left out by the one and so [undefined] after the other. *)
Record LibraryBlockCopy : Type := mkLibraryCopy {
  lc_id : string;
  lc_type : BlockType;
  lc_customLabel : jsval;
  lc_isActive : bool;
  lc_sections : list (string * SectionState);
  lc_customValues : option (list CustomProperty);
  lc_referenceImage : option string;
  lc_isGlobal : option bool
}.

Definition addBlockFromLibrary_newBlock (libraryBlock : BlockState)
    (sourcePreview : option string) (now : Z) : option LibraryBlockCopy :=
  smartName <- getSmartLabel libraryBlock ;;
  Some (mkLibraryCopy ("lib-block-" ++ string_of_Z now) (b_type libraryBlock)
          smartName true (b_sections libraryBlock) (customValues libraryBlock)
          sourcePreview (isGlobal libraryBlock)).

(** [arr.findIndex(pred)]; [None] is -1. *)
Fixpoint findIndex {A : Type} (f : A -> bool) (l : list A) : option nat :=
  match l with
  | [] => None
  | x :: l' => if f x then Some 0 else option_map S (findIndex f l')
  end.

(** [arr.splice(idx + 1, 0, x)], where [idx] may be -1. *)
Definition splice_after {A : Type} (idx : option nat) (x : A) (l : list A)
  : list A :=
  let at_ := match idx with Some i => S i | None => 0 end in
  (firstn at_ l ++ x :: skipn at_ l)%list.

(** [duplicateBlock]. *)
Definition duplicateBlock (st : EditorState) (block : BlockState) (now : Z)
  : EditorState :=
  if some_id (globalBlocks st) (b_id block) then
    mkEditor (blocks st) (globalBlocks st) (useBaseStyle st)
             (selectedBlockId st) (Some "Cannot duplicate Global Block here.")
  else
    let def := BLOCK_DEFINITIONS (b_type block) in
    let existingCount := count_of_type (b_type block) (blocks st) in
    let newCount := (existingCount + 1)%nat in
    let newLabel := d_label def ++ " " ++ string_of_nat newCount in
    let newBlock :=
      mkBlock ("block-" ++ string_of_Z now) (b_type block) (Some newLabel)
              (if singleActiveInstance def then false else isActive block)
              (b_sections block) (customValues block) (referenceImage block)
              (isGlobal block) in
    let idx := findIndex (fun b => String.eqb (b_id b) (b_id block)) (blocks st) in
    mkEditor (splice_after idx newBlock (blocks st)) (globalBlocks st)
             (useBaseStyle st) (Some (b_id newBlock)) (toastMessage st).

(** [updateGlobalBlock] of App.tsx, the [onUpdateGlobalBlock] the editor is
    given. *)
Definition updateGlobalBlock (globals : list BlockState)
    (updatedBlock : BlockState) : list BlockState :=
  map (fun b => if String.eqb (b_id b) (b_id updatedBlock)
                then updatedBlock else b) globals.

(** [toggleBlockActive]. *)
Definition toggleBlockActive (st : EditorState) (block : BlockState)
  : EditorState :=
  let def := BLOCK_DEFINITIONS (b_type block) in
  let willBeActive := negb (isActive block) in
  if some_id (globalBlocks st) (b_id block) then
    let updated := set_isActive block willBeActive in
    mkEditor (blocks st) (updateGlobalBlock (globalBlocks st) updated)
             (useBaseStyle st) (selectedBlockId st) (toastMessage st)
  else
    let is_other (b : BlockState) :=
      BlockType_eqb (b_type b) (b_type block)
      && negb (String.eqb (b_id b) (b_id block)) && isActive b in
    let single := willBeActive && singleActiveInstance def in
    let deactivatedOther := single && existsb is_other (blocks st) in
    let updatedBlocks :=
      if single
      then map (fun b => if is_other b then set_isActive b false else b)
               (blocks st)
      else blocks st in
    let updatedBlocks :=
      map (fun b => if String.eqb (b_id b) (b_id block)
                    then set_isActive b willBeActive else b) updatedBlocks in
    mkEditor updatedBlocks (globalBlocks st) (useBaseStyle st)
             (selectedBlockId st)
             (if deactivatedOther
              then Some ("Switched active " ++ d_label def
                           ++ ". Only one allowed.")
              else toastMessage st).

(** The section update of the block controls ([handleFieldChange],
    [toggleSection]): [{ ...block, sections: { ...block.sections,
    [sectionId]: state } }]. *)
Definition set_section (block : BlockState) (sectionId : string)
    (state : SectionState) : BlockState :=
  mkBlock (b_id block) (b_type block) (customLabel block) (isActive block)
          (obj_set (b_sections block) sectionId state)
          (customValues block) (referenceImage block) (isGlobal block).

(** [createDefaultBlockState] of constants.ts; an override of a section is
    the pair of its [enabled] member and its [fields]; [rnd] stands for
    [Math.random().toString(36).substr(2, 9)]. *)
Definition apply_override (secs : list (string * SectionState))
    (ov : string * (option jsval * list (string * jsval)))
  : list (string * SectionState) :=
  let '(secId, (en, flds)) := ov in
  match obj_get secs secId with
  | Some s =>
      let merged := fold_left (fun fs kv => obj_set fs (fst kv) (snd kv))
                              flds (st_fields s) in
      obj_set secs secId
        (mkSectionState (match en with Some e => Some e | None => enabled s end)
                        merged)
  | None => secs
  end.

Definition createDefaultBlockState (type : BlockType)
    (overrides : list (string * (option jsval * list (string * jsval))))
    (now : Z) (rnd : string) : BlockState :=
  let def := BLOCK_DEFINITIONS type in
  mkBlock ("b-" ++ BlockType_value type ++ "-" ++ string_of_Z now ++ "-" ++ rnd)
          type (Some (d_label def)) true
          (fold_left apply_override overrides (default_sections def))
          None None None.

(** [addGlobalBlock] of the project view. *)
Definition addGlobalBlock (globals : list BlockState) (type : BlockType)
    (now : Z) (rnd : string) : list BlockState :=
  let def := BLOCK_DEFINITIONS type in
  let existingCount := count_of_type type globals in
  let customLabel :=
    if negb (singleActiveInstance def) && (0 <? existingCount)%nat
    then d_label def ++ " " ++ string_of_nat (existingCount + 1)%nat
    else d_label def in
  let created := createDefaultBlockState type [] now rnd in
  let newBlock :=
    mkBlock (b_id created) (b_type created) (Some customLabel)
            (isActive created) (b_sections created) (customValues created)
            (referenceImage created) (isGlobal created) in
  let updatedBlocks :=
    if singleActiveInstance def
    then map (fun b => if BlockType_eqb (b_type b) type && isActive b
                       then set_isActive b false else b) globals
    else globals in
  push updatedBlocks newBlock.

(** One user action on the block list of the editor.  The buttons act on an
    entry of the rendered list, [effectiveBlocks]; an index past its end is
    no click at all. *)
Inductive Op : Type :=
| OpAdd (type : BlockType) (now : Z)
| OpDuplicate (index : nat) (now : Z)
| OpToggle (index : nat).

Definition run_op (st : EditorState) (op : Op) : EditorState :=
  match op with
  | OpAdd type now => addBlock st type now
  | OpDuplicate i now =>
      match nth_error (effectiveBlocks st) i with
      | Some block => duplicateBlock st block now
      | None => st
      end
  | OpToggle i =>
      match nth_error (effectiveBlocks st) i with
      | Some block => toggleBlockActive st block
      | None => st
      end
  end.

Definition run_ops (st : EditorState) (ops : list Op) : EditorState :=
  fold_left run_op ops st.

(** The ids of a scope are distinct; a creating action is given a reading
    of the clock that makes an id not yet in the document. *)
Definition ids_distinct (bs : list BlockState) : Prop := NoDup (map b_id bs).

Definition creates_fresh (st : EditorState) (op : Op) : Prop :=
  match op with
  | OpAdd _ now | OpDuplicate _ now =>
      ~ In ("block-" ++ string_of_Z now) (map b_id (blocks st))
  | OpToggle _ => True
  end.

Fixpoint fresh_run (st : EditorState) (ops : list Op) : Prop :=
  match ops with
  | [] => True
  | op :: ops' => creates_fresh st op /\ fresh_run (run_op st op) ops'
  end.

(** The single-active-instance rule on one scope. *)
Definition active_count (t : BlockType) (bs : list BlockState) : nat :=
  List.length (filter (is_active_of t) bs).

Definition single_active (bs : list BlockState) : Prop :=
  forall t, singleActiveInstance (BLOCK_DEFINITIONS t) = true ->
            (active_count t bs <= 1)%nat.

(* ================================================================== *)
(** * services/geminiService.ts: the import normalizer *)
(* ================================================================== *)

(** [x.k] and [x?.k] for the keys the normalizer reads.  None of them is
    a member of a built-in prototype, so only an object literal has one. *)
Definition member (x : option jsval) (k : string) : option jsval :=
  match x with
  | Some (VObj o) => obj_get o k
  | _ => None
  end.

(** [a ?? b]. *)
Definition nullish (a : option jsval) (b : jsval) : jsval :=
  match a with
  | None | Some VNull => b
  | Some v => v
  end.

Definition BlockType_of_string (s : string) : option BlockType :=
  find (fun t => String.eqb (BlockType_value t) s) BlockType_values.

(** The names [Object.prototype] answers to: looking one up in
    [BLOCK_DEFINITIONS] gives an inherited, truthy value that is no
    definition. *)
Definition Object_prototype_keys : list string :=
  [ "constructor"; "__defineGetter__"; "__defineSetter__"; "hasOwnProperty";
    "__lookupGetter__"; "__lookupSetter__"; "isPrototypeOf";
    "propertyIsEnumerable"; "toString"; "valueOf"; "__proto__";
    "toLocaleString" ].

Inductive Lookup : Type :=
| Found (def : BlockDefinition)
| Inherited
| Undefined.

(** [BLOCK_DEFINITIONS[key]] for an arbitrary property key. *)
Definition BLOCK_DEFINITIONS_at (key : string) : Lookup :=
  match BlockType_of_string key with
  | Some t => Found (BLOCK_DEFINITIONS t)
  | None =>
      if existsb (String.eqb key) Object_prototype_keys
      then Inherited else Undefined
  end.

(** Lines 325-337: the sections rebuilt from the schema. *)
Definition safe_section (rb : jsval) (secDef : BlockSectionDefinition)
  : SectionState :=
  let incomingSec := member (member (Some rb) "sections") (s_id secDef) in
  let finalFields :=
    fold_left
      (fun acc f =>
         obj_set acc (f_id f)
           (nullish (member (member incomingSec "fields") (f_id f))
                    (defaultValue f)))
      (fields secDef) [] in
  mkSectionState
    (if toggleable secDef
     then Some (nullish (member incomingSec "enabled") (VBool false))
     else None)
    finalFields.

Definition safe_sections (rb : jsval) (def : BlockDefinition)
  : list (string * SectionState) :=
  fold_left (fun acc secDef => obj_set acc (s_id secDef) (safe_section rb secDef))
            (sections def) [].

(** Lines 320-347: the callback of [rawBlocks.map]; the inner [None] is an
    element the [filter] of line 348 drops. *)
Definition parse_one (now : Z) (idx : nat) (rb : jsval)
  : option (option BlockState) :=
  type <- get_prop rb "type" ;;
  key <- ToString_opt type ;;
  safeSections <-
    match BLOCK_DEFINITIONS_at key with
    | Found def => Some (safe_sections rb def)
    | Inherited => None
    | Undefined => Some []
    end ;;
  let generated :=
    "generated-" ++ string_of_Z now ++ "-" ++ string_of_nat idx in
  id <-
    match member (Some rb) "id" with
    | None => Some generated
    | Some v =>
        if truthy v then
          match v with
          | VStr s => Some (if String.prefix "b-" s then s else generated)
          | _ => None
          end
        else Some generated
    end ;;
  Some match type with
       | Some (VStr s) =>
           match BlockType_of_string s with
           | Some t => Some (mkBlock id t None true safeSections None None None)
           | None => None
           end
       | _ => None
       end.

Fixpoint parse_from (now : nat -> Z) (idx : nat) (rawBlocks : list jsval)
  : option (list (option BlockState)) :=
  match rawBlocks with
  | [] => Some []
  | rb :: rest =>
      b <- parse_one (now idx) idx rb ;;
      bs <- parse_from now (S idx) rest ;;
      Some (b :: bs)
  end.

(** [parseRawBlocksToState]; [now idx] is the reading of [Date.now()] while
    element [idx] is converted. *)
Definition parseRawBlocksToState (now : nat -> Z) (rawBlocks : list jsval)
  : option (list BlockState) :=
  option_map (@keep_some BlockState) (parse_from now 0 rawBlocks).

(* ================================================================== *)
(** * components/Editor: the change summary of the history ledger *)
(* ================================================================== *)

Definition hex_digit (n : nat) : ascii :=
  ascii_of_nat (if (n <? 10)%nat then 48 + n else 87 + n).

(** [QuoteJSONString], one code unit at a time. *)
Fixpoint json_escape (s : string) : string :=
  match s with
  | EmptyString => EmptyString
  | String c s' =>
      let n := nat_of_ascii c in
      (if (n =? 34)%nat then "\" ++ dquote
       else if (n =? 92)%nat then "\\"
       else if (n =? 8)%nat then "\b"
       else if (n =? 12)%nat then "\f"
       else if (n =? 10)%nat then "\n"
       else if (n =? 13)%nat then "\r"
       else if (n =? 9)%nat then "\t"
       else if (n <? 32)%nat
       then "\u00" ++ String (hex_digit (n / 16)) (String (hex_digit (n mod 16)) "")
       else String c "")
      ++ json_escape s'
  end.

Definition json_quote (s : string) : string := dquote ++ json_escape s ++ dquote.

(** [JSON.stringify] on a JSON value. *)
Fixpoint JSON_stringify (v : jsval) : string :=
  match v with
  | VNull => "null"
  | VBool true => "true"
  | VBool false => "false"
  | VNum n => string_of_Z n
  | VStr s => json_quote s
  | VArr l => "[" ++ String.concat "," (map JSON_stringify l) ++ "]"
  | VObj o =>
      "{" ++ String.concat ","
               (map (fun kv => json_quote (fst kv) ++ ":" ++ JSON_stringify (snd kv)) o)
          ++ "}"
  end.

Definition stringify_object {A : Type} (f : A -> string)
    (o : list (string * A)) : string :=
  "{" ++ String.concat "," (map (fun kv => json_quote (fst kv) ++ ":" ++ f (snd kv)) o)
      ++ "}".

(** A section state is written [{ enabled, fields }] wherever the source
    creates one, so [enabled] is serialised first; a member that is
    [undefined] is left out. *)
Definition stringify_section (st : SectionState) : string :=
  "{" ++ match enabled st with
         | Some e => json_quote "enabled" ++ ":" ++ JSON_stringify e ++ ","
         | None => ""
         end
      ++ json_quote "fields" ++ ":" ++ stringify_object JSON_stringify (st_fields st)
      ++ "}".

Definition stringify_sections (secs : list (string * SectionState)) : string :=
  stringify_object stringify_section secs.

Definition CustomType_value (t : CustomType) : string :=
  match t with
  | CText => "text"
  | CSlider => "slider"
  | CCheckbox => "checkbox"
  | CColor => "color"
  end.

Definition stringify_custom (cv : CustomProperty) : string :=
  "{" ++ json_quote "id" ++ ":" ++ json_quote (cp_id cv) ++ ","
      ++ json_quote "label" ++ ":" ++ json_quote (cp_label cv) ++ ","
      ++ json_quote "type" ++ ":" ++ json_quote (CustomType_value (cp_type cv))
      ++ match cp_value cv with
         | Some v => "," ++ json_quote "value" ++ ":" ++ JSON_stringify v
         | None => ""
         end
      ++ "}".

(** [JSON.stringify(b.customValues)]: [undefined] for a missing member. *)
Definition stringify_customValues (cvs : option (list CustomProperty))
  : option string :=
  option_map (fun l => "[" ++ String.concat "," (map stringify_custom l) ++ "]") cvs.

Definition option_string_eqb (a b : option string) : bool :=
  match a, b with
  | Some x, Some y => String.eqb x y
  | None, None => true
  | _, _ => false
  end.

(** [new Map(blocks.map(b => [b.id, b]))]: a repeated id keeps its first
    position and its last block. *)
Definition Map_of_blocks (bs : list BlockState) : list (string * BlockState) :=
  fold_left (fun m b => obj_set m (b_id b) b) bs [].

Definition Map_has {A : Type} (m : list (string * A)) (k : string) : bool :=
  match obj_get m k with Some _ => true | None => false end.

(** [changes.add(x)] on a [Set<string>], kept in insertion order. *)
Definition Set_add (set : list string) (x : string) : list string :=
  if existsb (String.eqb x) set then set else push set x.

(** [`${getSmartLabel(b)}`]. *)
Definition label_text (b : BlockState) : option string :=
  l <- getSmartLabel b ;; ToString l.

(** Lines 52-57: what makes a block that is in both lists a modified one. *)
Definition block_changed (b old : BlockState) : bool :=
  let sectionsChanged :=
    negb (String.eqb (stringify_sections (b_sections b))
                     (stringify_sections (b_sections old))) in
  let activeChanged := negb (Bool.eqb (isActive b) (isActive old)) in
  let labelChanged := negb (option_string_eqb (customLabel b) (customLabel old)) in
  let customChanged :=
    negb (option_string_eqb (stringify_customValues (customValues b))
                            (stringify_customValues (customValues old))) in
  sectionsChanged || activeChanged || labelChanged || customChanged.

(** [changeList] of [getChangeSummary]: the three passes over the blocks,
    each adding to the set the description of a block it finds changed;
    printing a label may throw. *)
Definition changeList (oldBlocks newBlocks : list BlockState)
  : option (list string) :=
  let oldMap := Map_of_blocks oldBlocks in
  let newMap := Map_of_blocks newBlocks in
  changes <-
    foldM (fun ch b => if negb (Map_has oldMap (b_id b))
                       then l <- label_text b ;; Some (Set_add ch ("Added " ++ l))
                       else Some ch)
          [] newBlocks ;;
  changes <-
    foldM (fun ch b => if negb (Map_has newMap (b_id b))
                       then l <- label_text b ;; Some (Set_add ch ("Removed " ++ l))
                       else Some ch)
          changes oldBlocks ;;
  foldM (fun ch b => match obj_get oldMap (b_id b) with
                     | Some old =>
                         if block_changed b old
                         then l <- label_text b ;;
                              Some (Set_add ch ("Modified " ++ l))
                         else Some ch
                     | None => Some ch
                     end)
        changes newBlocks.

Definition summary_of (changeList : list string) : string :=
  match changeList with
  | [] => "Regenerated"
  | [c0] => c0
  | [c0; c1] => c0 ++ ", " ++ c1
  | c0 :: _ =>
      string_of_nat (List.length changeList) ++ " Changes (e.g. " ++ c0 ++ ")"
  end.

Definition getChangeSummary (oldBlocks newBlocks : list BlockState)
  : option string :=
  option_map summary_of (changeList oldBlocks newBlocks).

(** ** Reading a serialisation

    What the comparison of two serialisations can tell apart: the
    characters a number is written with, the character a quoted string
    holds first, the kind of value a text starts. *)

Definition is_num_char (c : ascii) : bool :=
  let n := nat_of_ascii c in
  ((48 <=? n)%nat && (n <=? 57)%nat) || (n =? 45)%nat.

Fixpoint all_num (s : string) : bool :=
  match s with
  | EmptyString => true
  | String c s' => is_num_char c && all_num s'
  end.

(** What may follow a value in a serialisation: nothing, or a character
    that no number holds. *)
Definition num_tail (r : string) : Prop :=
  match r with
  | EmptyString => True
  | String c _ => is_num_char c = false
  end.

Fixpoint span_num (s : string) : string * string :=
  match s with
  | EmptyString => (EmptyString, EmptyString)
  | String c s' =>
      if is_num_char c
      then (String c (fst (span_num s')), snd (span_num s'))
      else (EmptyString, s)
  end.

Definition hex_val (c : ascii) : option nat :=
  let n := nat_of_ascii c in
  if (48 <=? n)%nat && (n <=? 57)%nat then Some (n - 48)%nat
  else if (97 <=? n)%nat && (n <=? 102)%nat then Some (n - 87)%nat
  else None.

(** The character a quoted string holds first, and the text after it;
    [None] at the closing quote. *)
Definition unescape_head (s : string) : option (ascii * string) :=
  match s with
  | EmptyString => None
  | String c s' =>
      if (nat_of_ascii c =? 34)%nat then None
      else if (nat_of_ascii c =? 92)%nat then
        match s' with
        | EmptyString => None
        | String e s'' =>
            let m := nat_of_ascii e in
            if (m =? 34)%nat then Some (ascii_of_nat 34, s'')
            else if (m =? 92)%nat then Some (ascii_of_nat 92, s'')
            else if (m =? 98)%nat then Some (ascii_of_nat 8, s'')
            else if (m =? 102)%nat then Some (ascii_of_nat 12, s'')
            else if (m =? 110)%nat then Some (ascii_of_nat 10, s'')
            else if (m =? 114)%nat then Some (ascii_of_nat 13, s'')
            else if (m =? 116)%nat then Some (ascii_of_nat 9, s'')
            else if (m =? 117)%nat then
              match s'' with
              | String _ (String _ (String h1 (String h2 rest))) =>
                  match hex_val h1, hex_val h2 with
                  | Some a, Some b => Some (ascii_of_nat (16 * a + b), rest)
                  | _, _ => None
                  end
              | _ => None
              end
            else None
        end
      else Some (c, s')
  end.

Inductive kind := KNull | KBool | KNum | KStr | KArr | KObj.

Definition kind_of (v : jsval) : kind :=
  match v with
  | VNull => KNull
  | VBool _ => KBool
  | VNum _ => KNum
  | VStr _ => KStr
  | VArr _ => KArr
  | VObj _ => KObj
  end.

(** The first character of a serialisation tells which kind of value it
    is. *)
Definition head_kind (s : string) : option kind :=
  match s with
  | EmptyString => None
  | String c _ =>
      let n := nat_of_ascii c in
      if (n =? 110)%nat then Some KNull
      else if (n =? 116)%nat || (n =? 102)%nat then Some KBool
      else if is_num_char c then Some KNum
      else if (n =? 34)%nat then Some KStr
      else if (n =? 91)%nat then Some KArr
      else if (n =? 123)%nat then Some KObj
      else None
  end.

Definition delimits {A : Type} (ser : A -> string) (a : A) : Prop :=
  forall a' r r', num_tail r -> num_tail r' ->
                  ser a ++ r = ser a' ++ r' -> a = a' /\ r = r'.

Definition starts_with (c : ascii) (s : string) : Prop :=
  match s with
  | EmptyString => False
  | String c' _ => c' = c
  end.

(* ================================================================== *)
(** * components/Labs: the grain stage and the drag interaction *)
(* ================================================================== *)

Module Labs.

(** ** The grain stage *)

(** The stage computes as the source does, in IEEE 754 double precision:
    [float] is the kernel's type of binary64 numbers, whose operations
    round to nearest, ties to even.  A byte of the image data is read as
    the number it holds. *)
Definition byte_to_float (z : Z) : float := PrimFloat.of_uint63 (Uint63.of_Z z).

(** The store conversion of a [Uint8ClampedArray] ([ToUint8Clamp]): NaN is
    0; any other number is clamped to [0, 255] and rounded to the nearest
    integer, ties to even.  A number strictly between 0 and 255 is
    [m * 2^e] for the mantissa and the exponent of its representation. *)
Definition ToUint8Clamp (x : float) : Z :=
  if PrimFloat.is_nan x then 0%Z
  else if PrimFloat.leb x 0 then 0%Z
  else if PrimFloat.leb 255 x then 255%Z
  else
    match Prim2SF x with
    | S754_finite _ m e =>
        if (0 <=? e)%Z then (Z.pos m * 2 ^ e)%Z
        else
          let d := (2 ^ (- e))%Z in
          let f := (Z.pos m / d)%Z in
          let r := (Z.pos m mod d)%Z in
          match (2 * r ?= d)%Z with
          | Lt => f
          | Gt => (f + 1)%Z
          | Eq => if Z.even f then f else (f + 1)%Z
          end
    | _ => 0%Z
    end.

(** [factor] of the grain stage. *)
Definition grain_factor (grain : float) : float :=
  ((grain / 100) * 255 * 0.2)%float.

(** [noise] for the draw [r] of [Math.random()]. *)
Definition grain_noise (grain r : float) : float :=
  ((r - 0.5) * grain_factor grain)%float.

(** The loop over [imageData.data], four entries a pixel; [rand k] is the
    [k]-th value [Math.random()] returns and [k] counts the calls made. *)
Fixpoint grain_loop (grain : float) (rand : nat -> float) (k : nat)
    (data : list Z) : list Z :=
  match data with
  | r :: g :: b :: a :: rest =>
      if (a =? 0)%Z then r :: g :: b :: a :: grain_loop grain rand k rest
      else
        let noise := grain_noise grain (rand k) in
        ToUint8Clamp (byte_to_float r + noise)%float
          :: ToUint8Clamp (byte_to_float g + noise)%float
          :: ToUint8Clamp (byte_to_float b + noise)%float
          :: a :: grain_loop grain rand (S k) rest
  | _ => data
  end.

(** Lines 1004-1016; [f.grain > 0] is false of NaN. *)
Definition grain_stage (grain : float) (rand : nat -> float) (data : list Z)
  : list Z :=
  if PrimFloat.ltb 0 grain then grain_loop grain rand 0 data else data.

(** The pixel at an index of the data, as (R, G, B, A). *)
Definition pixel_at (data : list Z) (i : nat) : option (Z * Z * Z * Z) :=
  match skipn (4 * i) data with
  | r :: g :: b :: a :: _ => Some (r, g, b, a)
  | _ => None
  end.

(** How many of the pixels before index [i] are not fully transparent. *)
Fixpoint opaque_before (data : list Z) (i : nat) : nat :=
  match i, data with
  | S i', r :: g :: b :: a :: rest =>
      ((if (a =? 0)%Z then 0 else 1) + opaque_before rest i')%nat
  | _, _ => 0%nat
  end.

(** The grain stage as the specification words it: noise scaled by
    grain / 255 * 0.2, drawn afresh for each of the three channels. *)
Definition spec_grain_noise (grain r : float) : float :=
  ((r - 0.5) * (grain / 255 * 0.2))%float.

Fixpoint spec_grain_loop (grain : float) (rand : nat -> float) (k : nat)
    (data : list Z) : list Z :=
  match data with
  | r :: g :: b :: a :: rest =>
      if (a =? 0)%Z then r :: g :: b :: a :: spec_grain_loop grain rand k rest
      else
        ToUint8Clamp (byte_to_float r + spec_grain_noise grain (rand k))%float
          :: ToUint8Clamp
               (byte_to_float g + spec_grain_noise grain (rand (S k)))%float
          :: ToUint8Clamp
               (byte_to_float b + spec_grain_noise grain (rand (S (S k))))%float
          :: a :: spec_grain_loop grain rand (S (S (S k))) rest
  | _ => data
  end.

Definition spec_grain_stage (grain : float) (rand : nat -> float)
    (data : list Z) : list Z :=
  if PrimFloat.ltb 0 grain then spec_grain_loop grain rand 0 data else data.

(** Draws of [Math.random()]: 3/4 first, 1/4 ever after. *)
Definition ex_rand (k : nat) : float :=
  match k with
  | O => 0.75%float
  | _ => 0.25%float
  end.

(** A draw that puts the sum for a byte of 100, at grain 100, half way
    between 100 and 101 once the sum is rounded to a double:
    4591905502416977 / 2^53. *)
Definition ex_tie_draw : float :=
  (PrimFloat.of_uint63 4591905502416977
   / PrimFloat.of_uint63 9007199254740992)%float.

(** A grey opaque pixel, a fully transparent one, another grey opaque one. *)
Definition ex_data : list Z :=
  [100; 100; 100; 255;  7; 8; 9; 0;  100; 100; 100; 128]%Z.

Local Open Scope Q_scope.

(** ** The drag state machine *)

Inductive DragMode : Type := DragNone | DragMove | DragResize.

(** The overlays of the [state] prop, which [onChange] replaces, and the
    component state of [LabsCanvas]. *)
Record Canvas : Type := mkCanvas {
  overlays : list TextOverlay;
  selectedId : option string;
  dragMode : DragMode;
  dragStart : Q * Q;
  initialOverlayState : option TextOverlay
}.

(** A pointer event, with the bounding rectangle of the canvas element at
    the time of the event. *)
Record PointerEvent : Type := mkPointer {
  clientX : Q;
  clientY : Q;
  rectWidth : Q;
  rectHeight : Q
}.

Definition set_xy (o : TextOverlay) (x y : Q) : TextOverlay :=
  mkOverlay (o_id o) (o_text o) x y (o_size o) (o_color o) (o_font o)
            (o_shadow o) (o_bg o) (o_letterSpacing o).

Definition set_size (o : TextOverlay) (size : Q) : TextOverlay :=
  mkOverlay (o_id o) (o_text o) (o_x o) (o_y o) size (o_color o) (o_font o)
            (o_shadow o) (o_bg o) (o_letterSpacing o).

(** [handlePointerDown], given what [getHitInfo] found under the pointer
    (the text metrics it measures are the browser's). *)
Definition handlePointerDown (c : Canvas)
    (hit : option (DragMode * TextOverlay)) (e : PointerEvent) : Canvas :=
  match hit with
  | Some (mode, overlay) =>
      mkCanvas (overlays c) (Some (o_id overlay)) mode (clientX e, clientY e)
               (Some overlay)
  | None =>
      mkCanvas (overlays c) None DragNone (dragStart c) (initialOverlayState c)
  end.

(** [handlePointerMove]. *)
Definition handlePointerMove (c : Canvas) (e : PointerEvent) : Canvas :=
  match dragMode c, initialOverlayState c with
  | DragNone, _ => c
  | _, None => c
  | mode, Some initial =>
      let deltaX := clientX e - fst (dragStart c) in
      let deltaY := clientY e - snd (dragStart c) in
      let deltaPctX := (deltaX / rectWidth e) * 100 in
      let deltaPctY := (deltaY / rectHeight e) * 100 in
      let updatedOverlays :=
        match mode with
        | DragMove =>
            let newX := Qmax 0 (Qmin 100 (o_x initial + deltaPctX)) in
            let newY := Qmax 0 (Qmin 100 (o_y initial + deltaPctY)) in
            map (fun o => if String.eqb (o_id o) (o_id initial)
                          then set_xy o newX newY else o) (overlays c)
        | _ =>
            let scaleDelta := (deltaX + deltaY) / 2 in
            let newSize :=
              Qmax 10 (Qmin 300 (o_size initial + scaleDelta * (1 # 2))) in
            map (fun o => if String.eqb (o_id o) (o_id initial)
                          then set_size o newSize else o) (overlays c)
        end in
      mkCanvas updatedOverlays (selectedId c) (dragMode c) (dragStart c)
               (initialOverlayState c)
  end.

(** [onPointerUp]. *)
Definition handlePointerUp (c : Canvas) : Canvas :=
  mkCanvas (overlays c) (selectedId c) DragNone (dragStart c)
           (initialOverlayState c).

(** What a drag may change of an overlay: the position (or the size) of
    the overlay that is dragged, nothing of any other. *)
Definition dragged (mode : DragMode) (initial o o' : TextOverlay) : Prop :=
  if String.eqb (o_id o) (o_id initial) then
    match mode with
    | DragMove => exists x y, o' = set_xy o x y
    | _ => exists size, o' = set_size o size
    end
  else o' = o.

(** The pointer positions reached by incremental moves from a start. *)
Fixpoint positions (p : Q * Q) (deltas : list (Q * Q)) : list (Q * Q) :=
  match deltas with
  | [] => []
  | d :: ds =>
      let p' := (fst p + fst d, snd p + snd d) in
      p' :: positions p' ds
  end.

Definition last_position (p : Q * Q) (deltas : list (Q * Q)) : Q * Q :=
  fold_left (fun p d => (fst p + fst d, snd p + snd d)) deltas p.

Definition sum_fst (l : list (Q * Q)) : Q := fold_right (fun d s => fst d + s) 0 l.
Definition sum_snd (l : list (Q * Q)) : Q := fold_right (fun d s => snd d + s) 0 l.

(** A run of pointer-move events over a canvas element of fixed size. *)
Definition move_through (w h : Q) (c : Canvas) (ps : list (Q * Q)) : Canvas :=
  fold_left (fun c p => handlePointerMove c (mkPointer (fst p) (snd p) w h)) ps c.

(** An overlay at the centre of the canvas, picked up for a move with the
    pointer at (500, 250) on a canvas element 1000 by 500 pixels, and moved
    in three steps; a second overlay lies elsewhere. *)
Definition ex_overlay : TextOverlay :=
  mkOverlay "text-1" "Title" 50 50 40 "#ffffff" "Inter" true "transparent" 0.

Definition ex_other_overlay : TextOverlay :=
  mkOverlay "text-2" "Caption" 20 80 24 "#ffffff" "Inter" false "#000000" 2.

Definition ex_canvas : Canvas :=
  handlePointerDown
    (mkCanvas [ex_overlay; ex_other_overlay] None DragNone (0, 0) None)
    (Some (DragMove, ex_overlay)) (mkPointer 500 250 1000 500).

Definition ex_deltas : list (Q * Q) := [(30, 10); (40, 10); (30, 5)].

End Labs.

(* ================================================================== *)
(** * The specification's wording, for comparison *)
(* ================================================================== *)

(** The effective list as the specification words it: the globals, less
    each one whose type is single-instance and has a local block of the
    same type, followed by the locals. *)
Definition spec_effective_list (locals globals : list BlockState)
  : list BlockState :=
  (filter (fun gb =>
             negb (singleActiveInstance (BLOCK_DEFINITIONS (b_type gb))
                   && has_type (map b_type locals) (b_type gb))) globals
   ++ locals)%list.

(** A value in which no object has a member named [toString]: it prints,
    whatever part of it is printed. *)
Fixpoint plain (v : jsval) : bool :=
  match v with
  | VArr l => forallb plain l
  | VObj o =>
      negb (has_own o "toString") && forallb (fun kv => plain (snd kv)) o
  | _ => true
  end.

(** Field values of the declared shapes: no [null], nothing that does not
    print, and the items of a list either plain values or objects whose
    [details], when present, is an array. *)
Definition item_well_typed (item : jsval) : bool :=
  match item with
  | VNull => false
  | VObj o =>
      match obj_get o "details" with
      | None | Some (VArr _) => true
      | _ => false
      end
  | _ => true
  end.

Definition value_well_typed (v : jsval) : bool :=
  plain v
  && match v with
     | VNull => false
     | VArr l => forallb item_well_typed l
     | _ => true
     end.

(** A custom property whose value, when it has one, prints. *)
Definition custom_well_typed (cv : CustomProperty) : bool :=
  match cp_value cv with
  | Some v => plain v
  | None => true
  end.

Definition block_well_typed (b : BlockState) : bool :=
  forallb (fun sec => forallb (fun fld => value_well_typed (snd fld))
                              (st_fields (snd sec)))
          (b_sections b)
  && match customValues b with
     | Some cvs => forallb custom_well_typed cvs
     | None => true
     end.

(** The changes between two block lists: the blocks added, removed and
    modified, each with the verb of its description, repetitions
    included. *)
Definition last_with_id (bs : list BlockState) (i : string) : option BlockState :=
  find (fun b => String.eqb (b_id b) i) (rev bs).

Definition is_modified (oldBlocks : list BlockState) (b : BlockState) : bool :=
  match last_with_id oldBlocks (b_id b) with
  | Some old => block_changed b old
  | None => false
  end.

Definition added_blocks (oldBlocks newBlocks : list BlockState) : list BlockState :=
  filter (fun b => negb (some_id oldBlocks (b_id b))) newBlocks.

Definition removed_blocks (oldBlocks newBlocks : list BlockState) : list BlockState :=
  filter (fun b => negb (some_id newBlocks (b_id b))) oldBlocks.

Definition modified_blocks (oldBlocks newBlocks : list BlockState) : list BlockState :=
  filter (is_modified oldBlocks) newBlocks.

Definition changed_blocks (oldBlocks newBlocks : list BlockState)
  : list (string * BlockState) :=
  (map (pair "Added ") (added_blocks oldBlocks newBlocks)
   ++ map (pair "Removed ") (removed_blocks oldBlocks newBlocks)
   ++ map (pair "Modified ") (modified_blocks oldBlocks newBlocks))%list.

(** The description of a change; printing the label may throw. *)
Definition describe (change : string * BlockState) : option string :=
  l <- label_text (snd change) ;; Some (fst change ++ l).

Definition change_descriptions (oldBlocks newBlocks : list BlockState)
  : option (list string) :=
  mapM describe (changed_blocks oldBlocks newBlocks).

(** The strings of a list, each at its first occurrence. *)
Fixpoint first_occurrences (l : list string) : list string :=
  match l with
  | [] => []
  | x :: l' =>
      x :: filter (fun y => negb (String.eqb y x)) (first_occurrences l')
  end.

(** The type of an incoming block, when it is one of the schema's. *)
Definition recognized_type (rb : jsval) : option BlockType :=
  match member (Some rb) "type" with
  | Some (VStr s) => BlockType_of_string s
  | _ => None
  end.

(** The value the incoming block offers for a field of a section. *)
Definition incoming_field (rb : jsval) (secId fieldId : string) : option jsval :=
  member (member (member (member (Some rb) "sections") secId) "fields") fieldId.

Definition incoming_enabled (rb : jsval) (secId : string) : option jsval :=
  member (member (member (Some rb) "sections") secId) "enabled".

(** The sections of a normalized block, section by section and field by
    field of the schema: the incoming value when there is one and it is not
    null, the default otherwise. *)
Definition normalized_sections (rb : jsval) (t : BlockType)
  : list (string * SectionState) :=
  map (fun sd =>
         (s_id sd,
          mkSectionState
            (if toggleable sd
             then Some (nullish (incoming_enabled rb (s_id sd)) (VBool false))
             else None)
            (map (fun f =>
                    (f_id f,
                     nullish (incoming_field rb (s_id sd) (f_id f))
                             (defaultValue f)))
                 (fields sd))))
      (sections (BLOCK_DEFINITIONS t)).

(** An incoming element the normalizer converts without a [TypeError]: not
    [null]; its type missing, or a string that names no inherited member of
    the definitions table, or [null] or a boolean; its id missing, falsy or
    a string. *)
Definition well_shaped (rb : jsval) : bool :=
  match rb with
  | VNull => false
  | _ =>
      match member (Some rb) "type" with
      | None => true
      | Some (VStr s) =>
          match BLOCK_DEFINITIONS_at s with
          | Inherited => false
          | _ => true
          end
      | Some (VNull | VBool _) => true
      | Some (VNum _ | VArr _ | VObj _) => false
      end
      && match member (Some rb) "id" with
         | None => true
         | Some v => negb (truthy v) || match v with VStr _ => true | _ => false end
         end
  end.


(** Pairwise distinct strings. *)
Fixpoint distinctb (l : list string) : bool :=
  match l with
  | [] => true
  | x :: l' => negb (existsb (String.eqb x) l') && distinctb l'
  end.

(** A condition holding of the value of its controlling field. *)
Definition condition_holds (v : CondValue) (x : option jsval) : Prop :=
  match v with
  | CondScalar s => x = Some (VStr s)
  | CondSet l => exists s, In s l /\ x = Some (VStr s)
  end.

(* ================================================================== *)
(** * Sample states *)
(* ================================================================== *)

(** A Subject block as [addBlock] creates it, renamed "Detective" and
    given that role. *)
Definition ex_subject : BlockState :=
  mkBlock "block-1" SUBJECT (Some "Detective") true
    (obj_set (default_sections SUBJECT_definition) "core"
       (mkSectionState None
          [("category", VStr "Human"); ("count", VStr "Single");
           ("role", VStr "Detective")]))
    None None None.

(** A Background block set outdoors in a rain-soaked alley, its other
    sections as created. *)
Definition ex_background : BlockState :=
  mkBlock "block-2" BACKGROUND (Some "Background 1") true
    (obj_set (default_sections BACKGROUND_definition) "setting"
       (mkSectionState None
          [("type", VStr "Outdoor"); ("environment", VStr "Rain-soaked alley");
           ("time", VStr "Day")]))
    None None None.

(** The same Background block after its "Background Removal" section was
    switched on, its "Transparent BG" field set, and the section switched
    off again: [toggleSection] keeps the fields of a section it disables. *)
Definition ex_background_masked : BlockState :=
  mkBlock "block-2" BACKGROUND (Some "Background 1") true
    (obj_set (b_sections ex_background) "transparency"
       (mkSectionState (Some (VBool false)) [("remove_bg", VBool true)]))
    None None None.

(** A project to which two global Background blocks were added in the
    project view, and a document of it, with no block of its own, open in
    the editor with the base style in use. *)
Definition ex_globals : list BlockState :=
  addGlobalBlock (addGlobalBlock [] BACKGROUND 1 "k3j9x0a1b") BACKGROUND 2
                 "q7w2e5r8t".

Definition ex_editor : EditorState := mkEditor [] ex_globals true None None.

(** A document whose own Background block is switched off, in a project
    with an active global Background block. *)
Definition ex_background_off : BlockState := set_isActive ex_background false.

Definition ex_global_background : BlockState :=
  createDefaultBlockState BACKGROUND [] 1 "k3j9x0a1b".

(** A Mood block whose emotion section was filled in. *)
Definition ex_mood : BlockState :=
  mkBlock "block-3" MOOD (Some "Mood 1") true
    (obj_set (default_sections MOOD_definition) "emotion"
       (mkSectionState None [("primary", VStr "Happy"); ("intensity", VNum 90)]))
    None None None.

(** What a model may return for a Subject: a number where the schema has
    the select field [category], whose default is the string "Human". *)
Definition ex_raw_mistyped : jsval :=
  VObj [("type", VStr "Subject");
        ("sections",
         VObj [("core", VObj [("fields", VObj [("category", VNum 42)])])])].

(** Two Background blocks in one answer of the model, and a block of a type
    the schema does not have. *)
Definition ex_raw_two_backgrounds : list jsval :=
  [ VObj [("id", VStr "b-1"); ("type", VStr "Background & Atmosphere")];
    VObj [("type", VStr "Weather")];
    VObj [("id", VStr "b-2"); ("type", VStr "Background & Atmosphere");
          ("isActive", VBool false)] ].

(** Three Subject blocks added in the editor and left as created, and the
    same three after each was switched off. *)
Definition ex_three_subjects : list BlockState :=
  blocks (run_ops (mkEditor [] [] true None None)
            [OpAdd SUBJECT 1; OpAdd SUBJECT 2; OpAdd SUBJECT 3]).

Definition ex_three_subjects_off : list BlockState :=
  blocks (run_ops (mkEditor ex_three_subjects [] true None None)
            [OpToggle 0; OpToggle 1; OpToggle 2]).

(** A Subject, a Background and a Mood block, and the same three after
    each was switched off. *)
Definition ex_scene : list BlockState := [ex_subject; ex_background; ex_mood].

Definition ex_scene_off : list BlockState :=
  map (fun b => set_isActive b false) ex_scene.

(* ================================================================== *)
(** * String methods *)
(* ================================================================== *)

(** The methods below classify characters; they read each character of a
    string as the code unit of that value (0 to 255). *)

(** [WhiteSpace] and [LineTerminator], which [trim] strips and the regular
    expression class [\s] matches: TAB, LF, VT, FF, CR, SP and NBSP. *)
Definition is_whitespace (c : ascii) : bool :=
  let n := nat_of_ascii c in
  (n =? 9)%nat || (n =? 10)%nat || (n =? 11)%nat || (n =? 12)%nat
  || (n =? 13)%nat || (n =? 32)%nat || (n =? 160)%nat.

Fixpoint trimStart (s : string) : string :=
  match s with
  | EmptyString => EmptyString
  | String c s' => if is_whitespace c then trimStart s' else s
  end.

Fixpoint trimEnd (s : string) : string :=
  match s with
  | EmptyString => EmptyString
  | String c s' =>
      match trimEnd s' with
      | EmptyString => if is_whitespace c then EmptyString else String c EmptyString
      | t => String c t
      end
  end.

(** [s.trim()]. *)
Definition trim (s : string) : string := trimEnd (trimStart s).

(** [s.toLowerCase()]: the letters A-Z and the capital letters of the
    Latin-1 block (192-222, the multiplication sign 215 apart) move 32 up. *)
Definition toLowerCase_unit (c : ascii) : ascii :=
  let n := nat_of_ascii c in
  if ((65 <=? n)%nat && (n <=? 90)%nat)
     || ((192 <=? n)%nat && (n <=? 222)%nat && negb (n =? 215)%nat)
  then ascii_of_nat (n + 32) else c.

Fixpoint toLowerCase (s : string) : string :=
  match s with
  | EmptyString => EmptyString
  | String c s' => String (toLowerCase_unit c) (toLowerCase s')
  end.

(** [s.includes(sub)]. *)
Fixpoint String_includes (s sub : string) : bool :=
  String.prefix sub s
  || match s with
     | EmptyString => false
     | String _ s' => String_includes s' sub
     end.

(** [s.startsWith(p)]. *)
Definition startsWith (s p : string) : bool := String.prefix p s.

(** The rest of a string after its first [n] characters. *)
Fixpoint drop (n : nat) (s : string) : string :=
  match n, s with
  | O, _ => s
  | S n', String _ s' => drop n' s'
  | S _, EmptyString => EmptyString
  end.

(** [s.replace(pat, rep)] for a string pattern and a replacement without
    [$]: the first occurrence only. *)
Fixpoint replace (pat rep s : string) : string :=
  if String.prefix pat s then rep ++ drop (String.length pat) s
  else match s with
       | EmptyString => EmptyString
       | String c s' => String c (replace pat rep s')
       end.

(** [s.replace(/pat/g, '')] for a literal, non-empty pattern: scanning from
    the left, every match is skipped and the scan resumes after it; [skip]
    counts the characters of the current match still to pass. *)
Fixpoint remove_all_from (pat : string) (skip : nat) (s : string) : string :=
  match s with
  | EmptyString => EmptyString
  | String c s' =>
      match skip with
      | S k => remove_all_from pat k s'
      | O =>
          if String.prefix pat s
          then remove_all_from pat (String.length pat - 1) s'
          else String c (remove_all_from pat 0 s')
      end
  end.

Definition remove_all (pat s : string) : string := remove_all_from pat 0 s.

(** [s.replace(/\s+/g, rep)]: each maximal run of whitespace becomes one
    [rep]; [inRun] tells that the previous character was whitespace. *)
Fixpoint replace_whitespace_runs (rep : string) (inRun : bool) (s : string)
  : string :=
  match s with
  | EmptyString => EmptyString
  | String c s' =>
      if is_whitespace c
      then (if inRun then "" else rep) ++ replace_whitespace_runs rep true s'
      else String c (replace_whitespace_runs rep false s')
  end.


(* ================================================================== *)
(** * services/geminiService.ts: the API key and the retry loop *)
(* ================================================================== *)

(** What [getEffectiveApiKey] reads: [localStorage.getItem('gemini_api_key')]
    (a string or [null]) and [process.env.API_KEY]. *)
Record KeyStore : Type := mkKeyStore {
  gemini_api_key : option string;
  API_KEY : option jsval
}.

(** [getEffectiveApiKey]. *)
Definition getEffectiveApiKey (env : KeyStore) : string :=
  let fromEnv :=
    match API_KEY env with
    | Some (VStr envKey) =>
        if nonempty envKey && (0 <? String.length envKey)%nat
           && negb (String_includes envKey "undefined")
        then trim envKey else ""
    | _ => ""
    end in
  match gemini_api_key env with
  | Some localKey =>
      if nonempty localKey && (0 <? String.length (trim localKey))%nat
      then trim localKey else fromEnv
  | None => fromEnv
  end.

(** [handleSaveApiKey] of App.tsx: the key store it leaves, the
    [hasEffectiveKey] flag and the toast. *)
Definition handleSaveApiKey (env : KeyStore) (customApiKey : string)
  : KeyStore * bool * string :=
  if nonempty (trim customApiKey)
  then (mkKeyStore (Some (trim customApiKey)) (API_KEY env), true,
        "Custom API Key saved.")
  else (mkKeyStore None (API_KEY env), truthy_opt (API_KEY env),
        "Custom API Key removed.").

(** What the [catch] clause of [retryWithBackoff] reads of the value thrown:
    [error?.status], [error?.response?.status], [error?.message], and the
    text [JSON.stringify(error)], [None] when that is [undefined] or the
    call throws. *)
Record Thrown : Type := mkThrown {
  e_status : option jsval;
  e_response_status : option jsval;
  e_message : option jsval;
  e_json : option string
}.

(** How one call of [operation] ends. *)
Inductive Attempt (T : Type) : Type :=
| Resolved (v : T)
| Rejected (error : Thrown).

Arguments Resolved {T} v.
Arguments Rejected {T} error.

(** What [retryWithBackoff] throws: a new [Error] with a message, the error
    it caught, or the [TypeError] met while reading the message of the
    error: a message that has no [toLowerCase], or an error that
    [JSON.stringify] cannot write. *)
Inductive Failure : Type :=
| NewError (message : string)
| Rethrown (error : Thrown)
| MessageTypeError.

Inductive Settled (T : Type) : Type :=
| Fulfilled (v : T)
| Failed (f : Failure).

Arguments Fulfilled {T} v.
Arguments Failed {T} f.

(** The outcome of a run, the number of calls of [operation] it made and
    the delays it slept, in milliseconds. *)
Record Run (T : Type) : Type := mkRun {
  settled : Settled T;
  calls : nat;
  waits : list Z
}.

(** [status === n]. *)
Definition strict_eq_num (v : option jsval) (n : Z) : bool :=
  match v with
  | Some (VNum n') => (n' =? n)%Z
  | _ => false
  end.

(** [error?.status || error?.response?.status]. *)
Definition error_status (error : Thrown) : option jsval :=
  if truthy_opt (e_status error) then e_status error
  else e_response_status error.

(** [(error?.message || JSON.stringify(error)).toLowerCase()]; [None] is the
    [TypeError] of a value that is no string. *)
Definition error_msg (error : Thrown) : option string :=
  match (if truthy_opt (e_message error) then e_message error
         else option_map VStr (e_json error)) with
  | Some (VStr s) => Some (toLowerCase s)
  | _ => None
  end.

Definition isQuotaError (status : option jsval) (msg : string) : bool :=
  strict_eq_num status 429 || String_includes msg "429"
  || String_includes msg "quota" || String_includes msg "resource_exhausted".

Definition isServerBusy (status : option jsval) (msg : string) : bool :=
  strict_eq_num status 503 || String_includes msg "503"
  || String_includes msg "overloaded".

(** The [for] loop, at index [i] with [remaining] iterations left;
    [operation k] is how the call number [k] ends. *)
Fixpoint retry_loop {T : Type} (operation : nat -> Attempt T) (retries : Z)
    (remaining i : nat) (delay : Z) (slept : list Z) : Run T :=
  match remaining with
  | O => mkRun (Failed (NewError "Max retries exceeded")) i slept
  | S remaining' =>
      match operation i with
      | Resolved v => mkRun (Fulfilled v) (S i) slept
      | Rejected error =>
          let status := error_status error in
          match error_msg error with
          | None => mkRun (Failed MessageTypeError) (S i) slept
          | Some msg =>
              if isQuotaError status msg
              then mkRun (Failed (NewError "QUOTA_EXHAUSTED")) (S i) slept
              else if isServerBusy status msg && (Z.of_nat i <? retries - 1)%Z
              then retry_loop operation retries remaining' (S i) (delay * 2)%Z
                              (push slept delay)
              else if (strict_eq_num status 400 || strict_eq_num status 403)
                      && String_includes msg "key"
              then mkRun (Failed (NewError "API_KEY_INVALID")) (S i) slept
              else mkRun (Failed (Rethrown error)) (S i) slept
          end
      end
  end.

(** [retryWithBackoff], for whole numbers of [retries] and [initialDelay];
    [apiKey] is what [getEffectiveApiKey()] returned. *)
Definition retryWithBackoff {T : Type} (apiKey : string)
    (operation : nat -> Attempt T) (retries initialDelay : Z) : Run T :=
  if negb (nonempty apiKey)
  then mkRun (Failed (NewError "API_KEY_MISSING")) 0 []
  else retry_loop operation retries (Z.to_nat retries) 0 initialDelay [].

(** An error the loop retries: it has a message, is no quota error and
    reads as a busy server. *)
Definition is_transient (error : Thrown) : bool :=
  match error_msg error with
  | Some msg =>
      negb (isQuotaError (error_status error) msg)
      && isServerBusy (error_status error) msg
  | None => false
  end.

Definition is_quota (error : Thrown) : bool :=
  match error_msg error with
  | Some msg => isQuotaError (error_status error) msg
  | None => false
  end.

(** The delays of an exponential backoff: [initialDelay], doubled each time. *)
Definition backoff_delays (initialDelay : Z) (n : nat) : list Z :=
  map (fun k => (initialDelay * 2 ^ Z.of_nat k)%Z) (seq 0 n).

(** A 503 answer, and a 429 answer. *)
Definition ex_busy : Thrown :=
  mkThrown (Some (VNum 503)) None (Some (VStr "The model is overloaded."))
           (Some "{}").

Definition ex_quota : Thrown :=
  mkThrown None None (Some (VStr "RESOURCE_EXHAUSTED: quota exceeded"))
           (Some "{}").

(** A service that is busy twice and then answers. *)
Definition ex_operation (k : nat) : Attempt string :=
  match k with
  | 0%nat | 1%nat => Rejected ex_busy
  | _ => Resolved "image"
  end.

(** [cleanJson] of [analyzeReference] and [refineBlocks]. *)
Definition cleanJson (jsonStr : string) : string :=
  trim (remove_all "```" (remove_all "```json" jsonStr)).

(** The chroma key loop of [processTransparency] over [frame.data], four
    entries a pixel.  [Math.sqrt] is compared with the whole number 50, so
    its integer part decides. *)
Fixpoint chroma_key (data : list Z) : list Z :=
  match data with
  | r :: g :: b :: a :: rest =>
      let dist := Z.sqrt ((255 - r) ^ 2 + (255 - g) ^ 2 + (255 - b) ^ 2) in
      r :: g :: b :: (if (dist <? 50)%Z then 0%Z else a) :: chroma_key rest
  | _ => data
  end.

(** [link.download] of [handleDownload] in the editor. *)
Definition download_name (fileName : string) : string :=
  "starrygen-" ++ toLowerCase (replace_whitespace_runs "-" false fileName)
    ++ ".png".

(* ================================================================== *)
(** * components/BlockControls: the inspector of a block *)
(* ================================================================== *)

(** Lines 136-157: the predicate of the [visibleSections] filter. *)
Definition sectionIsShown (block : BlockState) (allBlocks : list BlockState)
    (section : BlockSectionDefinition) : bool :=
  match condition section with
  | None => true
  | Some c =>
      let controlling :=
        match c_blockType c with
        | Some t =>
            if (0 <? List.length allBlocks)%nat
            then find (is_active_of t) allBlocks
            else Some block
        | None => Some block
        end in
      match controlling with
      | None => false
      | Some controllingBlock =>
          let controllingValue :=
            section_field controllingBlock (c_sectionId c) (c_fieldId c) in
          match c_value c with
          | CondSet l => includes_str l controllingValue
          | CondScalar s => strict_eq_str controllingValue s
          end
      end
  end.

Definition visibleSections (block : BlockState) (allBlocks : list BlockState)
  : list BlockSectionDefinition :=
  filter (sectionIsShown block allBlocks)
         (sections (BLOCK_DEFINITIONS (b_type block))).

(** The blocks of one type, in the order of the list. *)
Definition of_type (t : BlockType) (bs : list BlockState) : list BlockState :=
  filter (fun b => BlockType_eqb (b_type b) t) bs.

(** A Subject and a Background block in the two orders. *)
Definition ex_subject_first : list BlockState := [ex_subject; ex_background].
Definition ex_background_first : list BlockState := [ex_background; ex_subject].

(* ================================================================== *)
(** * components/Editor: deleting a block *)
(* ================================================================== *)

(** [removeBlock]. *)
Definition removeBlock (st : EditorState) (id : string) : EditorState :=
  if some_id (globalBlocks st) id then
    mkEditor (blocks st) (globalBlocks st) (useBaseStyle st)
             (selectedBlockId st)
             (Some "Cannot delete Global Block here. Go to Project Settings.")
  else
    mkEditor (filter (fun b => negb (String.eqb (b_id b) id)) (blocks st))
             (globalBlocks st) (useBaseStyle st)
             (if option_string_eqb (selectedBlockId st) (Some id)
              then Some "general" else selectedBlockId st)
             (toastMessage st).

(** What [insertNewBlock] does to the blocks that were there when the type
    allows one active instance. *)
Definition deactivate_type (t : BlockType) (bs : list BlockState)
  : list BlockState :=
  map (fun b => if BlockType_eqb (b_type b) t && isActive b
                then set_isActive b false else b) bs.

(* ================================================================== *)
(** * components/BlockControls: editing a block *)
(* ================================================================== *)

(** [block.sections[sectionId] || { fields: {} }]. *)
Definition sectionState_of (block : BlockState) (sectionId : string)
  : SectionState :=
  match obj_get (b_sections block) sectionId with
  | Some st => st
  | None => mkSectionState None []
  end.

(** [updateField]: the block handed to [onChange]. *)
Definition updateField (block : BlockState) (sectionId fieldId : string)
    (value : jsval) : BlockState :=
  let sectionState := sectionState_of block sectionId in
  set_section block sectionId
    (mkSectionState (enabled sectionState)
                    (obj_set (st_fields sectionState) fieldId value)).

(** [toggleSection]. *)
Definition toggleSection (block : BlockState) (sectionId : string)
    (on : bool) : BlockState :=
  let sectionState := sectionState_of block sectionId in
  set_section block sectionId
    (mkSectionState (Some (VBool on)) (st_fields sectionState)).

Definition set_customValues (block : BlockState)
    (cvs : list CustomProperty) : BlockState :=
  mkBlock (b_id block) (b_type block) (customLabel block) (isActive block)
          (b_sections block) (Some cvs) (referenceImage block)
          (isGlobal block).

(** [block.customValues || []]. *)
Definition customValues_of (block : BlockState) : list CustomProperty :=
  match customValues block with
  | Some cvs => cvs
  | None => []
  end.

(** [addCustomProperty]; [now] is the value of [Date.now()]. *)
Definition addCustomProperty (block : BlockState) (now : Z) : BlockState :=
  set_customValues block
    (customValues_of block
       ++ [mkCustom ("custom-" ++ string_of_Z now) "New Detail" CText
                    (Some (VStr ""))])%list.

(** The [updates] of [updateCustomProperty], a [Partial<CustomProperty>]:
    the members it carries. *)
Record CustomUpdate : Type := mkCustomUpdate {
  u_id : option string;
  u_label : option string;
  u_type : option CustomType;
  u_value : option jsval
}.

(** [{ ...cp, ...updates }]. *)
Definition merge_custom (cp : CustomProperty) (updates : CustomUpdate)
  : CustomProperty :=
  mkCustom (match u_id updates with Some i => i | None => cp_id cp end)
           (match u_label updates with Some l => l | None => cp_label cp end)
           (match u_type updates with Some t => t | None => cp_type cp end)
           (match u_value updates with Some v => Some v | None => cp_value cp end).

(** [updateCustomProperty]. *)
Definition updateCustomProperty (block : BlockState) (id : string)
    (updates : CustomUpdate) : BlockState :=
  set_customValues block
    (map (fun cp => if String.eqb (cp_id cp) id
                    then merge_custom cp updates else cp)
         (customValues_of block)).

(** [handleCustomTypeChange]. *)
Definition handleCustomTypeChange (block : BlockState) (id : string)
    (newType : CustomType) : BlockState :=
  let newValue :=
    match newType with
    | CCheckbox => VBool false
    | CSlider => VNum 50
    | CColor => VStr "#000000"
    | CText => VStr ""
    end in
  updateCustomProperty block id
    (mkCustomUpdate None None (Some newType) (Some newValue)).

(** [removeCustomProperty]. *)
Definition removeCustomProperty (block : BlockState) (id : string)
  : BlockState :=
  set_customValues block
    (filter (fun cp => negb (String.eqb (cp_id cp) id))
            (customValues_of block)).

(* ================================================================== *)
(** * components/ProjectView: global blocks and the block library *)
(* ================================================================== *)

(** [removeGlobalBlock]: the global blocks and the selection it leaves. *)
Definition removeGlobalBlock (globals : list BlockState)
    (selectedGlobalBlockId : option string) (id : string)
  : list BlockState * option string :=
  (filter (fun b => negb (String.eqb (b_id b) id)) globals,
   if option_string_eqb selectedGlobalBlockId (Some id)
   then None else selectedGlobalBlockId).

(** The members of a [StarryFile] the project view reads or writes when it
    copies a block into a file; the rest of the file is carried along. *)
Record StarryFile (Rest : Type) : Type := mkFile {
  sf_id : string;
  sf_name : string;
  sf_previewImage : option string;
  sf_blocks : list BlockState;
  sf_rest : Rest
}.

Arguments mkFile {Rest} sf_id sf_name sf_previewImage sf_blocks sf_rest.
Arguments sf_id {Rest} s.
Arguments sf_name {Rest} s.
Arguments sf_previewImage {Rest} s.
Arguments sf_blocks {Rest} s.
Arguments sf_rest {Rest} s.

(** [confirmAddTo]: the files of the project after the block was copied
    into the target file; [now] is the value of [Date.now()]. *)
Definition confirmAddTo {Rest : Type} (files : list (StarryFile Rest))
    (targetFileId : string) (sourcePreviewForAdd : option string)
    (block : BlockState) (now : Z) : list (StarryFile Rest) :=
  if negb (nonempty targetFileId) then files
  else
    map (fun f =>
           if String.eqb (sf_id f) targetFileId then
             let def := BLOCK_DEFINITIONS (b_type block) in
             let newBlock :=
               mkBlock ("lib-copy-" ++ string_of_Z now) (b_type block)
                       (customLabel block) (isActive block) (b_sections block)
                       (customValues block)
                       (if label_truthy (referenceImage block)
                        then referenceImage block else sourcePreviewForAdd)
                       (isGlobal block) in
             let newBlocks :=
               if singleActiveInstance def
               then map (fun b => if BlockType_eqb (b_type b) (b_type block)
                                  then set_isActive b false else b)
                        (sf_blocks f)
               else sf_blocks f in
             mkFile (sf_id f) (sf_name f) (sf_previewImage f)
                    (push newBlocks newBlock) (sf_rest f)
           else f)
        files.

(** An entry of the block library. *)
Record LibraryItem : Type := mkLibraryItem {
  li_block : BlockState;
  sourceFile : string;
  sourceFileId : string;
  sourcePreview : option string
}.

(** [if (!acc[k]) acc[k] = []; acc[k].push(item)] and the same with
    [unshift]. *)
Definition library_push (acc : list (string * list LibraryItem)) (k : string)
    (item : LibraryItem) : list (string * list LibraryItem) :=
  match obj_get acc k with
  | Some items => obj_set acc k (push items item)
  | None => obj_set acc k [item]
  end.

Definition library_unshift (acc : list (string * list LibraryItem))
    (k : string) (item : LibraryItem) : list (string * list LibraryItem) :=
  match obj_get acc k with
  | Some items => obj_set acc k (item :: items)
  | None => obj_set acc k [item]
  end.

Definition file_item {Rest : Type} (file : StarryFile Rest)
    (block : BlockState) : LibraryItem :=
  mkLibraryItem block (sf_name file) (sf_id file) (sf_previewImage file).

Definition global_item (block : BlockState) : LibraryItem :=
  mkLibraryItem block "Global Styling" "global" None.

(** [libraryBlocks]: the blocks of the project's files, grouped by type,
    with the project's global blocks put in front. *)
Definition libraryBlocks {Rest : Type} (files : list (StarryFile Rest))
    (globals : list BlockState) : list (string * list LibraryItem) :=
  let fromFiles :=
    fold_left
      (fun acc file =>
         fold_left (fun acc block =>
                      library_push acc (BlockType_value (b_type block))
                                   (file_item file block))
                   (sf_blocks file) acc)
      files [] in
  fold_left (fun acc block =>
               library_unshift acc (BlockType_value (b_type block))
                               (global_item block))
            globals fromFiles.

(** A block of the editor with no custom property yet. *)
Definition ex_plain_block : BlockState :=
  mkBlock "block-7" CAMERA (Some "Camera 1") true
          (default_sections CAMERA_definition) None None None.

(** Two files of a project: one with an active and an inactive Background
    block and a Subject, one with a Subject only. *)
Definition ex_files : list (StarryFile unit) :=
  [ mkFile "f1" "Alley" None [ex_background; ex_background_off; ex_subject] tt;
    mkFile "f2" "Portrait" (Some "data:image/png;base64,AAAA") [ex_subject] tt ].

(** A Subject block of the library whose sections are not the schema's: one
    section, with a number where the schema has the select field
    [category]. *)
Definition ex_library_mistyped : BlockState :=
  mkBlock "b-old" SUBJECT None true
    [("core", mkSectionState None [("category", VNum 42)])] None None None.

(* ================================================================== *)
(** * components/UI: the tag input and the list of detailed items *)
(* ================================================================== *)

(** [TagInput]: [addTag] and [removeTag] give the list handed to
    [onChange]; where the source does not call [onChange] the list is the
    one it had. *)
Definition addTag (value : list string) (tag : string) : list string :=
  let trimmed := trim tag in
  if nonempty trimmed && negb (existsb (String.eqb trimmed) value)
  then push value trimmed
  else value.

Definition removeTag (value : list string) (tagToRemove : string)
  : list string :=
  filter (fun tag => negb (String.eqb tag tagToRemove)) value.

(** [DetailedItem] and the item list: [maxItems] is the optional limit. *)
Record DetailedItem : Type := mkDetailedItem {
  di_name : string;
  di_details : list string
}.

Definition isLimitReached (value : list DetailedItem) (maxItems : option Z)
  : bool :=
  match maxItems with
  | Some m => (m <=? Z.of_nat (List.length value))%Z
  | None => false
  end.

Definition same_name (name : string) (v : DetailedItem) : bool :=
  String.eqb (toLowerCase (di_name v)) (toLowerCase name).

Definition addItem (value : list DetailedItem) (maxItems : option Z)
    (name : string) : list DetailedItem :=
  let trimmed := trim name in
  if negb (nonempty trimmed) then value
  else if isLimitReached value maxItems then value
  else if existsb (same_name trimmed) value then value
  else push value (mkDetailedItem trimmed []).

(** [next.splice(idx, 1)] on a copy of the list, [idx] being the position
    of a row. *)
Definition removeItem (value : list DetailedItem) (idx : nat)
  : list DetailedItem :=
  (firstn idx value ++ skipn (S idx) value)%list.

(** A document with a block switched off whose [category] holds [null]. *)
Definition ex_broken_off : BlockState :=
  mkBlock "block-9" SUBJECT (Some "Subject 2") false
    (obj_set (default_sections SUBJECT_definition) "core"
       (mkSectionState None [("category", VNull)]))
    None None None.

(* ================================================================== *)
(** * Properties *)
(* ================================================================== *)

(** ** Association lists *)

Lemma BlockType_eqb_eq (a b : BlockType) : BlockType_eqb a b = true <-> a = b.
Proof. destruct a, b; simpl; split; intro H; try reflexivity; discriminate. Qed.

Lemma BlockType_eqb_refl (a : BlockType) : BlockType_eqb a a = true.
Proof. now apply BlockType_eqb_eq. Qed.

Lemma obj_set_fresh {A : Type} (o : list (string * A)) k v :
  ~ In k (obj_keys o) -> obj_set o k v = push o (k, v).
Proof.
  induction o as [|[k' v'] o IH]; simpl; intro H.
  - reflexivity.
  - destruct (String.eqb_spec k' k) as [E|E].
    + exfalso. apply H. now left.
    + unfold push in *. simpl. f_equal. apply IH. intro Hin. apply H. now right.
Qed.

(** Building an object by assignment from distinct keys lists the keys in
    the order of assignment. *)
Lemma fold_obj_set_distinct {A B : Type} (key : B -> string) (val : B -> A)
    (l : list B) (acc : list (string * A)) :
  NoDup (obj_keys acc ++ map key l) ->
  fold_left (fun o x => obj_set o (key x) (val x)) l acc
  = (acc ++ map (fun x => (key x, val x)) l)%list.
Proof.
  revert acc. induction l as [|x l IH]; intros acc H; simpl.
  - now rewrite app_nil_r.
  - rewrite obj_set_fresh.
    + unfold push. rewrite IH.
      * now rewrite <- app_assoc.
      * unfold obj_keys in *. rewrite map_app. simpl.
        rewrite <- app_assoc. exact H.
    + simpl in H. apply NoDup_remove_2 in H. intro Hin. apply H.
      apply in_or_app. now left.
Qed.

(** ** The stable sort *)

Section Sorting.
Variable A : Type.
Variable p : A -> nat.

Lemma insert_by_perm (x : A) (l : list A) :
  Permutation (x :: l) (insert_by p x l).
Proof.
  induction l as [|y l IH]; simpl.
  - apply Permutation_refl.
  - destruct (p x <=? p y)%nat.
    + apply Permutation_refl.
    + eapply perm_trans; [apply perm_swap|]. now apply perm_skip.
Qed.

Lemma sort_by_perm (l : list A) : Permutation l (sort_by p l).
Proof.
  induction l as [|x l IH]; simpl.
  - constructor.
  - eapply perm_trans; [|apply insert_by_perm]. now apply perm_skip.
Qed.

Lemma insert_by_sorted (x : A) (l : list A) :
  StronglySorted (prio_le p) l -> StronglySorted (prio_le p) (insert_by p x l).
Proof.
  induction 1 as [|y l Hs IH Hall]; simpl.
  - constructor; constructor.
  - destruct (Nat.leb_spec (p x) (p y)) as [Hle|Hgt].
    + constructor.
      * now constructor.
      * constructor; [exact Hle|].
        eapply Forall_impl; [|exact Hall].
        intros a Ha. unfold prio_le in *. lia.
    + constructor; [exact IH|].
      apply (Permutation_Forall (insert_by_perm x l)).
      constructor; [unfold prio_le; lia|exact Hall].
Qed.

Lemma sort_by_sorted (l : list A) : StronglySorted (prio_le p) (sort_by p l).
Proof.
  induction l as [|x l IH]; simpl.
  - constructor.
  - now apply insert_by_sorted.
Qed.

(** Stability: elements of one priority keep their relative order. *)
Lemma insert_by_filter (k : nat) (x : A) (l : list A) :
  StronglySorted (prio_le p) l ->
  filter (fun a => p a =? k)%nat (insert_by p x l)
  = filter (fun a => p a =? k)%nat (x :: l).
Proof.
  induction 1 as [|y l Hs IH Hall]; simpl.
  - reflexivity.
  - destruct (Nat.leb_spec (p x) (p y)) as [Hle|Hgt].
    + reflexivity.
    + simpl. simpl in IH. rewrite IH.
      destruct (Nat.eqb_spec (p x) k) as [Ex|Ex];
        destruct (Nat.eqb_spec (p y) k) as [Ey|Ey]; try reflexivity.
      exfalso. lia.
Qed.

Lemma sort_by_stable (k : nat) (l : list A) :
  filter (fun a => p a =? k)%nat (sort_by p l)
  = filter (fun a => p a =? k)%nat l.
Proof.
  induction l as [|x l IH]; simpl.
  - reflexivity.
  - rewrite insert_by_filter by apply sort_by_sorted.
    simpl. now rewrite IH.
Qed.

Lemma sorted_suffix (l1 l2 : list A) :
  StronglySorted (prio_le p) (l1 ++ l2) -> StronglySorted (prio_le p) l2.
Proof.
  induction l1 as [|a l1 IH]; simpl; intro H.
  - exact H.
  - apply IH. now apply StronglySorted_inv in H.
Qed.

(** In a sorted list an element of lower priority stands before one of
    higher priority. *)
Lemma sorted_split (l : list A) (x y : A) :
  StronglySorted (prio_le p) l -> In x l -> In y l -> (p x < p y)%nat ->
  exists l1 l2 l3, l = (l1 ++ x :: l2 ++ y :: l3)%list.
Proof.
  intros Hs Hx Hy Hlt.
  apply in_split in Hx. destruct Hx as [l1 [r ->]].
  apply in_app_or in Hy. destruct Hy as [Hy|Hy].
  - exfalso. apply in_split in Hy. destruct Hy as [a [b ->]].
    rewrite <- app_assoc in Hs. simpl in Hs.
    apply sorted_suffix in Hs.
    apply StronglySorted_inv in Hs. destruct Hs as [_ Hall].
    rewrite Forall_forall in Hall.
    specialize (Hall x). unfold prio_le in Hall.
    assert (In x (b ++ x :: r)) by (apply in_or_app; right; now left).
    specialize (Hall H). lia.
  - destruct Hy as [Hy|Hy]; [subst; lia|].
    apply in_split in Hy. destruct Hy as [l2 [l3 ->]].
    now exists l1, l2, l3.
Qed.

(** Where an element is inserted: after what has a lower priority, before
    what has not. *)
Lemma insert_by_skip (x : A) (l1 l2 : list A) :
  Forall (fun y => p y < p x)%nat l1 ->
  insert_by p x (l1 ++ l2) = (l1 ++ insert_by p x l2)%list.
Proof.
  induction 1 as [|y l1 Hy Hl1 IH]; simpl; [reflexivity|].
  destruct (Nat.leb_spec (p x) (p y)) as [Hle|Hgt]; [lia|].
  now rewrite IH.
Qed.

Lemma insert_by_here (x : A) (l : list A) :
  Forall (fun y => p x <= p y)%nat l -> insert_by p x l = x :: l.
Proof.
  destruct 1 as [|y l Hy Hl]; simpl; [reflexivity|].
  destruct (Nat.leb_spec (p x) (p y)) as [Hle|Hgt]; [reflexivity|lia].
Qed.

End Sorting.

(** ** Strings and optional results *)

Lemma append_assoc (a b c : string) : ((a ++ b) ++ c = a ++ (b ++ c))%string.
Proof. induction a as [|x a IH]; simpl; [reflexivity|now rewrite IH]. Qed.

Lemma append_nil_r (a : string) : (a ++ "")%string = a.
Proof. induction a as [|x a IH]; simpl; [reflexivity|now rewrite IH]. Qed.

(** A part of a joined list stands in the joined string, between what was
    joined before it and what was joined after it. *)
Lemma concat_middle (sep : string) (l1 : list string) (c : string)
    (r : list string) :
  exists pre,
    String.concat sep (l1 ++ c :: r)
    = (pre ++ c ++ match r with
                   | [] => ""
                   | _ => sep ++ String.concat sep r
                   end)%string.
Proof.
  induction l1 as [|x l1 [pre IH]].
  - exists "". simpl. destruct r; [now rewrite append_nil_r|reflexivity].
  - exists (x ++ sep ++ pre)%string.
    change ((x :: l1) ++ c :: r)%list with (x :: (l1 ++ c :: r))%list.
    simpl. destruct (l1 ++ c :: r)%list eqn:E.
    + now destruct l1.
    + rewrite IH. now rewrite !append_assoc.
Qed.

Lemma concat_two (sep : string) (l1 l2 l3 : list string) (c d : string) :
  exists x y z,
    String.concat sep (l1 ++ c :: l2 ++ d :: l3) = (x ++ c ++ y ++ d ++ z)%string.
Proof.
  destruct (concat_middle sep l1 c (l2 ++ d :: l3)) as [pre H].
  destruct (concat_middle sep l2 d l3) as [pre' H'].
  exists pre, (sep ++ pre')%string.
  eexists. rewrite H.
  destruct (l2 ++ d :: l3)%list eqn:E; [now destruct l2|].
  rewrite H'. now rewrite !append_assoc.
Qed.

Lemma keep_some_app {A : Type} (l1 l2 : list (option A)) :
  keep_some (l1 ++ l2) = (keep_some l1 ++ keep_some l2)%list.
Proof.
  induction l1 as [|[a|] l1 IH]; simpl; [reflexivity|now rewrite IH|exact IH].
Qed.

Lemma mapM_app {A B : Type} (f : A -> option B) (l1 l2 : list A) (r : list B) :
  mapM f (l1 ++ l2) = Some r ->
  exists r1 r2, r = (r1 ++ r2)%list /\ mapM f l1 = Some r1 /\ mapM f l2 = Some r2.
Proof.
  revert r. induction l1 as [|a l1 IH]; simpl; intros r H.
  - now exists [], r.
  - destruct (f a) as [b|]; simpl in *; [|discriminate].
    destruct (mapM f (l1 ++ l2)) as [bs|] eqn:E; simpl in *; [|discriminate].
    injection H as <-.
    destruct (IH bs eq_refl) as [r1 [r2 [-> [H1 H2]]]].
    exists (b :: r1), r2. rewrite H1. simpl. now repeat split.
Qed.

Lemma mapM_cons {A B : Type} (f : A -> option B) (a : A) (l : list A)
    (r : list B) :
  mapM f (a :: l) = Some r ->
  exists b r', r = b :: r' /\ f a = Some b /\ mapM f l = Some r'.
Proof.
  simpl. destruct (f a) as [b|]; simpl; [|discriminate].
  destruct (mapM f l) as [bs|]; simpl; [|discriminate].
  intro H. injection H as <-. now exists b, bs.
Qed.

(** ** C5: the clauses follow the type-priority table *)

Lemma filter_twice {A : Type} (p q : A -> bool) (l : list A) :
  filter p (filter q l) = filter (fun y => q y && p y) l.
Proof.
  induction l as [|a l IH]; simpl; [reflexivity|].
  destruct (q a); simpl; [|exact IH]. destruct (p a); now rewrite IH.
Qed.

Lemma filter_flat_map {A B : Type} (q : B -> bool) (f : A -> list B)
    (l : list A) :
  filter q (flat_map f l) = flat_map (fun a => filter q (f a)) l.
Proof.
  induction l as [|a l IH]; simpl; [reflexivity|].
  now rewrite filter_app, IH.
Qed.

(** Two elements a filter keeps in some order stand in this order in the
    list. *)
Lemma filter_split_two {A : Type} (q : A -> bool) (l : list A) :
  forall (a : list A) (x : A) (m : list A) (y : A) (c : list A),
  filter q l = (a ++ x :: m ++ y :: c)%list ->
  exists l1 l2 l3, l = (l1 ++ x :: l2 ++ y :: l3)%list.
Proof.
  assert (Hone : forall (l a : list A) (x : A) (c : list A),
            filter q l = (a ++ x :: c)%list ->
            exists l1 l2, l = (l1 ++ x :: l2)%list /\ filter q l2 = c).
  { clear l. induction l as [|z l IH]; intros a x c H; simpl in H.
    - now destruct a.
    - destruct (q z) eqn:Hz.
      + destruct a as [|a0 a]; simpl in H; injection H as -> H.
        * now exists [], l.
        * destruct (IH _ _ _ H) as (l1 & l2 & -> & Hc).
          now exists (a0 :: l1), l2.
      + destruct (IH _ _ _ H) as (l1 & l2 & -> & Hc).
        now exists (z :: l1), l2. }
  intros a x m y c H.
  destruct (Hone _ _ _ _ H) as (l1 & r & -> & Hr).
  destruct (Hone _ _ _ _ Hr) as (l2 & l3 & -> & _).
  now exists l1, l2, l3.
Qed.

(** The sorted list is the blocks of each type in turn, in the order of
    the table, each type's blocks in the order they had. *)
Lemma sort_by_buckets (l : list BlockState) :
  sort_by block_priority l
  = flat_map (fun t => filter (fun b => BlockType_eqb (b_type b) t) l)
      [SUBJECT; CAMERA; LIGHTING; BACKGROUND; FX; STYLE; POST_PROCESSING; MOOD].
Proof.
  induction l as [|x l IH]; [reflexivity|].
  cbn [sort_by]. rewrite IH. cbn [flat_map filter].
  assert (Hlow : forall t, (TYPE_PRIORITY t < block_priority x)%nat ->
            Forall (fun y => block_priority y < block_priority x)%nat
                   (filter (fun b => BlockType_eqb (b_type b) t) l)).
  { intros t Ht. apply Forall_forall. intros y Hy.
    apply filter_In in Hy. destruct Hy as [_ Hy].
    change (block_priority y) with (TYPE_PRIORITY (b_type y)).
    destruct (b_type y), t;
      try discriminate Hy; exact Ht. }
  assert (Hhigh : forall t, (block_priority x <= TYPE_PRIORITY t)%nat ->
            Forall (fun y => block_priority x <= block_priority y)%nat
                   (filter (fun b => BlockType_eqb (b_type b) t) l)).
  { intros t Ht. apply Forall_forall. intros y Hy.
    apply filter_In in Hy. destruct Hy as [_ Hy].
    change (block_priority y) with (TYPE_PRIORITY (b_type y)).
    destruct (b_type y), t;
      try discriminate Hy; exact Ht. }
  destruct (b_type x) eqn:Ex; cbn [BlockType_eqb];
    repeat (rewrite insert_by_skip
              by (apply Hlow; unfold block_priority; rewrite Ex;
                  cbn [TYPE_PRIORITY]; lia));
    (rewrite insert_by_here; [reflexivity|]);
    repeat (apply Forall_app; split);
    try (apply Hhigh; unfold block_priority; rewrite Ex;
         cbn [TYPE_PRIORITY]; lia);
    constructor.
Qed.

(** Two active blocks that stand in some order in the sorted list have
    their clauses in this order, in the list of parts and in the joined
    string. *)
Lemma clauses_in_sorted_order
    (localBlocks globalBlocks : list BlockState) (baseStyle aspectRatio : string)
    (useBaseStyle : bool) (out : string) (s b : BlockState) (cs cb : string)
    (l1 l2 l3 : list BlockState) :
  let sortedBlocks :=
    sort_by block_priority
      (blocksToProcess localBlocks globalBlocks useBaseStyle) in
  constructPromptFromBlocks localBlocks baseStyle useBaseStyle globalBlocks
    aspectRatio = Some out ->
  sortedBlocks = (l1 ++ s :: l2 ++ b :: l3)%list ->
  isActive s = true -> isActive b = true ->
  renderBlock sortedBlocks aspectRatio s = Some (Some cs) ->
  renderBlock sortedBlocks aspectRatio b = Some (Some cb) ->
  (exists p1 p2 p3,
     promptParts localBlocks baseStyle useBaseStyle globalBlocks aspectRatio
     = Some (p1 ++ cs :: p2 ++ cb :: p3)%list)
  /\ (exists x y z, out = (x ++ cs ++ y ++ cb ++ z)%string).
Proof.
  intros sortedBlocks Hout Hsplit Hsa Hba Hcs Hcb.
  assert (Hparts : exists p1 p2 p3,
             promptParts localBlocks baseStyle useBaseStyle globalBlocks
               aspectRatio = Some (p1 ++ cs :: p2 ++ cb :: p3)%list).
  { unfold constructPromptFromBlocks in Hout.
    destruct (promptParts localBlocks baseStyle useBaseStyle globalBlocks
                aspectRatio) as [parts|] eqn:Hp; [|discriminate].
    unfold promptParts in Hp. fold sortedBlocks in Hp.
    destruct (mapM (renderBlock sortedBlocks aspectRatio)
                (filter isActive sortedBlocks)) as [rendered|] eqn:Hr;
      simpl in Hp; [|discriminate].
    injection Hp as <-.
    set (render := renderBlock sortedBlocks aspectRatio) in *.
    rewrite Hsplit in Hr.
    rewrite filter_app in Hr. simpl in Hr. rewrite Hsa in Hr.
    rewrite filter_app in Hr. simpl in Hr. rewrite Hba in Hr.
    apply mapM_app in Hr. destruct Hr as [r1 [r2 [-> [_ Hr]]]].
    apply mapM_cons in Hr. destruct Hr as [c1 [r2' [-> [Hc1 Hr]]]].
    apply mapM_app in Hr. destruct Hr as [r3 [r4 [-> [_ Hr]]]].
    apply mapM_cons in Hr. destruct Hr as [c2 [r4' [-> [Hc2 _]]]].
    rewrite Hcs in Hc1. rewrite Hcb in Hc2.
    injection Hc1 as <-. injection Hc2 as <-.
    rewrite keep_some_app. simpl. rewrite keep_some_app. simpl.
    match goal with
    | |- exists _ _ _, Some (?st ++ ?iso ++ _)%list = _ =>
        exists (st ++ iso ++ keep_some r1)%list, (keep_some r3), (keep_some r4')
    end.
    now rewrite <- !app_assoc. }
  split; [exact Hparts|].
  destruct Hparts as [p1 [p2 [p3 Hp]]].
  unfold constructPromptFromBlocks in Hout. rewrite Hp in Hout. simpl in Hout.
  injection Hout as <-. apply concat_two.
Qed.

(** C5.  The priority table is Subject 0, Camera 1, Lighting 2,
    Background 3, Effects 4, Style 5, Post-processing 6, Mood 7.  Whenever
    the compiler returns a prompt, the blocks it renders are the active
    blocks of the list it processes, type by type in the order of the
    table and, within a type, in the order they had; the parts of the
    prompt are the style directive, the isolation directive and then the
    clauses these blocks render, in this order, and the prompt is the parts
    joined.  So the clause of an active block stands before the clause of
    an active block of a later type, and before the clause of an active
    block of its own type that came after it, in the list of parts and in
    the joined string; in particular a Subject clause stands before a
    Background clause. *)
Theorem prompt_clauses_follow_type_priority
    (localBlocks globalBlocks : list BlockState) (baseStyle aspectRatio : string)
    (useBaseStyle : bool) (out : string)
    (Hout : constructPromptFromBlocks localBlocks baseStyle useBaseStyle
              globalBlocks aspectRatio = Some out) :
  let toProcess := blocksToProcess localBlocks globalBlocks useBaseStyle in
  let sortedBlocks := sort_by block_priority toProcess in
  let table :=
    [SUBJECT; CAMERA; LIGHTING; BACKGROUND; FX; STYLE; POST_PROCESSING; MOOD] in
  let ordered := flat_map (fun t => filter (is_active_of t) toProcess) table in
  let before (s b : BlockState) :=
    (TYPE_PRIORITY (b_type s) < TYPE_PRIORITY (b_type b))%nat
    \/ (b_type s = b_type b
        /\ exists l1 l2 l3, toProcess = (l1 ++ s :: l2 ++ b :: l3)%list) in
  map TYPE_PRIORITY table = [0; 1; 2; 3; 4; 5; 6; 7]%nat
  /\ filter isActive sortedBlocks = ordered
  /\ (exists rendered,
        mapM (renderBlock sortedBlocks aspectRatio) ordered = Some rendered
        /\ promptParts localBlocks baseStyle useBaseStyle globalBlocks
             aspectRatio
           = Some (style_prefix baseStyle useBaseStyle
                   ++ (if isTransparencyEnabled toProcess
                       then [ISOLATION] else [])
                   ++ keep_some rendered)%list
        /\ out = String.concat ". "
                   (style_prefix baseStyle useBaseStyle
                    ++ (if isTransparencyEnabled toProcess
                        then [ISOLATION] else [])
                    ++ keep_some rendered)%list)
  /\ (forall s b cs cb,
        In s toProcess -> In b toProcess ->
        isActive s = true -> isActive b = true ->
        before s b ->
        renderBlock sortedBlocks aspectRatio s = Some (Some cs) ->
        renderBlock sortedBlocks aspectRatio b = Some (Some cb) ->
        (exists p1 p2 p3,
           promptParts localBlocks baseStyle useBaseStyle globalBlocks
             aspectRatio
           = Some (p1 ++ cs :: p2 ++ cb :: p3)%list)
        /\ (exists x y z, out = (x ++ cs ++ y ++ cb ++ z)%string))
  /\ (forall s b, b_type s = SUBJECT -> b_type b = BACKGROUND -> before s b).
Proof.
  intros toProcess sortedBlocks table ordered before.
  assert (Hord : filter isActive sortedBlocks = ordered).
  { unfold sortedBlocks, ordered. rewrite sort_by_buckets, filter_flat_map.
    cbn [flat_map]. rewrite !filter_twice. reflexivity. }
  split; [reflexivity|].
  split; [exact Hord|].
  split.
  { pose proof Hout as Hout'. unfold constructPromptFromBlocks in Hout'.
    destruct (promptParts localBlocks baseStyle useBaseStyle globalBlocks
                aspectRatio) as [parts|] eqn:Hp; [|discriminate].
    simpl in Hout'. injection Hout' as <-.
    unfold promptParts in Hp. fold toProcess in Hp. fold sortedBlocks in Hp.
    rewrite Hord in Hp.
    destruct (mapM (renderBlock sortedBlocks aspectRatio) ordered)
      as [rendered|]; simpl in Hp; [|discriminate].
    injection Hp as <-. now exists rendered. }
  split.
  { intros s b cs cb Hs Hb Hsa Hba Hbefore Hcs Hcb.
    assert (Hsplit : exists l1 l2 l3,
               sortedBlocks = (l1 ++ s :: l2 ++ b :: l3)%list).
    { destruct Hbefore as [Hlt|[Hty (l1 & l2 & l3 & Hl)]].
      - apply (sorted_split (p := block_priority)).
        + apply sort_by_sorted.
        + apply (Permutation_in _ (sort_by_perm block_priority toProcess)), Hs.
        + apply (Permutation_in _ (sort_by_perm block_priority toProcess)), Hb.
        + exact Hlt.
      - pose proof (sort_by_stable block_priority (block_priority s) toProcess)
          as Hst.
        fold sortedBlocks in Hst. rewrite Hl in Hst.
        rewrite filter_app in Hst. cbn [filter] in Hst.
        rewrite Nat.eqb_refl in Hst.
        rewrite filter_app in Hst. cbn [filter] in Hst.
        assert (Hpb : (block_priority b =? block_priority s)%nat = true)
          by (apply Nat.eqb_eq; unfold block_priority; now rewrite Hty).
        rewrite Hpb in Hst.
        exact (filter_split_two _ _ _ _ _ _ _ Hst). }
    destruct Hsplit as (l1 & l2 & l3 & Hsplit).
    exact (@clauses_in_sorted_order localBlocks globalBlocks baseStyle
             aspectRatio useBaseStyle out s b cs cb l1 l2 l3
             Hout Hsplit Hsa Hba Hcs Hcb). }
  intros s b Hs Hb. left. rewrite Hs, Hb. simpl. lia.
Qed.

Lemma prompt_clauses_follow_type_priority_witness :
  exists out cs cb,
    constructPromptFromBlocks [ex_background; ex_subject] "" false [] "1:1"
    = Some out
    /\ renderBlock (sort_by block_priority [ex_background; ex_subject]) "1:1"
         ex_subject = Some (Some cs)
    /\ renderBlock (sort_by block_priority [ex_background; ex_subject]) "1:1"
         ex_background = Some (Some cb)
    /\ exists x y z, out = (x ++ cs ++ y ++ cb ++ z)%string.
Proof.
  do 3 eexists.
  split; [vm_compute; reflexivity|].
  split; [vm_compute; reflexivity|].
  split; [vm_compute; reflexivity|].
  refine (proj2
    (proj1 (proj2 (proj2 (proj2
      (@prompt_clauses_follow_type_priority
         [ex_background; ex_subject] [] "" "1:1" false _ _))))
      ex_subject ex_background _ _ _ _ eq_refl eq_refl _ _ _)).
  - vm_compute; reflexivity.
  - right; left; reflexivity.
  - left; reflexivity.
  - left. vm_compute. lia.
  - vm_compute; reflexivity.
  - vm_compute; reflexivity.
Defined.

(** ** Values that print *)

Section jsval_induction.
Variable P : jsval -> Prop.
Hypothesis Hnull : P VNull.
Hypothesis Hbool : forall b, P (VBool b).
Hypothesis Hnum : forall n, P (VNum n).
Hypothesis Hstr : forall s, P (VStr s).
Hypothesis Harr : forall l, Forall P l -> P (VArr l).
Hypothesis Hobj : forall o, Forall (fun kv => P (snd kv)) o -> P (VObj o).

Fixpoint jsval_induction (v : jsval) : P v :=
  match v with
  | VNull => Hnull
  | VBool b => Hbool b
  | VNum n => Hnum n
  | VStr s => Hstr s
  | VArr l =>
      Harr ((fix all (l : list jsval) : Forall P l :=
               match l with
               | [] => Forall_nil P
               | x :: l' => Forall_cons x (jsval_induction x) (all l')
               end) l)
  | VObj o =>
      Hobj ((fix all (o : list (string * jsval))
               : Forall (fun kv => P (snd kv)) o :=
               match o with
               | [] => Forall_nil _
               | kv :: o' =>
                   Forall_cons kv (jsval_induction (snd kv)) (all o')
               end) o)
  end.

End jsval_induction.

(** An array prints as its elements joined by commas. *)
Lemma ToString_VArr (l : list jsval) : ToString (VArr l) = Array_join "," l.
Proof.
  unfold Array_join. simpl. f_equal.
  induction l as [|x l IH]; [reflexivity|].
  cbn [mapM]. rewrite <- IH. now destruct x.
Qed.

Lemma obj_get_In {A : Type} (o : list (string * A)) (k : string) (v : A) :
  obj_get o k = Some v -> exists k', In (k', v) o.
Proof.
  induction o as [|[k' v'] o IH]; simpl; [discriminate|].
  destruct (String.eqb k' k).
  - intro H. injection H as ->. exists k'. now left.
  - intro H. destruct (IH H) as [k'' Hin]. exists k''. now right.
Qed.

Lemma plain_VArr (l : list jsval) : plain (VArr l) = forallb plain l.
Proof. reflexivity. Qed.

Lemma plain_VObj (o : list (string * jsval)) :
  plain (VObj o)
  = negb (has_own o "toString") && forallb (fun kv => plain (snd kv)) o.
Proof. reflexivity. Qed.

Lemma plain_member (o : list (string * jsval)) (k : string) (v : jsval) :
  plain (VObj o) = true -> obj_get o k = Some v -> plain v = true.
Proof.
  rewrite plain_VObj. intros H Hget. apply andb_true_iff in H.
  destruct H as [_ H]. rewrite forallb_forall in H.
  destruct (@obj_get_In _ o k v Hget) as [k' Hin]. exact (H _ Hin).
Qed.

(** A plain value prints. *)
Lemma plain_prints (v : jsval) :
  plain v = true -> exists s, ToString v = Some s.
Proof.
  induction v as [| b | n | s | l IH | o IH] using jsval_induction; intro Hp.
  - now eexists.
  - destruct b; now eexists.
  - now eexists.
  - now eexists.
  - rewrite ToString_VArr. unfold Array_join.
    rewrite plain_VArr in Hp.
    assert (H : exists ss, mapM join_element l = Some ss).
    { induction l as [|x l IHl]; [now eexists|].
      apply andb_true_iff in Hp. destruct Hp as [Hx Hl].
      inversion IH as [|? ? IHx IHrest]; subst.
      destruct (IHl IHrest Hl) as [ss Hss].
      assert (Hj : exists sx, join_element x = Some sx).
      { destruct x as [| b | | | |]; try (now eexists);
          try (destruct b; now eexists); now apply IHx. }
      destruct Hj as [sx Hsx]. cbn [mapM]. rewrite Hsx, Hss. simpl.
      now eexists. }
    destruct H as [ss ->]. simpl. now eexists.
  - rewrite plain_VObj in Hp. apply andb_true_iff in Hp.
    destruct Hp as [Hown _]. apply negb_true_iff in Hown.
    simpl. rewrite Hown. now eexists.
Qed.

Lemma plain_prints_opt (v : option jsval) :
  match v with Some x => plain x = true | None => True end ->
  exists s, ToString_opt v = Some s.
Proof.
  destruct v as [x|]; simpl; [apply plain_prints|now eexists].
Qed.

Lemma plain_joins (sep : string) (l : list jsval) :
  forallb plain l = true -> exists s, Array_join sep l = Some s.
Proof.
  intro H. unfold Array_join.
  assert (Hm : exists ss, mapM join_element l = Some ss).
  { induction l as [|x l IH]; [now eexists|].
    simpl in H. apply andb_true_iff in H. destruct H as [Hx Hl].
    destruct (IH Hl) as [ss Hss].
    assert (Hj : exists sx, join_element x = Some sx).
    { destruct x as [| b | | | |]; try (now eexists);
        try (destruct b; now eexists); now apply plain_prints. }
    destruct Hj as [sx Hsx]. cbn [mapM]. rewrite Hsx, Hss. simpl.
    now eexists. }
  destruct Hm as [ss ->]. simpl. now eexists.
Qed.

Lemma plain_ToNumber (v : jsval) :
  plain v = true -> exists n, ToNumber v = Some n.
Proof.
  intro Hp. destruct v as [| b | n | s | l | o]; simpl;
    try (now eexists); try (destruct b; now eexists).
  - destruct (@plain_prints (VArr l) Hp) as [s Hs].
    simpl in Hs. rewrite Hs. simpl. now eexists.
  - destruct (@plain_prints (VObj o) Hp) as [s Hs].
    simpl in Hs. rewrite Hs. simpl. now eexists.
Qed.

(** ** The compiler returns on blocks of the declared shapes *)

Lemma render_item_total (item : jsval) :
  item_well_typed item = true -> plain item = true ->
  exists r, render_item item = Some r.
Proof.
  unfold item_well_typed, render_item.
  destruct item as [| b | n | s | l | o]; simpl; try discriminate;
    try (intros _ _; eexists; reflexivity).
  intros Hd Hp.
  assert (Hname : exists name, ToString_opt (obj_get o "name") = Some name).
  { apply plain_prints_opt. destruct (obj_get o "name") as [x|] eqn:E; [|exact I].
    exact (@plain_member o "name" x Hp E). }
  destruct Hname as [name Hname].
  destruct (obj_get o "details") as [dv|] eqn:Hdv; simpl.
  - destruct dv as [| b | n | s | l | o']; try discriminate Hd.
    simpl.
    destruct (0 <? List.length l)%nat; simpl.
    + pose proof (@plain_member o "details" (VArr l) Hp Hdv) as Hl.
      rewrite plain_VArr in Hl.
      destruct (@plain_joins " " l Hl) as [j ->]. simpl.
      rewrite Hname. simpl. now eexists.
    + rewrite Hname. simpl. now eexists.
  - rewrite Hname. simpl. now eexists.
Qed.

Lemma mapM_total {A B : Type} (f : A -> option B) (l : list A) :
  (forall a, In a l -> exists b, f a = Some b) -> exists r, mapM f l = Some r.
Proof.
  induction l as [|a l IH]; intro H; simpl.
  - now eexists.
  - destruct (H a (or_introl eq_refl)) as [b ->].
    destruct IH as [r ->]; [intros a' Ha'; apply H; now right|].
    simpl. now eexists.
Qed.

Lemma foldM_total {A S : Type} (f : S -> A -> option S) (l : list A) :
  (forall s a, In a l -> exists s', f s a = Some s') ->
  forall s, exists r, foldM f s l = Some r.
Proof.
  induction l as [|a l IH]; intros H s; simpl.
  - now eexists.
  - destruct (H s a (or_introl eq_refl)) as [s' ->]. simpl.
    apply IH. intros s0 a' Ha'. apply H. now right.
Qed.

Ltac settle_render :=
  repeat match goal with
         | |- exists r, Some _ = Some r => eexists; reflexivity
         | |- exists r, (if ?c then _ else _) = Some r => destruct c
         | |- exists r, match ?x with _ => _ end = Some r => destruct x
         | |- exists r, bind (if ?c then _ else _) _ = Some r => destruct c
         | |- exists r, bind (match ?x with _ => _ end) _ = Some r => destruct x
         | |- _ => progress simpl
         end.

Lemma render_field_total (secDef : option BlockSectionDefinition)
    (fieldsDesc : string) (entry : string * jsval) :
  value_well_typed (snd entry) = true ->
  exists r, render_field secDef fieldsDesc entry = Some r.
Proof.
  destruct entry as [fieldId val]. simpl. intro Hv.
  unfold value_well_typed in Hv. apply andb_true_iff in Hv.
  destruct Hv as [Hp Hv].
  destruct (@plain_prints val Hp) as [printed Hprinted].
  destruct (@plain_ToNumber val Hp) as [number Hnumber].
  unfold render_field.
  destruct (_ || _); [now eexists|].
  destruct (String.eqb fieldId "subject_distance");
    [rewrite Hnumber; simpl; now eexists|].
  destruct (String.eqb fieldId "subject_size");
    [rewrite Hprinted; simpl; now eexists|].
  set (fieldDef := match secDef with Some sd => find_field sd fieldId
                                   | None => None end).
  clearbody fieldDef.
  destruct val as [| b | n | s | l | o]; try discriminate Hv.
  - destruct (field_type_is fieldDef FPositionPicker); simpl;
      destruct b; destruct fieldDef; simpl; now eexists.
  - destruct (field_type_is fieldDef FPositionPicker); simpl;
      destruct fieldDef; simpl; now eexists.
  - destruct (field_type_is fieldDef FPositionPicker); simpl;
      destruct fieldDef; simpl; now eexists.
  - assert (Hitems : exists items, mapM render_item l = Some items).
    { apply mapM_total. intros a Ha. apply render_item_total.
      - rewrite forallb_forall in Hv. now apply Hv.
      - rewrite plain_VArr, forallb_forall in Hp. now apply Hp. }
    destruct Hitems as [items Hitems].
    rewrite plain_VArr in Hp. destruct (@plain_joins ", " l Hp) as [j Hj].
    destruct (field_type_is fieldDef FPositionPicker); simpl;
      destruct (field_type_is fieldDef FDetailedList);
      rewrite ?Hitems, ?Hj; simpl;
      try (destruct (0 <? List.length items)%nat; now eexists);
      destruct fieldDef; rewrite ?Hj; simpl; now eexists.
  - destruct (field_type_is fieldDef FPositionPicker); simpl.
    + destruct (obj_get o "label") as [lbl|] eqn:Hl; simpl.
      * destruct (truthy lbl); simpl.
        -- destruct (@plain_prints lbl (@plain_member o "label" lbl Hp Hl))
             as [t ->].
           match goal with
           | |- context [if ?c then _ else _] => destruct c
           end; simpl; now eexists.
        -- destruct fieldDef; [|now eexists].
           simpl in Hprinted. rewrite Hprinted. simpl. now eexists.
      * destruct fieldDef; [|now eexists].
        simpl in Hprinted. rewrite Hprinted. simpl. now eexists.
    + destruct fieldDef; [|now eexists].
      simpl in Hprinted. rewrite Hprinted. simpl. now eexists.
Qed.

Lemma render_section_total (def : BlockDefinition) (subjectName : string)
    (acc : list string * string) (entry : string * SectionState) :
  forallb (fun fld => value_well_typed (snd fld)) (st_fields (snd entry)) = true ->
  exists r, render_section def subjectName acc entry = Some r.
Proof.
  destruct acc as [parts inter], entry as [secId secState]. simpl. intro Hf.
  assert (Hprints : forall k,
             exists s, ToString_opt (obj_get (st_fields secState) k) = Some s).
  { intro k. apply plain_prints_opt.
    destruct (obj_get (st_fields secState) k) as [x|] eqn:E; [|exact I].
    destruct (@obj_get_In _ _ _ _ E) as [k' Hin].
    rewrite forallb_forall in Hf. specialize (Hf _ Hin). simpl in Hf.
    unfold value_well_typed in Hf. now apply andb_true_iff in Hf. }
  unfold render_section.
  destruct (String.eqb secId "interactions").
  - destruct (_ && _); [|now eexists].
    destruct (Hprints "interaction_type") as [a ->].
    destruct (Hprints "target_subject") as [t ->]. simpl. now eexists.
  - assert (Hfield : forall (s : string) (a : string * jsval),
               In a (st_fields secState) ->
               exists s', render_field (find_section def secId) s a = Some s').
    { intros s a Ha. apply render_field_total.
      rewrite forallb_forall in Hf. now apply Hf. }
    destruct (foldM_total _ _ Hfield "") as [desc ->]. simpl.
    destruct (nonempty desc); now eexists.
Qed.

Lemma render_custom_total (customDesc : string) (cv : CustomProperty) :
  custom_well_typed cv = true ->
  exists r, render_custom customDesc cv = Some r.
Proof.
  unfold custom_well_typed, render_custom. intro H.
  destruct (_ && _); [|now eexists].
  destruct (cp_value cv) as [v|]; simpl.
  - destruct (@plain_prints v H) as [s ->]. simpl.
    destruct (_ && _); now eexists.
  - destruct (_ && _); now eexists.
Qed.

Lemma renderBlock_total (sortedBlocks : list BlockState) (aspectRatio : string)
    (block : BlockState) :
  block_well_typed block = true ->
  exists r, renderBlock sortedBlocks aspectRatio block = Some r.
Proof.
  intro Hb. unfold block_well_typed in Hb. apply andb_true_iff in Hb.
  destruct Hb as [Hb Hcv]. unfold renderBlock.
  set (def := BLOCK_DEFINITIONS (b_type block)).
  set (name := if label_truthy (customLabel block) then _ else _).
  set (init := (match b_type block with CAMERA => _ | _ => [] end, "")).
  assert (Hsec : forall (acc : list string * string)
                        (entry : string * SectionState),
             In entry (activeSections sortedBlocks block) ->
             exists r, render_section def name acc entry = Some r).
  { intros acc entry Hin. apply render_section_total.
    unfold activeSections in Hin. apply filter_In in Hin.
    destruct Hin as [Hin _].
    rewrite forallb_forall in Hb. now apply Hb. }
  destruct (foldM_total _ _ Hsec init) as [[parts inter] ->]. simpl.
  destruct (customValues block) as [cvs|]; simpl.
  - destruct (0 <? List.length cvs)%nat; simpl.
    + assert (Hc : forall (s : string) (cv : CustomProperty),
                 In cv cvs -> exists s', render_custom s cv = Some s').
      { intros s cv Hin. apply render_custom_total.
        rewrite forallb_forall in Hcv. now apply Hcv. }
      destruct (foldM_total _ _ Hc "") as [desc ->]. simpl.
      destruct (nonempty desc); simpl; destruct (_ || _); now eexists.
    + destruct (_ || _); now eexists.
  - destruct (_ || _); now eexists.
Qed.

(** On blocks of the declared shapes the compiler returns a prompt. *)
Lemma constructPromptFromBlocks_total
    (localBlocks globalBlocks : list BlockState) (baseStyle aspectRatio : string)
    (useBaseStyle : bool) :
  forallb block_well_typed localBlocks = true ->
  forallb block_well_typed globalBlocks = true ->
  exists out,
    constructPromptFromBlocks localBlocks baseStyle useBaseStyle globalBlocks
      aspectRatio = Some out.
Proof.
  intros Hl Hg. unfold constructPromptFromBlocks, promptParts.
  set (toProcess := blocksToProcess localBlocks globalBlocks useBaseStyle).
  set (sortedBlocks := sort_by block_priority toProcess).
  destruct (@mapM_total _ _ (renderBlock sortedBlocks aspectRatio)
              (filter isActive sortedBlocks)) as [r ->].
  - intros b Hb. apply renderBlock_total.
    apply filter_In in Hb. destruct Hb as [Hb _].
    apply (Permutation_in _
             (Permutation_sym (sort_by_perm block_priority toProcess))) in Hb.
    rewrite forallb_forall in Hl, Hg.
    unfold toProcess, blocksToProcess in Hb.
    destruct (useBaseStyle && _); [|now apply Hl].
    apply in_app_or in Hb. destruct Hb as [Hb|Hb]; [|now apply Hl].
    apply filter_In in Hb. now apply Hg.
  - simpl. now eexists.
Qed.

(** ** C1: the isolation directive *)

(** What decides the directive: the first active Background block of the
    processed list and the [remove_bg] field of its transparency section,
    whether that section is switched on or not. *)
Lemma isTransparencyEnabled_iff (bs : list BlockState) :
  isTransparencyEnabled bs = true
  <-> exists b st,
        find (is_active_of BACKGROUND) bs = Some b
        /\ obj_get (b_sections b) "transparency" = Some st
        /\ obj_get (st_fields st) "remove_bg" = Some (VBool true).
Proof.
  unfold isTransparencyEnabled, section_field. split.
  - destruct (find (is_active_of BACKGROUND) bs) as [b|]; [|discriminate].
    destruct (obj_get (b_sections b) "transparency") as [st|] eqn:Hst;
      [|discriminate].
    destruct (obj_get (st_fields st) "remove_bg") as [[| [|] | | | |]|] eqn:Hf;
      try discriminate.
    intros _. now exists b, st.
  - intros [b [st [-> [Hst Hf]]]]. now rewrite Hst, Hf.
Qed.

Lemma renderBlock_clause_opens (sortedBlocks : list BlockState)
    (aspectRatio : string) (b : BlockState) (c : string) :
  renderBlock sortedBlocks aspectRatio b = Some (Some c) ->
  exists rest, c = ("[" ++ rest)%string.
Proof.
  unfold renderBlock.
  destruct (foldM _ _ _) as [[sectionParts interactions]|]; simpl;
    [|discriminate].
  match goal with
  | |- bind ?m _ = _ -> _ => destruct m as [blockDescParts|]
  end; simpl; [|discriminate].
  match goal with |- (if ?c then _ else _) = _ -> _ => destruct c end;
    [|discriminate].
  intro H. injection H as <-. eexists. reflexivity.
Qed.

(** The directive, when pushed, is the first part after the style prefix,
    and every part after it is a block clause. *)
Lemma isolation_directive_position
    (localBlocks globalBlocks : list BlockState) (baseStyle aspectRatio : string)
    (useBaseStyle : bool) (parts : list string) :
  promptParts localBlocks baseStyle useBaseStyle globalBlocks aspectRatio
  = Some parts ->
  exists clauses,
    parts = (style_prefix baseStyle useBaseStyle
             ++ (if isTransparencyEnabled
                      (blocksToProcess localBlocks globalBlocks useBaseStyle)
                 then [ISOLATION] else [])
             ++ clauses)%list
    /\ Forall (fun c => exists rest, c = ("[" ++ rest)%string) clauses.
Proof.
  unfold promptParts.
  set (sortedBlocks := sort_by block_priority _).
  generalize (filter isActive sortedBlocks) as l. intro l.
  destruct (mapM (renderBlock sortedBlocks aspectRatio) l) as [rendered|] eqn:Hr;
    simpl; [|discriminate].
  intro H. injection H as <-. exists (keep_some rendered). split; [reflexivity|].
  revert rendered Hr. induction l as [|b l IH]; intros rendered Hr.
  - simpl in Hr. injection Hr as <-. constructor.
  - apply mapM_cons in Hr. destruct Hr as [c [r' [-> [Hc Hr]]]].
    destruct c as [c|]; simpl.
    + constructor; [now apply renderBlock_clause_opens in Hc|now apply IH].
    + now apply IH.
Qed.

(** C1, where the code departs from it.  The active Background block has
    its transparency section switched off while the section's [remove_bg]
    field is [true].  The section is not among the block's active sections,
    so nothing of it is rendered in the block's clause; yet the compiler
    puts the isolation directive first: it reads the field and never the
    section's switch. *)
Lemma isolation_directive_ignores_section_toggle :
  obj_get (b_sections ex_background_masked) "transparency"
  = Some (mkSectionState (Some (VBool false)) [("remove_bg", VBool true)])
  /\ obj_keys (activeSections [ex_background_masked] ex_background_masked)
     = ["setting"]
  /\ promptParts [ex_background_masked] "" false [] "1:1"
     = Some [ISOLATION;
             "[Background & Atmosphere - " ++ dquote ++ "Background 1" ++ dquote
               ++ "]: Type: Outdoor, Setting: Rain-soaked alley, Time: Day"]
  /\ exists rest,
       constructPromptFromBlocks [ex_background_masked] "" false [] "1:1"
       = Some (ISOLATION ++ rest).
Proof.
  split; [reflexivity|].
  split; [reflexivity|].
  split; [vm_compute; reflexivity|].
  eexists. vm_compute. reflexivity.
Qed.

(** X25.  What decides the isolation directive in the code.  Whenever the
    compiler returns, its parts are the style prefix, then the isolation
    directive if and only if the first active Background block of the
    processed list has a transparency section whose [remove_bg] field is
    [true] - whether that section is switched on or not - and then the
    block clauses.  The directive is a part of the prompt in that case
    only, and it is then the first part after the style prefix. *)
Theorem isolation_directive_rule
    (localBlocks globalBlocks : list BlockState) (baseStyle aspectRatio : string)
    (useBaseStyle : bool) (parts : list string)
    (Hparts : promptParts localBlocks baseStyle useBaseStyle globalBlocks
                aspectRatio = Some parts) :
  let toProcess := blocksToProcess localBlocks globalBlocks useBaseStyle in
  let directive :=
    exists b st,
      find (is_active_of BACKGROUND) toProcess = Some b
      /\ obj_get (b_sections b) "transparency" = Some st
      /\ obj_get (st_fields st) "remove_bg" = Some (VBool true) in
  (directive <-> In ISOLATION parts)
  /\ (directive ->
      exists clauses,
        parts = (style_prefix baseStyle useBaseStyle ++ ISOLATION :: clauses)%list)
  /\ (~ directive ->
      exists clauses,
        parts = (style_prefix baseStyle useBaseStyle ++ clauses)%list
        /\ ~ In ISOLATION clauses)
  /\ constructPromptFromBlocks localBlocks baseStyle useBaseStyle globalBlocks
       aspectRatio = Some (String.concat ". " parts).
Proof.
  intros toProcess directive.
  destruct (isolation_directive_position _ _ _ _ _ Hparts)
    as [clauses [Heq Hclauses]].
  fold toProcess in Heq.
  assert (Hdir : directive <-> isTransparencyEnabled toProcess = true).
  { unfold directive. symmetry. apply isTransparencyEnabled_iff. }
  assert (Hstyle : ~ In ISOLATION (style_prefix baseStyle useBaseStyle)).
  { unfold style_prefix. destruct (_ && _); [|intros []].
    intros [H|[]]. discriminate H. }
  assert (Hcl : ~ In ISOLATION clauses).
  { intro Hin. rewrite Forall_forall in Hclauses.
    destruct (Hclauses _ Hin) as [rest Hrest]. discriminate Hrest. }
  split.
  { rewrite Hdir, Heq.
    destruct (isTransparencyEnabled toProcess); split; intro H.
    - apply in_or_app. right. now left.
    - reflexivity.
    - discriminate.
    - exfalso. apply in_app_or in H. destruct H as [H|H]; [now apply Hstyle|].
      simpl in H. now apply Hcl. }
  split.
  { intro H. apply Hdir in H. rewrite H in Heq. now exists clauses. }
  split.
  { intro H. exists clauses. split; [|exact Hcl].
    destruct (isTransparencyEnabled toProcess) eqn:E; [|exact Heq].
    exfalso. apply H. now apply Hdir. }
  unfold constructPromptFromBlocks. now rewrite Hparts.
Qed.

Lemma isolation_directive_rule_witness :
  exists clauses,
    promptParts [ex_subject; ex_background_masked] "noir" true [] "1:1"
    = Some ("Style: noir." :: ISOLATION :: clauses).
Proof.
  destruct (@isolation_directive_rule
              [ex_subject; ex_background_masked] [] "noir" "1:1" true
              _ eq_refl) as [_ [H _]].
  destruct H as [clauses Hc].
  - exists ex_background_masked. eexists. repeat split; reflexivity.
  - exists clauses. vm_compute. vm_compute in Hc. f_equal. exact Hc.
Defined.

(** ** C2: one active instance of a single-instance type *)

(** C2, at the input that shows the defect.  The project holds two global
    Background blocks, the older one switched off by [addGlobalBlock] when
    the newer was added.  Clicking the eye of the older one in the editor
    goes through the global branch of [toggleBlockActive], which switches
    the block on and leaves its active sibling on: two Background blocks of
    the global scope are active. *)
Theorem toggle_global_keeps_active_sibling :
  singleActiveInstance (BLOCK_DEFINITIONS BACKGROUND) = true
  /\ map (fun b => (b_type b, isActive b)) ex_globals
     = [(BACKGROUND, false); (BACKGROUND, true)]
  /\ active_count BACKGROUND (globalBlocks ex_editor) = 1%nat
  /\ map (fun b => (b_type b, isActive b))
         (globalBlocks (run_ops ex_editor [OpToggle 0]))
     = [(BACKGROUND, true); (BACKGROUND, true)]
  /\ active_count BACKGROUND (globalBlocks (run_ops ex_editor [OpToggle 0]))
     = 2%nat
  /\ ~ single_active (globalBlocks (run_ops ex_editor [OpToggle 0])).
Proof.
  repeat split; try reflexivity.
  intro H. specialize (H BACKGROUND eq_refl).
  vm_compute in H. lia.
Qed.

(** The document's own scope keeps the rule, its ids being distinct. *)

Lemma filter_map_length_le {A : Type} (P Q : A -> bool) (h : A -> A)
    (l : list A) :
  (forall b, In b l -> P (h b) = true -> Q b = true) ->
  (List.length (filter P (map h l)) <= List.length (filter Q l))%nat.
Proof.
  induction l as [|a l IH]; simpl; intro H; [lia|].
  assert (IH' : (List.length (filter P (map h l))
                 <= List.length (filter Q l))%nat).
  { apply IH. intros b Hb. apply H. now right. }
  destruct (P (h a)) eqn:Ep.
  - rewrite (H a (or_introl eq_refl) Ep). simpl. lia.
  - destruct (Q a); simpl; lia.
Qed.

Lemma same_id_same_block (bs : list BlockState) (b b' : BlockState) :
  ids_distinct bs -> In b bs -> In b' bs -> b_id b = b_id b' -> b = b'.
Proof.
  unfold ids_distinct. induction bs as [|x bs IH]; simpl; intros Hnd Hb Hb' Hid;
    [contradiction|].
  apply NoDup_cons_iff in Hnd. destruct Hnd as [Hx Hnd].
  destruct Hb as [->|Hb], Hb' as [->|Hb'].
  - reflexivity.
  - exfalso. apply Hx. rewrite Hid. now apply in_map.
  - exfalso. apply Hx. rewrite <- Hid. now apply in_map.
  - now apply IH.
Qed.

Lemma one_block_per_id (bs : list BlockState) (k : string) :
  ids_distinct bs ->
  (List.length (filter (fun b => String.eqb (b_id b) k) bs) <= 1)%nat.
Proof.
  unfold ids_distinct. induction bs as [|x bs IH]; simpl; intro Hnd; [lia|].
  apply NoDup_cons_iff in Hnd. destruct Hnd as [Hx Hnd].
  destruct (String.eqb_spec (b_id x) k) as [E|E]; [|now apply IH].
  simpl. assert (filter (fun b => String.eqb (b_id b) k) bs = []) as ->; [|simpl; lia].
  destruct (filter _ bs) as [|y ys] eqn:Hf; [reflexivity|].
  exfalso. assert (Hy : In y (filter (fun b => String.eqb (b_id b) k) bs))
    by (rewrite Hf; now left).
  apply filter_In in Hy. destruct Hy as [Hy Hk].
  apply String.eqb_eq in Hk. apply Hx. rewrite E, <- Hk. now apply in_map.
Qed.

Lemma active_count_app (t : BlockType) (l1 l2 : list BlockState) :
  active_count t (l1 ++ l2) = (active_count t l1 + active_count t l2)%nat.
Proof. unfold active_count. now rewrite filter_app, length_app. Qed.

Lemma map_id_set_isActive (f : BlockState -> bool) (a : BlockState -> bool)
    (bs : list BlockState) :
  map b_id (map (fun b => if f b then set_isActive b (a b) else b) bs)
  = map b_id bs.
Proof.
  rewrite map_map. apply map_ext. intro b. now destruct (f b).
Qed.

Lemma insertNewBlock_keeps_rule (st : EditorState) (newBlock : BlockState) :
  single_active (blocks st) -> ids_distinct (blocks st) ->
  ~ In (b_id newBlock) (map b_id (blocks st)) ->
  single_active
    (blocks (insertNewBlock st newBlock
               (singleActiveInstance (BLOCK_DEFINITIONS (b_type newBlock)))))
  /\ ids_distinct
       (blocks (insertNewBlock st newBlock
                  (singleActiveInstance (BLOCK_DEFINITIONS (b_type newBlock))))).
Proof.
  intros Hrule Hids Hfresh. unfold insertNewBlock. simpl. unfold push. split.
  - intros t Ht. rewrite active_count_app.
    destruct (singleActiveInstance (BLOCK_DEFINITIONS (b_type newBlock))) eqn:Hs.
    + destruct (BlockType_eqb (b_type newBlock) t) eqn:Et.
      * apply BlockType_eqb_eq in Et. subst t.
        assert (H0 : (active_count (b_type newBlock)
                        (map (fun b => if BlockType_eqb (b_type b) (b_type newBlock)
                                          && isActive b
                                       then set_isActive b false else b)
                             (blocks st)) <= 0)%nat).
        { unfold active_count.
          etransitivity;
            [apply (filter_map_length_le _ (fun _ => false))|].
          - intros b _. unfold is_active_of.
            destruct (BlockType_eqb (b_type b) (b_type newBlock)) eqn:E;
              destruct (isActive b) eqn:Ea; simpl; rewrite ?E, ?Ea; simpl;
              intro H; try discriminate H.
          - clear. induction (blocks st) as [|x l IH]; simpl; [lia|exact IH]. }
        assert (active_count (b_type newBlock) [newBlock] <= 1)%nat.
        { unfold active_count. simpl. destruct (is_active_of _ _); simpl; lia. }
        lia.
      * assert (H0 : (active_count t
                        (map (fun b => if BlockType_eqb (b_type b) (b_type newBlock)
                                          && isActive b
                                       then set_isActive b false else b)
                             (blocks st)) <= active_count t (blocks st))%nat).
        { unfold active_count. apply filter_map_length_le.
          intros b _. destruct (_ && _); [|easy].
          unfold is_active_of. simpl. now rewrite andb_false_r. }
        assert (active_count t [newBlock] = 0%nat).
        { unfold active_count, is_active_of. simpl. now rewrite Et. }
        specialize (Hrule t Ht). lia.
    + assert (active_count t [newBlock] = 0%nat).
      { unfold active_count, is_active_of. simpl.
        destruct (BlockType_eqb (b_type newBlock) t) eqn:Et; [|reflexivity].
        apply BlockType_eqb_eq in Et. subst t. congruence. }
      specialize (Hrule t Ht). lia.
  - unfold ids_distinct.
    assert (Hm : map b_id
                   (if singleActiveInstance (BLOCK_DEFINITIONS (b_type newBlock))
                    then map (fun b => if BlockType_eqb (b_type b) (b_type newBlock)
                                          && isActive b
                                       then set_isActive b false else b)
                             (blocks st)
                    else blocks st)
                 = map b_id (blocks st)).
    { destruct (singleActiveInstance _); [|reflexivity].
      apply (map_id_set_isActive _ (fun _ => false)). }
    rewrite map_app, Hm. simpl.
    apply NoDup_app; [exact Hids|repeat constructor; intros []|].
    intros x Hx [<-|[]]. now apply Hfresh.
Qed.

Lemma splice_after_perm {A : Type} (idx : option nat) (x : A) (l : list A) :
  Permutation (x :: l) (splice_after idx x l).
Proof.
  unfold splice_after.
  set (k := match idx with Some i => S i | None => 0%nat end).
  rewrite <- (firstn_skipn k l) at 1.
  apply Permutation_middle.
Qed.

Lemma active_count_perm (t : BlockType) (l1 l2 : list BlockState) :
  Permutation l1 l2 -> active_count t l1 = active_count t l2.
Proof.
  intro H. unfold active_count.
  induction H; simpl.
  - reflexivity.
  - destruct (is_active_of t x); simpl; now rewrite IHPermutation.
  - destruct (is_active_of t x), (is_active_of t y); reflexivity.
  - congruence.
Qed.

Lemma duplicateBlock_keeps_rule (st : EditorState) (block : BlockState) (now : Z) :
  single_active (blocks st) -> ids_distinct (blocks st) ->
  ~ In ("block-" ++ string_of_Z now) (map b_id (blocks st)) ->
  single_active (blocks (duplicateBlock st block now))
  /\ ids_distinct (blocks (duplicateBlock st block now)).
Proof.
  intros Hrule Hids Hfresh. unfold duplicateBlock.
  destruct (some_id (globalBlocks st) (b_id block)); [now split|]. simpl.
  set (newBlock := mkBlock _ _ _ _ _ _ _ _).
  set (idx := findIndex _ _).
  pose proof (splice_after_perm idx newBlock (blocks st)) as Hperm.
  split.
  - intros t Ht. rewrite <- (active_count_perm t Hperm).
    change (newBlock :: blocks st) with ([newBlock] ++ blocks st)%list.
    rewrite active_count_app.
    assert (active_count t [newBlock] = 0%nat).
    { unfold active_count, is_active_of. simpl.
      destruct (BlockType_eqb (b_type block) t) eqn:Et; [|reflexivity].
      apply BlockType_eqb_eq in Et. subst t. now rewrite Ht. }
    specialize (Hrule t Ht). lia.
  - unfold ids_distinct.
    apply (Permutation_NoDup (l := map b_id (newBlock :: blocks st))).
    + now apply Permutation_map.
    + simpl. constructor; assumption.
Qed.

(** An entry of the rendered list is the copy of a global block, with its
    id, or a block of the document. *)
Lemma effectiveBlocks_origin (st : EditorState) (i : nat) (block : BlockState) :
  nth_error (effectiveBlocks st) i = Some block ->
  (exists g, In g (globalBlocks st) /\ block = set_isGlobal g)
  \/ In block (blocks st).
Proof.
  intro H. apply nth_error_In in H. unfold effectiveBlocks in H.
  destruct (useBaseStyle st && (0 <? List.length (globalBlocks st))%nat).
  - apply in_app_or in H. destruct H as [H|H].
    + apply filter_In in H. destruct H as [H _].
      apply in_map_iff in H. destruct H as [g [Hg Hin]].
      left. now exists g.
    + now right.
  - now right.
Qed.

(** The local branch of [toggleBlockActive], block by block: the block
    with the toggled id takes the new state, an active sibling of a
    single-instance type being switched on is switched off, any other
    block stays. *)
Lemma toggleBlockActive_local (st : EditorState) (block : BlockState) :
  some_id (globalBlocks st) (b_id block) = false ->
  blocks (toggleBlockActive st block)
  = map (fun b =>
           if String.eqb (b_id b) (b_id block)
           then set_isActive b (negb (isActive block))
           else if negb (isActive block)
                   && singleActiveInstance (BLOCK_DEFINITIONS (b_type block))
                   && BlockType_eqb (b_type b) (b_type block) && isActive b
           then set_isActive b false else b)
        (blocks st).
Proof.
  intro Hg. unfold toggleBlockActive. rewrite Hg. simpl.
  destruct (negb (isActive block)
            && singleActiveInstance (BLOCK_DEFINITIONS (b_type block))) eqn:Es.
  - rewrite map_map. apply map_ext. intro b.
    destruct (String.eqb (b_id b) (b_id block)) eqn:Eid; simpl.
    + rewrite andb_false_r. simpl. now rewrite Eid.
    + rewrite andb_true_r.
      destruct (BlockType_eqb (b_type b) (b_type block) && isActive b);
        simpl; now rewrite Eid.
  - apply map_ext. intro b. now destruct (String.eqb _ _).
Qed.

Lemma toggleBlockActive_keeps_rule (st : EditorState) (block : BlockState) :
  single_active (blocks st) -> ids_distinct (blocks st) ->
  (exists g, In g (globalBlocks st) /\ block = set_isGlobal g)
  \/ In block (blocks st) ->
  single_active (blocks (toggleBlockActive st block))
  /\ ids_distinct (blocks (toggleBlockActive st block)).
Proof.
  intros Hrule Hids Horigin.
  destruct (some_id (globalBlocks st) (b_id block)) eqn:Hglobal.
  { unfold toggleBlockActive. rewrite Hglobal. now split. }
  assert (Hin : In block (blocks st)).
  { destruct Horigin as [[g [Hg ->]]|Hl]; [|exact Hl]. exfalso.
    assert (some_id (globalBlocks st) (b_id (set_isGlobal g)) = true).
    { apply existsb_exists. exists g. split; [exact Hg|apply String.eqb_refl]. }
    congruence. }
  rewrite (toggleBlockActive_local st block Hglobal). split.
  - intros t Ht.
    destruct (BlockType_eqb (b_type block) t && negb (isActive block)) eqn:Ecase.
    + (* the toggled block is of type [t] and is being switched on *)
      apply andb_true_iff in Ecase. destruct Ecase as [Et Ew].
      apply BlockType_eqb_eq in Et. subst t.
      etransitivity; [|apply (@one_block_per_id (blocks st) (b_id block) Hids)].
      unfold active_count. apply filter_map_length_le.
      intros b _. unfold is_active_of. rewrite Ew, Ht. simpl.
      destruct (String.eqb (b_id b) (b_id block)) eqn:Eid; [reflexivity|].
      destruct (BlockType_eqb (b_type b) (b_type block)) eqn:Eb;
        destruct (isActive b) eqn:Ea; simpl; rewrite ?Eb, ?Ea; simpl;
        intro H; discriminate H.
    + (* no block of type [t] is switched on *)
      etransitivity; [|apply (Hrule t Ht)].
      unfold active_count. apply filter_map_length_le.
      intros b Hb. unfold is_active_of.
      destruct (String.eqb (b_id b) (b_id block)) eqn:Eid.
      * apply String.eqb_eq in Eid.
        assert (b = block)
          by exact (@same_id_same_block (blocks st) b block Hids Hb Hin Eid).
        subst b. simpl. rewrite Ecase. discriminate.
      * destruct (negb (isActive block)
                  && singleActiveInstance (BLOCK_DEFINITIONS (b_type block))
                  && BlockType_eqb (b_type b) (b_type block) && isActive b);
          simpl; [|intro H; exact H].
        rewrite andb_false_r. discriminate.
  - unfold ids_distinct.
    assert (Hm : forall f : BlockState -> BlockState,
               (forall b, b_id (f b) = b_id b) ->
               map b_id (map f (blocks st)) = map b_id (blocks st)).
    { intros f Hf. rewrite map_map. now apply map_ext. }
    rewrite Hm; [exact Hids|].
    intro b. destruct (String.eqb _ _); [reflexivity|].
    now destruct (_ && _).
Qed.

(** Every action on the block list of the editor keeps the rule on the
    document's own blocks. *)
Lemma run_op_keeps_rule (st : EditorState) (op : Op) :
  single_active (blocks st) -> ids_distinct (blocks st) ->
  creates_fresh st op ->
  single_active (blocks (run_op st op)) /\ ids_distinct (blocks (run_op st op)).
Proof.
  intros Hrule Hids Hfresh. destruct op as [t now|i now|i]; simpl in *.
  - unfold addBlock. apply insertNewBlock_keeps_rule with (newBlock := mkBlock _ _ _ _ _ _ _ _);
      assumption.
  - destruct (nth_error (effectiveBlocks st) i) as [block|];
      [|now split].
    now apply duplicateBlock_keeps_rule.
  - destruct (nth_error (effectiveBlocks st) i) as [block|] eqn:Hn;
      [|now split].
    apply toggleBlockActive_keeps_rule; try assumption.
    now apply effectiveBlocks_origin in Hn.
Qed.

(** X24.  The document's own scope: from a list that keeps the rule and
    has distinct ids, every run of add, duplicate and toggle actions whose
    new ids are fresh ends in a list that keeps the rule. *)
Lemma local_scope_keeps_single_active (ops : list Op) :
  forall st, single_active (blocks st) -> ids_distinct (blocks st) ->
             fresh_run st ops ->
             single_active (blocks (run_ops st ops))
             /\ ids_distinct (blocks (run_ops st ops)).
Proof.
  induction ops as [|op ops IH]; intros st Hrule Hids Hfresh; simpl.
  - now split.
  - destruct Hfresh as [Hop Hrest].
    destruct (@run_op_keeps_rule st op Hrule Hids Hop) as [H1 H2].
    now apply IH.
Qed.

(** ** C3: the effective block list *)

Lemma has_type_In (types : list BlockType) (t : BlockType) :
  has_type types t = true <-> In t types.
Proof.
  unfold has_type. rewrite existsb_exists. split.
  - intros [x [Hin Heq]]. apply BlockType_eqb_eq in Heq. now subst.
  - intro Hin. exists t. split; [exact Hin|apply BlockType_eqb_refl].
Qed.

(** The claim as worded fails on the compiler's list: with the document's
    own Background block switched off, the active global Background block
    is processed by the compiler, where the worded rule drops it. *)
Lemma compiler_list_keeps_shadowed_global :
  blocksToProcess [ex_background_off] [ex_global_background] true
  = [ex_global_background; ex_background_off]
  /\ spec_effective_list [ex_background_off] [ex_global_background]
     = [ex_background_off]
  /\ blocksToProcess [ex_background_off] [ex_global_background] true
     <> spec_effective_list [ex_background_off] [ex_global_background].
Proof.
  split; [reflexivity|]. split; [reflexivity|].
  intro H. apply (f_equal (@List.length BlockState)) in H. discriminate H.
Qed.

(** The globals the compiler keeps. *)
Lemma blocksToProcess_true (locals globals : list BlockState) :
  blocksToProcess locals globals true
  = (filter (fun gb =>
               isActive gb
               && negb (singleActiveInstance (BLOCK_DEFINITIONS (b_type gb))
                        && has_type (map b_type (filter isActive locals))
                                    (b_type gb))) globals
     ++ locals)%list.
Proof.
  unfold blocksToProcess. simpl.
  destruct globals as [|g globals]; [reflexivity|].
  cbn [List.length Nat.ltb Nat.leb]. f_equal.
  apply filter_ext. intro gb. destruct (isActive gb); simpl; [|reflexivity].
  now destruct (_ && _).
Qed.

Lemma filter_map_commute {A B : Type} (f : A -> B) (P : B -> bool)
    (l : list A) :
  filter P (map f l) = map f (filter (fun a => P (f a)) l).
Proof.
  induction l as [|a l IH]; simpl; [reflexivity|].
  destruct (P (f a)); simpl; now rewrite IH.
Qed.

(** A global block is kept by a filter of the form both lists use exactly
    when it is not of a single-instance type that one of the given blocks
    has. *)
Lemma not_shadowed_iff (ls : list BlockState) (g : BlockState) :
  negb (singleActiveInstance (BLOCK_DEFINITIONS (b_type g))
        && has_type (map b_type ls) (b_type g)) = true
  <-> ~ (singleActiveInstance (BLOCK_DEFINITIONS (b_type g)) = true
         /\ exists l, In l ls /\ b_type l = b_type g).
Proof.
  rewrite negb_true_iff, andb_false_iff. split.
  - intros H [Hsingle [l [Hl Ht]]].
    assert (has_type (map b_type ls) (b_type g) = true).
    { apply has_type_In. rewrite <- Ht. now apply in_map. }
    destruct H; congruence.
  - intro Hnot.
    destruct (singleActiveInstance (BLOCK_DEFINITIONS (b_type g))) eqn:Hs;
      [right|now left].
    destruct (has_type (map b_type ls) (b_type g)) eqn:Hh; [|reflexivity].
    exfalso. apply Hnot. split; [reflexivity|].
    apply has_type_In in Hh. apply in_map_iff in Hh.
    destruct Hh as [l [Ht Hl]]. now exists l.
Qed.

(** C3, amended.  With the base style in use, the editor's effective list
    is the globals it shows, each a copy marked [isGlobal], in their order,
    followed by the locals; a global is shown exactly when it is not of a
    single-instance type that some local block has.  The compiler's list
    is the globals it keeps, in their order, followed by the locals; it
    keeps a global exactly when the global is active and not of a
    single-instance type that some ACTIVE local block has.  When the
    document has an active Background block, every Background block of
    either list is a block of the document. *)
Theorem effective_list_shadowing (st : EditorState)
    (Hbase : useBaseStyle st = true) :
  let locals := blocks st in
  let globals := globalBlocks st in
  let shown :=
    filter (fun g => negb (singleActiveInstance (BLOCK_DEFINITIONS (b_type g))
                           && has_type (map b_type locals) (b_type g)))
           globals in
  let kept :=
    filter (fun g => isActive g
                     && negb (singleActiveInstance (BLOCK_DEFINITIONS (b_type g))
                              && has_type (map b_type (filter isActive locals))
                                          (b_type g)))
           globals in
  effectiveBlocks st = (map set_isGlobal shown ++ locals)%list
  /\ (forall g, In g shown
                <-> In g globals
                    /\ ~ (singleActiveInstance (BLOCK_DEFINITIONS (b_type g)) = true
                          /\ exists l, In l locals /\ b_type l = b_type g))
  /\ blocksToProcess locals globals true = (kept ++ locals)%list
  /\ (forall g, In g kept
                <-> In g globals /\ isActive g = true
                    /\ ~ (singleActiveInstance (BLOCK_DEFINITIONS (b_type g)) = true
                          /\ exists l, In l locals /\ isActive l = true
                                       /\ b_type l = b_type g))
  /\ (forall l, In l locals -> b_type l = BACKGROUND -> isActive l = true ->
        (forall x, In x (effectiveBlocks st) -> b_type x = BACKGROUND ->
                   In x locals)
        /\ (forall x, In x (blocksToProcess locals globals true) ->
                      b_type x = BACKGROUND -> In x locals)).
Proof.
  intros locals globals shown kept.
  assert (Heff : effectiveBlocks st = (map set_isGlobal shown ++ locals)%list).
  { subst shown locals globals. unfold effectiveBlocks. rewrite Hbase.
    destruct (globalBlocks st) as [|g gs]; [reflexivity|].
    change (0 <? List.length (g :: gs))%nat with true. cbn [andb].
    f_equal. rewrite filter_map_commute. reflexivity. }
  assert (Hshown : forall g, In g shown
                <-> In g globals
                    /\ ~ (singleActiveInstance (BLOCK_DEFINITIONS (b_type g)) = true
                          /\ exists l, In l locals /\ b_type l = b_type g)).
  { intro g. unfold shown. rewrite filter_In, not_shadowed_iff. reflexivity. }
  assert (Hkept : forall g, In g kept
                <-> In g globals /\ isActive g = true
                    /\ ~ (singleActiveInstance (BLOCK_DEFINITIONS (b_type g)) = true
                          /\ exists l, In l locals /\ isActive l = true
                                       /\ b_type l = b_type g)).
  { intro g. unfold kept. rewrite filter_In, andb_true_iff, not_shadowed_iff.
    split.
    - intros [Hg [Ha Hnot]]. split; [exact Hg|]. split; [exact Ha|].
      intros [Hs [l [Hl [Hla Ht]]]]. apply Hnot. split; [exact Hs|].
      exists l. split; [|exact Ht]. apply filter_In. now split.
    - intros [Hg [Ha Hnot]]. split; [exact Hg|]. split; [exact Ha|].
      intros [Hs [l [Hl Ht]]]. apply Hnot. split; [exact Hs|].
      apply filter_In in Hl. destruct Hl as [Hl Hla]. now exists l. }
  split; [exact Heff|]. split; [exact Hshown|].
  split; [apply blocksToProcess_true|]. split; [exact Hkept|].
  intros l Hl Ht Ha. split.
  - intros x Hx Hxt. rewrite Heff in Hx. apply in_app_or in Hx.
    destruct Hx as [Hx|Hx]; [|exact Hx]. exfalso.
    apply in_map_iff in Hx. destruct Hx as [g [<- Hg]].
    apply Hshown in Hg. destruct Hg as [_ Hnot]. apply Hnot.
    simpl in Hxt. rewrite Hxt. split; [reflexivity|]. now exists l.
  - intros x Hx Hxt. rewrite blocksToProcess_true in Hx.
    apply in_app_or in Hx. destruct Hx as [Hx|Hx]; [|exact Hx]. exfalso.
    apply Hkept in Hx. destruct Hx as [_ [_ Hnot]]. apply Hnot.
    rewrite Hxt. split; [reflexivity|]. now exists l.
Qed.

Lemma effective_list_shadowing_witness :
  effectiveBlocks
    (mkEditor [ex_background] [ex_global_background] true None None)
  = [ex_background]
  /\ forall x,
       In x (blocksToProcess [ex_background] [ex_global_background] true) ->
       b_type x = BACKGROUND -> In x [ex_background].
Proof.
  pose proof (@effective_list_shadowing
                (mkEditor [ex_background] [ex_global_background] true None None)
                eq_refl) as H.
  cbv zeta in H. destruct H as [H1 [_ [_ [_ H5]]]]. split.
  - rewrite H1. reflexivity.
  - apply (H5 ex_background); [left|..]; reflexivity.
Defined.

(** ** C4: section visibility *)

Lemma strict_eq_str_true (x : option jsval) (s : string) :
  strict_eq_str x s = true <-> x = Some (VStr s).
Proof.
  unfold strict_eq_str. split.
  - destruct x as [[| | | s' | |]|]; try discriminate.
    intro H. apply String.eqb_eq in H. now subst.
  - intros ->. apply String.eqb_refl.
Qed.

Lemma includes_str_true (l : list string) (x : option jsval) :
  includes_str l x = true <-> exists s, In s l /\ x = Some (VStr s).
Proof.
  unfold includes_str. rewrite existsb_exists.
  split; intros [s [Hin H]]; exists s; split; try exact Hin;
    now apply strict_eq_str_true.
Qed.

Lemma find_none_inactive (t : BlockType) (bs : list BlockState) :
  (forall b, In b bs -> b_type b = t -> isActive b = false) ->
  find (is_active_of t) bs = None.
Proof.
  intro H. destruct (find (is_active_of t) bs) as [b|] eqn:Hf; [|reflexivity].
  apply find_some in Hf. destruct Hf as [Hin Hact].
  unfold is_active_of in Hact. apply andb_true_iff in Hact.
  destruct Hact as [Ht Ha]. apply BlockType_eqb_eq in Ht.
  rewrite (H b Hin Ht) in Ha. discriminate.
Qed.

(** Entries a filter rejects whatever their value do not show in the filter
    of an object after such a key was assigned. *)
Lemma filter_obj_set_rejected {A : Type} (P : string * A -> bool)
    (o : list (string * A)) (k : string) (v : A) :
  (forall v', P (k, v') = false) ->
  filter P (obj_set o k v) = filter P o.
Proof.
  intro H. induction o as [|[k' v'] o IH]; simpl.
  - now rewrite H.
  - destruct (String.eqb_spec k' k) as [->|Hne]; simpl.
    + now rewrite !H.
    + now rewrite IH.
Qed.

(** In the schema the one section with a cross-block condition is the
    emotion section of Mood, controlled by Subject. *)
Lemma cross_block_condition_inv (ty : BlockType) (secId : string)
    (secDef : BlockSectionDefinition) (c : Condition) (t : BlockType) :
  find_section (BLOCK_DEFINITIONS ty) secId = Some secDef ->
  condition secDef = Some c -> c_blockType c = Some t ->
  ty = MOOD /\ secId = "emotion" /\ t = SUBJECT.
Proof.
  intros Hf Hc Ht. unfold find_section in Hf.
  destruct ty; cbn -[String.eqb] in Hf;
    repeat match type of Hf with
           | (if String.eqb ?a secId then _ else _) = _ =>
               destruct (String.eqb_spec a secId) as [?|?]
           end;
    try discriminate Hf;
    injection Hf as <-; simpl in Hc; try discriminate Hc;
    injection Hc as <-; simpl in Ht; try discriminate Ht.
  injection Ht as <-. now subst.
Qed.

(** The first active block of a type, found where it stands. *)
Lemma find_first_active (t : BlockType) (l1 l2 : list BlockState)
    (x : BlockState) :
  b_type x = t -> isActive x = true ->
  (forall b, In b l1 -> ~ (b_type b = t /\ isActive b = true)) ->
  find (is_active_of t) (l1 ++ x :: l2) = Some x.
Proof.
  intros Ht Ha Hbefore. induction l1 as [|y l1 IH]; simpl.
  - unfold is_active_of. rewrite Ht, Ha, BlockType_eqb_refl. reflexivity.
  - destruct (is_active_of t y) eqn:Ey.
    + exfalso. apply (Hbefore y (or_introl eq_refl)).
      unfold is_active_of in Ey. apply andb_true_iff in Ey.
      destruct Ey as [Ey1 Ey2]. apply BlockType_eqb_eq in Ey1. now split.
    + apply IH. intros b Hb. apply Hbefore. now right.
Qed.

(** C4.  A section whose condition names a block type is not visible when
    the processed blocks hold no active block of that type: it is not among
    the active sections of its block, and the block's clause is the same
    whatever state the section holds.  When a condition has a controlling
    block - the owner itself, or the first active block of the type the
    condition names - the condition is met exactly when the controlling
    field is the condition's scalar value, or a member of its set value;
    and the section is then among the active sections the compiler renders
    exactly when it is a section of the block, is switched on if it can be
    switched, and its condition is met.  So the clause of the Mood block of
    the sample scene holds its emotion section beside an active Subject of
    a human-like category, and the block renders nothing without one. *)
Theorem section_visibility_fails_closed
    (sortedBlocks : list BlockState) (block : BlockState) (secId : string)
    (secDef : BlockSectionDefinition) (c : Condition) (t : BlockType)
    (aspectRatio : string)
    (Hdef : find_section (BLOCK_DEFINITIONS (b_type block)) secId = Some secDef)
    (Hcond : condition secDef = Some c)
    (Hnamed : c_blockType c = Some t)
    (Hnone : forall b, In b sortedBlocks -> b_type b = t -> isActive b = false) :
  isSectionVisible sortedBlocks block c = false
  /\ (forall state,
        sectionIsActive sortedBlocks block (BLOCK_DEFINITIONS (b_type block))
                        (secId, state) = false)
  /\ ~ In secId (obj_keys (activeSections sortedBlocks block))
  /\ (forall state,
        renderBlock sortedBlocks aspectRatio (set_section block secId state)
        = renderBlock sortedBlocks aspectRatio block)
  /\ (forall (blocks : list BlockState) (owner controlling : BlockState)
             (secId' : string) (state' : SectionState)
             (secDef' : BlockSectionDefinition) (c' : Condition),
        find_section (BLOCK_DEFINITIONS (b_type owner)) secId' = Some secDef' ->
        condition secDef' = Some c' ->
        match c_blockType c' with
        | Some t' =>
            exists before after,
              blocks = (before ++ controlling :: after)%list
              /\ b_type controlling = t' /\ isActive controlling = true
              /\ forall b, In b before ->
                           ~ (b_type b = t' /\ isActive b = true)
        | None => controlling = owner
        end ->
        let met :=
          condition_holds (c_value c')
            (section_field controlling (c_sectionId c') (c_fieldId c')) in
        let switched_on :=
          toggleable secDef' = false \/ truthy_opt (enabled state') = true in
        (isSectionVisible blocks owner c' = true <-> met)
        /\ (sectionIsActive blocks owner (BLOCK_DEFINITIONS (b_type owner))
                            (secId', state') = true
            <-> switched_on /\ met)
        /\ (In (secId', state') (activeSections blocks owner)
            <-> In (secId', state') (b_sections owner)
                /\ switched_on /\ met))
  /\ renderBlock [ex_subject; ex_background; ex_mood] "1:1" ex_mood
     = Some (Some ("[Mood & Emotion - " ++ dquote ++ "Mood 1" ++ dquote
                     ++ "]: Feeling: Happy, Intensity: 90"))
  /\ renderBlock [ex_background; ex_mood] "1:1" ex_mood = Some None.
Proof.
  assert (Hvis : isSectionVisible sortedBlocks block c = false).
  { unfold isSectionVisible, controllingBlock. rewrite Hnamed.
    now rewrite (find_none_inactive _ Hnone). }
  assert (Hact : forall state,
             sectionIsActive sortedBlocks block
               (BLOCK_DEFINITIONS (b_type block)) (secId, state) = false).
  { intro state. unfold sectionIsActive. simpl. rewrite Hdef, Hcond, Hvis.
    now destruct (_ && _). }
  split; [exact Hvis|]. split; [exact Hact|]. split.
  { intro Hin. unfold obj_keys in Hin. apply in_map_iff in Hin.
    destruct Hin as [[k state] [Hk Hin]]. simpl in Hk. subst k.
    unfold activeSections in Hin. apply filter_In in Hin.
    destruct Hin as [_ Hin]. rewrite Hact in Hin. discriminate. }
  split.
  { intro state.
    destruct (cross_block_condition_inv _ _ Hdef Hcond Hnamed)
      as [Hty [Hsec Ht]].
    assert (Hsame : activeSections sortedBlocks (set_section block secId state)
                    = activeSections sortedBlocks block).
    { unfold activeSections. simpl.
      rewrite (filter_obj_set_rejected
                 (sectionIsActive sortedBlocks (set_section block secId state)
                    (BLOCK_DEFINITIONS (b_type block)))).
      - apply filter_ext. intros [k st]. rewrite Hty.
        unfold sectionIsActive, find_section. cbn -[String.eqb].
        destruct (String.eqb "emotion" k); [reflexivity|].
        destruct (String.eqb "atmosphere" k); reflexivity.
      - intro v'. rewrite <- (Hact v'). rewrite Hty, Hsec.
        reflexivity. }
    unfold renderBlock. rewrite Hsame. reflexivity. }
  split; [|split; vm_compute; reflexivity].
  intros blocks owner controlling secId' state' secDef' c' Hdef' Hcond' Hctl
    met switched_on.
  assert (Hfound : controllingBlock blocks owner c' = Some controlling).
  { unfold controllingBlock. destruct (c_blockType c') as [t'|].
    - destruct Hctl as [before [after [-> [Ht' [Ha' Hbefore]]]]].
      now apply find_first_active.
    - now subst. }
  assert (Hmet : isSectionVisible blocks owner c' = true <-> met).
  { unfold isSectionVisible. rewrite Hfound. unfold met, condition_holds.
    destruct (c_value c') as [s|l].
    - apply strict_eq_str_true.
    - apply includes_str_true. }
  assert (Hactive : sectionIsActive blocks owner
                      (BLOCK_DEFINITIONS (b_type owner)) (secId', state') = true
                    <-> switched_on /\ met).
  { unfold sectionIsActive. cbn [fst snd]. rewrite Hdef', Hcond'.
    unfold switched_on. rewrite <- Hmet.
    destruct (toggleable secDef'); cbn [andb].
    - destruct (truthy_opt (enabled state')); cbn [negb].
      + split; [intro H; split; [now right|exact H]|intros [_ H]; exact H].
      + split; [discriminate|]. intros [[H|H] _]; discriminate.
    - split; [intro H; split; [now left|exact H]|intros [_ H]; exact H]. }
  split; [exact Hmet|]. split; [exact Hactive|].
  unfold activeSections. rewrite filter_In, Hactive. reflexivity.
Qed.

Lemma section_visibility_fails_closed_witness :
  ~ In "emotion" (obj_keys (activeSections [ex_background; ex_mood] ex_mood))
  /\ renderBlock [ex_background; ex_mood] "1:1"
       (set_section ex_mood "emotion"
          (mkSectionState None [("primary", VStr "Sad"); ("intensity", VNum 10)]))
     = renderBlock [ex_background; ex_mood] "1:1" ex_mood
  /\ In ("emotion",
         mkSectionState None [("primary", VStr "Happy"); ("intensity", VNum 90)])
        (activeSections ex_scene ex_mood).
Proof.
  assert (Hnone : forall b, In b [ex_background; ex_mood] ->
                            b_type b = SUBJECT -> isActive b = false).
  { intros b [<-|[<-|[]]]; discriminate. }
  pose proof (@section_visibility_fails_closed
                [ex_background; ex_mood] ex_mood "emotion"
                (mkSection "emotion" "Emotion" false
                   (Some (mkCondition (Some SUBJECT) "core" "category"
                            (CondSet human_like)))
                   [ mkField "primary" "Feeling" FText (VStr "");
                     mkField "intensity" "Intensity" FSlider (VNum 50) ])
                (mkCondition (Some SUBJECT) "core" "category" (CondSet human_like))
                SUBJECT "1:1" eq_refl eq_refl eq_refl Hnone) as H.
  destruct H as [_ [_ [H3 [H4 [H5 _]]]]].
  split; [exact H3|]. split; [apply H4|].
  refine (proj2 (proj2 (proj2
            (H5 ex_scene ex_mood ex_subject "emotion"
                (mkSectionState None
                   [("primary", VStr "Happy"); ("intensity", VNum 90)])
                (mkSection "emotion" "Emotion" false
                   (Some (mkCondition (Some SUBJECT) "core" "category"
                            (CondSet human_like)))
                   [ mkField "primary" "Feeling" FText (VStr "");
                     mkField "intensity" "Intensity" FSlider (VNum 50) ])
                (mkCondition (Some SUBJECT) "core" "category"
                   (CondSet human_like))
                eq_refl eq_refl _))) _).
  - exists [], [ex_background; ex_mood]. repeat split.
    intros b [].
  - split; [left; reflexivity|]. split; [now left|].
    exists "Human". split; [now left|reflexivity].
Defined.

(** ** C6 and C10: the import normalizer *)

Lemma distinctb_NoDup (l : list string) : distinctb l = true -> NoDup l.
Proof.
  induction l as [|x l IH]; simpl; intro H.
  - constructor.
  - apply andb_true_iff in H. destruct H as [Hx Hl]. constructor.
    + intro Hin. apply negb_true_iff in Hx.
      assert (existsb (String.eqb x) l = true).
      { apply existsb_exists. exists x. split; [exact Hin|apply String.eqb_refl]. }
      congruence.
    + now apply IH.
Qed.

(** The ids of the schema are distinct, section by section and field by
    field. *)
Lemma schema_ids_distinct (t : BlockType) :
  NoDup (map s_id (sections (BLOCK_DEFINITIONS t)))
  /\ Forall (fun sd => NoDup (map f_id (fields sd)))
            (sections (BLOCK_DEFINITIONS t)).
Proof.
  split.
  - apply distinctb_NoDup. now destruct t.
  - assert (H : forallb (fun sd => distinctb (map f_id (fields sd)))
                        (sections (BLOCK_DEFINITIONS t)) = true)
      by now destruct t.
    rewrite forallb_forall in H. apply Forall_forall.
    intros sd Hin. apply distinctb_NoDup, H, Hin.
Qed.

Lemma safe_section_fields (rb : jsval) (sd : BlockSectionDefinition) :
  NoDup (map f_id (fields sd)) ->
  safe_section rb sd
  = mkSectionState
      (if toggleable sd
       then Some (nullish (incoming_enabled rb (s_id sd)) (VBool false))
       else None)
      (map (fun f => (f_id f,
                      nullish (incoming_field rb (s_id sd) (f_id f))
                              (defaultValue f)))
           (fields sd)).
Proof.
  intro Hnd. unfold safe_section. f_equal.
  apply (fold_obj_set_distinct f_id
           (fun f => nullish (incoming_field rb (s_id sd) (f_id f))
                             (defaultValue f))
           (fields sd) []).
  exact Hnd.
Qed.

(** The sections the normalizer builds are the schema's, in the schema's
    order, each with the schema's fields. *)
Lemma safe_sections_normalized (rb : jsval) (t : BlockType) :
  safe_sections rb (BLOCK_DEFINITIONS t) = normalized_sections rb t.
Proof.
  destruct (schema_ids_distinct t) as [Hs Hf].
  unfold safe_sections, normalized_sections.
  rewrite (fold_obj_set_distinct s_id (safe_section rb)
             (sections (BLOCK_DEFINITIONS t)) []) by exact Hs.
  simpl. apply map_ext_in. intros sd Hin. f_equal.
  apply safe_section_fields.
  rewrite Forall_forall in Hf. now apply Hf.
Qed.

Lemma BlockType_of_string_value (t : BlockType) :
  BlockType_of_string (BlockType_value t) = Some t.
Proof. now destruct t. Qed.

Lemma BlockType_of_string_some (s : string) (t : BlockType) :
  BlockType_of_string s = Some t -> s = BlockType_value t.
Proof.
  unfold BlockType_of_string. intro H. apply find_some in H.
  destruct H as [_ H]. apply String.eqb_eq in H. now subst.
Qed.

(** One element, when its conversion does not throw: dropped unless its
    type is recognized, and then rebuilt from the schema and active. *)
Lemma parse_one_spec (now : Z) (idx : nat) (rb : jsval)
    (r : option BlockState) :
  parse_one now idx rb = Some r ->
  match recognized_type rb with
  | None => r = None
  | Some t =>
      exists id, r = Some (mkBlock id t None true (normalized_sections rb t)
                                   None None None)
  end.
Proof.
  unfold parse_one, recognized_type.
  destruct rb as [| b | n | s | l | o]; simpl; try discriminate;
    try (intro H; injection H as <-; reflexivity).
  destruct (obj_get o "type") as [ty|] eqn:Hty; simpl.
  - destruct (ToString ty) as [key|] eqn:Hkey; simpl; [|discriminate].
    destruct (BLOCK_DEFINITIONS_at key) as [def| |] eqn:Hat; simpl;
      try discriminate.
    + destruct (match obj_get o "id" with
                | Some v => _ | None => _ end) as [id|]; simpl; [|discriminate].
      intro H. injection H as <-.
      destruct ty as [| b | n | s | l | o']; try reflexivity.
      destruct (BlockType_of_string s) as [t|] eqn:Hs; [|reflexivity].
      exists id. simpl in Hkey. injection Hkey as <-.
      unfold BLOCK_DEFINITIONS_at in Hat.
      rewrite Hs in Hat. injection Hat as <-.
      now rewrite safe_sections_normalized.
    + destruct (match obj_get o "id" with
                | Some v => _ | None => _ end) as [id|]; simpl; [|discriminate].
      intro H. injection H as <-.
      destruct ty as [| b | n | s | l | o']; try reflexivity.
      simpl in Hkey. injection Hkey as <-.
      unfold BLOCK_DEFINITIONS_at in Hat.
      destruct (BlockType_of_string s); [discriminate|reflexivity].
  - destruct (match obj_get o "id" with
              | Some v => _ | None => _ end) as [id|]; simpl; [|discriminate].
    intro H. now injection H as <-.
Qed.

Lemma parse_one_total (now : Z) (idx : nat) (rb : jsval) :
  well_shaped rb = true -> exists r, parse_one now idx rb = Some r.
Proof.
  unfold well_shaped, parse_one.
  destruct rb as [| b | n | s | l | o]; simpl; try discriminate;
    try (intros _; eexists; reflexivity).
  intro H. apply andb_true_iff in H. destruct H as [Hty Hid].
  assert (Hidok : forall (k : string -> option (option BlockState)),
             (forall i, exists r, k i = Some r) ->
             exists r,
               bind (match obj_get o "id" with
                     | Some v =>
                         if truthy v
                         then match v with
                              | VStr s =>
                                  Some (if String.prefix "b-" s then s
                                        else "generated-" ++ string_of_Z now
                                               ++ "-" ++ string_of_nat idx)
                              | _ => None
                              end
                         else Some ("generated-" ++ string_of_Z now ++ "-"
                                      ++ string_of_nat idx)
                     | None => Some ("generated-" ++ string_of_Z now ++ "-"
                                       ++ string_of_nat idx)
                     end) k = Some r).
  { intros k Hk. destruct (obj_get o "id") as [v|]; [|apply Hk].
    destruct (truthy v); simpl in *; [|apply Hk].
    destruct v; try discriminate. apply Hk. }
  destruct (obj_get o "type") as [[| b | n | s | l | o']|];
    try discriminate Hty; simpl.
  - apply Hidok. intro i. now eexists.
  - destruct b; simpl; apply Hidok; intro i; now eexists.
  - destruct (BLOCK_DEFINITIONS_at s); try discriminate Hty; simpl;
      apply Hidok; intro i; now eexists.
  - apply Hidok. intro i. now eexists.
Qed.

Lemma parse_from_total (now : nat -> Z) (raw : list jsval) (idx : nat) :
  forallb well_shaped raw = true -> exists rs, parse_from now idx raw = Some rs.
Proof.
  revert idx. induction raw as [|rb raw IH]; simpl; intros idx H.
  - now exists [].
  - apply andb_true_iff in H. destruct H as [Hrb Hraw].
    destruct (parse_one_total (now idx) idx rb Hrb) as [r ->].
    destruct (IH (S idx) Hraw) as [rs ->]. simpl. now eexists.
Qed.

(** The blocks kept, one for each element of a recognized type, in order. *)
Lemma parse_from_spec (now : nat -> Z) (raw : list jsval) (idx : nat)
    (rs : list (option BlockState)) :
  parse_from now idx raw = Some rs ->
  Forall2 (fun rb b => recognized_type rb = Some (b_type b)
                       /\ isActive b = true
                       /\ customLabel b = None /\ customValues b = None
                       /\ b_sections b = normalized_sections rb (b_type b))
          (filter (fun rb => match recognized_type rb with
                             | Some _ => true | None => false end) raw)
          (keep_some rs).
Proof.
  revert idx rs. induction raw as [|rb raw IH]; simpl; intros idx rs H.
  - injection H as <-. constructor.
  - destruct (parse_one (now idx) idx rb) as [r|] eqn:Hr; simpl in H;
      [|discriminate].
    destruct (parse_from now (S idx) raw) as [rs'|] eqn:Hrs; simpl in H;
      [|discriminate].
    injection H as <-. apply parse_one_spec in Hr.
    destruct (recognized_type rb) as [t|] eqn:Hrec.
    + destruct Hr as [id ->]. simpl. constructor.
      * simpl. now repeat split.
      * now apply (IH (S idx)).
    + subst r. simpl. now apply (IH (S idx)).
Qed.

Lemma obj_get_map_distinct {A B : Type} (key : B -> string) (val : B -> A)
    (l : list B) (x : B) :
  NoDup (map key l) -> In x l ->
  obj_get (map (fun y => (key y, val y)) l) (key x) = Some (val x).
Proof.
  induction l as [|y l IH]; simpl; intros Hnd Hin; [contradiction|].
  apply NoDup_cons_iff in Hnd. destruct Hnd as [Hy Hnd].
  destruct Hin as [->|Hin].
  - now rewrite String.eqb_refl.
  - destruct (String.eqb_spec (key y) (key x)) as [E|E].
    + exfalso. apply Hy. rewrite E. now apply in_map.
    + now apply IH.
Qed.

Lemma normalized_sections_complete (rb : jsval) (t : BlockType) :
  obj_keys (normalized_sections rb t) = map s_id (sections (BLOCK_DEFINITIONS t))
  /\ forall sd, In sd (sections (BLOCK_DEFINITIONS t)) ->
       exists st, obj_get (normalized_sections rb t) (s_id sd) = Some st
                  /\ obj_keys (st_fields st) = map f_id (fields sd).
Proof.
  unfold normalized_sections, obj_keys. split.
  - rewrite map_map. reflexivity.
  - intros sd Hin. eexists. split.
    + apply (obj_get_map_distinct s_id
               (fun sd => mkSectionState _ _) (sections (BLOCK_DEFINITIONS t)));
        [apply schema_ids_distinct|exact Hin].
    + simpl. rewrite map_map. reflexivity.
Qed.

Lemma Forall2_right {A B : Type} (R : A -> B -> Prop) (Q : B -> Prop)
    (l1 : list A) (l2 : list B) :
  Forall2 R l1 l2 -> (forall a b, R a b -> Q b) -> Forall Q l2.
Proof.
  intros H HQ. induction H; constructor; eauto.
Qed.

Lemma kept_types (raw : list jsval) (result : list BlockState)
    (P : jsval -> BlockState -> Prop) :
  Forall2 (fun rb b => recognized_type rb = Some (b_type b) /\ P rb b)
          (filter (fun rb => match recognized_type rb with
                             | Some _ => true | None => false end) raw)
          result ->
  map b_type result = keep_some (map recognized_type raw).
Proof.
  revert result. induction raw as [|rb raw IH]; simpl; intros result H.
  - inversion H. reflexivity.
  - destruct (recognized_type rb) as [t|] eqn:Hrec.
    + inversion H as [|rb' b raw' result' [Hb _] Hrest]; subst. simpl.
      rewrite Hrec in Hb. injection Hb as ->. f_equal. now apply IH.
    + now apply IH.
Qed.

(** [confirmAddTo] appends a copy of the block to the target file; the
    copy has the sections of the block. *)
Lemma confirmAddTo_copies {Rest : Type} (files : list (StarryFile Rest))
    (targetFileId : string) (sourcePreviewForAdd : option string)
    (block : BlockState) (now : Z) (f : StarryFile Rest) :
  nonempty targetFileId = true -> In f files -> sf_id f = targetFileId ->
  exists f' others copy,
    In f' (confirmAddTo files targetFileId sourcePreviewForAdd block now)
    /\ sf_id f' = targetFileId
    /\ sf_blocks f' = (others ++ [copy])%list
    /\ b_type copy = b_type block
    /\ b_sections copy = b_sections block.
Proof.
  intros Hne Hin Hid. unfold confirmAddTo. rewrite Hne. cbn [negb].
  eexists. do 2 eexists. split.
  - apply in_map_iff. exists f. split; [|exact Hin].
    rewrite Hid, String.eqb_refl. reflexivity.
  - cbn [sf_id sf_blocks]. unfold push. split; [reflexivity|].
    split; [reflexivity|]. split; reflexivity.
Qed.

(** The claim as worded fails where it has a mistyped value replaced by the
    default, and where it has a block of the library normalized.  The
    number given for the select field [category] of a Subject is kept by
    the normalizer, and the default "Human" is not substituted.  A block
    taken from the library, by [addBlockFromLibrary] or by [confirmAddTo],
    keeps its sections as they are: the one section of the library block,
    with the number, where the schema has more sections. *)
Lemma import_keeps_mistyped_value :
  (exists sd f, find_section (BLOCK_DEFINITIONS SUBJECT) "core" = Some sd
                /\ find_field sd "category" = Some f
                /\ f_type f = FSelect /\ defaultValue f = VStr "Human")
  /\ option_map (map (fun b => (b_type b, section_field b "core" "category")))
                (parseRawBlocksToState (fun _ => 0%Z) [ex_raw_mistyped])
     = Some [(SUBJECT, Some (VNum 42))]
  /\ (1 < List.length (sections (BLOCK_DEFINITIONS SUBJECT)))%nat
  /\ option_map lc_sections
                (addBlockFromLibrary_newBlock ex_library_mistyped None 0)
     = Some [("core", mkSectionState None [("category", VNum 42)])]
  /\ map (fun f => map b_sections (sf_blocks f))
         (confirmAddTo [mkFile "f1" "Alley" None [] tt] "f1" None
                       ex_library_mistyped 0)
     = [[[("core", mkSectionState None [("category", VNum 42)])]]].
Proof.
  split; [do 2 eexists; repeat split; reflexivity|].
  split; [reflexivity|].
  split; [vm_compute; lia|].
  split; reflexivity.
Qed.

(** C6, amended.  Import of the model's output: whenever the normalizer
    returns, its result holds one block for each incoming element whose type
    is one of the schema's type strings, in order, and no block for any
    other element.  The sections of each block are the sections of the
    schema for its type, in order, each with exactly the fields of the
    schema; a field holds the incoming value when one is present and not
    null, whatever the type of that value, and the schema default
    otherwise; a toggleable section is enabled by the incoming member, or
    off.  On well-shaped input the normalizer does return.  Import from the
    library: the block [addBlockFromLibrary] inserts and the block
    [confirmAddTo] appends to the target file have the type and the
    sections of the library block, as they are. *)
Theorem import_normalizes_against_schema
    (now : nat -> Z) (rawBlocks : list jsval) (result : list BlockState)
    (Hparse : parseRawBlocksToState now rawBlocks = Some result) :
  Forall2 (fun rb b => recognized_type rb = Some (b_type b)
                       /\ b_sections b = normalized_sections rb (b_type b))
          (filter (fun rb => match recognized_type rb with
                             | Some _ => true | None => false end) rawBlocks)
          result
  /\ Forall (fun b =>
       obj_keys (b_sections b) = map s_id (sections (BLOCK_DEFINITIONS (b_type b)))
       /\ forall sd, In sd (sections (BLOCK_DEFINITIONS (b_type b))) ->
            exists st, obj_get (b_sections b) (s_id sd) = Some st
                       /\ obj_keys (st_fields st) = map f_id (fields sd))
       result
  /\ map b_type result = keep_some (map recognized_type rawBlocks)
  /\ (forall raw', forallb well_shaped raw' = true ->
                   exists result', parseRawBlocksToState now raw' = Some result')
  /\ (forall libraryBlock sourcePreview stamp newBlock,
        addBlockFromLibrary_newBlock libraryBlock sourcePreview stamp
        = Some newBlock ->
        lc_type newBlock = b_type libraryBlock
        /\ lc_sections newBlock = b_sections libraryBlock)
  /\ (forall (Rest : Type) (files : list (StarryFile Rest)) targetFileId
             sourcePreviewForAdd block stamp f,
        nonempty targetFileId = true -> In f files ->
        sf_id f = targetFileId ->
        exists f' others copy,
          In f' (confirmAddTo files targetFileId sourcePreviewForAdd block
                              stamp)
          /\ sf_id f' = targetFileId
          /\ sf_blocks f' = (others ++ [copy])%list
          /\ b_type copy = b_type block
          /\ b_sections copy = b_sections block).
Proof.
  unfold parseRawBlocksToState in Hparse.
  destruct (parse_from now 0 rawBlocks) as [rs|] eqn:Hrs; [|discriminate].
  injection Hparse as <-. apply parse_from_spec in Hrs.
  split.
  { eapply Forall2_impl; [|exact Hrs]. simpl. intros rb b H.
    split; apply H. }
  split.
  { eapply Forall2_right; [exact Hrs|]. simpl.
    intros rb b [_ [_ [_ [_ ->]]]]. apply normalized_sections_complete. }
  split.
  { eapply kept_types. exact Hrs. }
  split.
  { intros raw' Hraw'. unfold parseRawBlocksToState.
    destruct (parse_from_total now raw' 0 Hraw') as [rs' ->]. now eexists. }
  split.
  { intros libraryBlock sourcePreview stamp newBlock H.
    unfold addBlockFromLibrary_newBlock in H.
    destruct (getSmartLabel libraryBlock); [|discriminate H].
    simpl in H. injection H as <-. now split. }
  intros Rest files targetFileId sourcePreviewForAdd block stamp f.
  apply confirmAddTo_copies.
Qed.

Lemma import_normalizes_against_schema_witness :
  exists result,
    parseRawBlocksToState (fun _ => 0%Z) ex_raw_two_backgrounds = Some result
    /\ map b_type result
       = keep_some (map recognized_type ex_raw_two_backgrounds).
Proof.
  eexists. split; [vm_compute; reflexivity|].
  refine (proj1 (proj2 (proj2
            (@import_normalizes_against_schema
               (fun _ => 0%Z) ex_raw_two_backgrounds _ _)))).
  vm_compute; reflexivity.
Defined.




(** ** C7: dragging an overlay *)

Module LabsFacts.
Import Labs.
Local Open Scope Q_scope.

(** The pointer position after a run of incremental moves. *)
Lemma positions_snoc (p : Q * Q) (ds : list (Q * Q)) (d : Q * Q) :
  positions p (ds ++ [d])
  = (positions p ds
     ++ [(fst (last_position p ds) + fst d, snd (last_position p ds) + snd d)])%list.
Proof.
  revert p. induction ds as [|d' ds IH]; intro p; simpl.
  - reflexivity.
  - now rewrite IH.
Qed.

Lemma last_position_sum (p : Q * Q) (ds : list (Q * Q)) :
  fst (last_position p ds) == fst p + sum_fst ds
  /\ snd (last_position p ds) == snd p + sum_snd ds.
Proof.
  revert p. induction ds as [|d ds IH]; intro p; simpl.
  - split; ring.
  - destruct (IH (fst p + fst d, snd p + snd d)) as [H1 H2]. simpl in *.
    rewrite H1, H2. split; ring.
Qed.

Lemma sum_snoc (ds : list (Q * Q)) (d : Q * Q) :
  sum_fst (ds ++ [d]) == sum_fst ds + fst d
  /\ sum_snd (ds ++ [d]) == sum_snd ds + snd d.
Proof.
  induction ds as [|d' ds [IH1 IH2]]; simpl.
  - split; ring.
  - rewrite IH1, IH2. split; ring.
Qed.

Lemma dragged_refl (mode : DragMode) (initial o : TextOverlay) :
  dragged mode initial o o.
Proof.
  unfold dragged. destruct (String.eqb (o_id o) (o_id initial)); [|reflexivity].
  destruct mode; [exists (o_size o)|exists (o_x o), (o_y o)|exists (o_size o)];
    now destruct o.
Qed.

Lemma dragged_trans (mode : DragMode) (initial o1 o2 o3 : TextOverlay) :
  dragged mode initial o1 o2 -> dragged mode initial o2 o3 ->
  dragged mode initial o1 o3.
Proof.
  unfold dragged.
  destruct (String.eqb (o_id o1) (o_id initial)) eqn:E1.
  - destruct mode.
    + intros [s ->]. simpl. rewrite E1. intros [s' ->]. now exists s'.
    + intros [x [y ->]]. simpl. rewrite E1. intros [x' [y' ->]].
      now exists x', y'.
    + intros [s ->]. simpl. rewrite E1. intros [s' ->]. now exists s'.
  - intros ->. now rewrite E1.
Qed.

(** One pointer-move during a drag. *)
Lemma handlePointerMove_dragging (c : Canvas) (initial : TextOverlay)
    (e : PointerEvent) :
  dragMode c <> DragNone -> initialOverlayState c = Some initial ->
  let dX := clientX e - fst (dragStart c) in
  let dY := clientY e - snd (dragStart c) in
  handlePointerMove c e
  = mkCanvas
      (map (fun o =>
              if String.eqb (o_id o) (o_id initial) then
                match dragMode c with
                | DragMove =>
                    set_xy o
                      (Qmax 0 (Qmin 100 (o_x initial + dX / rectWidth e * 100)))
                      (Qmax 0 (Qmin 100 (o_y initial + dY / rectHeight e * 100)))
                | _ =>
                    set_size o
                      (Qmax 10 (Qmin 300 (o_size initial + (dX + dY) / 2 * (1 # 2))))
                end
              else o) (overlays c))
      (selectedId c) (dragMode c) (dragStart c) (initialOverlayState c).
Proof.
  intros Hmode Hinit. unfold handlePointerMove. rewrite Hinit.
  destruct (dragMode c) eqn:Hm; [contradiction| |]; simpl; f_equal;
    apply map_ext; intro o; now destruct (String.eqb _ _).
Qed.

(** A run of pointer-moves keeps the drag state and touches the dragged
    overlay only. *)
Lemma move_through_dragged (w h : Q) (ps : list (Q * Q)) (c : Canvas)
    (initial : TextOverlay) :
  dragMode c <> DragNone -> initialOverlayState c = Some initial ->
  let c' := move_through w h c ps in
  dragMode c' = dragMode c /\ initialOverlayState c' = Some initial
  /\ dragStart c' = dragStart c /\ selectedId c' = selectedId c
  /\ Forall2 (dragged (dragMode c) initial) (overlays c) (overlays c').
Proof.
  revert c. induction ps as [|p ps IH]; intros c Hmode Hinit; simpl.
  - repeat split; try assumption.
    induction (overlays c); constructor; [apply dragged_refl|assumption].
  - set (e := mkPointer (fst p) (snd p) w h).
    pose proof (handlePointerMove_dragging c e Hmode Hinit) as Hstep.
    cbv zeta in Hstep.
    assert (Hm1 : dragMode (handlePointerMove c e) = dragMode c)
      by now rewrite Hstep.
    assert (Hi1 : initialOverlayState (handlePointerMove c e) = Some initial)
      by now rewrite Hstep.
    destruct (IH (handlePointerMove c e)) as [H1 [H2 [H3 [H4 H5]]]].
    { now rewrite Hm1. }
    { exact Hi1. }
    unfold move_through in *. simpl.
    rewrite H1, H2, H3, H4, Hm1. rewrite Hm1 in H5.
    split; [reflexivity|]. split; [reflexivity|].
    split; [now rewrite Hstep|]. split; [now rewrite Hstep|].
    clear IH H1 H2 H3 H4.
    revert H5. generalize (overlays (fold_left
      (fun c0 p0 => handlePointerMove c0 (mkPointer (fst p0) (snd p0) w h))
      ps (handlePointerMove c e))).
    rewrite Hstep. simpl. clear Hstep.
    induction (overlays c) as [|o os IHo]; intros l H; inversion H; subst.
    + constructor.
    + constructor; [|now apply IHo].
      eapply dragged_trans; [|eassumption].
      unfold dragged. destruct (String.eqb (o_id o) (o_id initial)).
      * destruct (dragMode c); eexists; try eexists; reflexivity.
      * reflexivity.
Qed.

Lemma clamp_bounds (lo hi x : Q) :
  lo <= hi -> lo <= Qmax lo (Qmin hi x) /\ Qmax lo (Qmin hi x) <= hi.
Proof.
  intro H. split.
  - apply Q.le_max_l.
  - apply Q.max_lub; [exact H|apply Q.le_min_l].
Qed.

Lemma clamp_compat (lo hi x y : Q) :
  x == y -> Qmax lo (Qmin hi x) == Qmax lo (Qmin hi y).
Proof.
  intro H. apply Q.max_compat; [reflexivity|].
  apply Q.min_compat; [reflexivity|exact H].
Qed.

Lemma percent_compat (i a b w : Q) : a == b -> i + a / w * 100 == i + b / w * 100.
Proof. intro H. now rewrite H. Qed.

Lemma resize_compat (i a b a' b' : Q) :
  a == a' -> b == b' ->
  i + (a + b) / 2 * (1 # 2) == i + (a' + b') / 2 * (1 # 2).
Proof. intros Ha Hb. now rewrite Ha, Hb. Qed.

(** C7.  While a drag that began at pointer-down is under way, after any
    run of incremental pointer-moves the dragged overlay stands at its
    drag-start position plus the total pointer delta as a percentage of the
    canvas rectangle, each coordinate clamped to [0, 100]; in a resize drag
    its size is the drag-start size plus (dx + dy) / 2 * 0.5 of the total
    delta, clamped to [10, 300]; nothing else of it changes, and every
    other overlay is as it was. *)
Theorem drag_reaches_clamped_start_plus_total_delta
    (c : Canvas) (initial : TextOverlay) (w h : Q) (deltas : list (Q * Q))
    (Hw : ~ w == 0) (Hh : ~ h == 0)
    (Hmode : dragMode c <> DragNone)
    (Hinit : initialOverlayState c = Some initial)
    (Hmoves : deltas <> []) :
  let c' := move_through w h c (positions (dragStart c) deltas) in
  let dx := sum_fst deltas in
  let dy := sum_snd deltas in
  Forall2
    (fun o o' =>
       if String.eqb (o_id o) (o_id initial) then
         match dragMode c with
         | DragMove =>
             o_x o' == Qmax 0 (Qmin 100 (o_x initial + dx / w * 100))
             /\ o_y o' == Qmax 0 (Qmin 100 (o_y initial + dy / h * 100))
             /\ o' = set_xy o (o_x o') (o_y o')
             /\ 0 <= o_x o' <= 100 /\ 0 <= o_y o' <= 100
         | _ =>
             o_size o'
             == Qmax 10 (Qmin 300 (o_size initial + (dx + dy) / 2 * (1 # 2)))
             /\ o' = set_size o (o_size o')
             /\ 10 <= o_size o' <= 300
         end
       else o' = o)
    (overlays c) (overlays c')
  /\ dragMode c' = dragMode c
  /\ initialOverlayState c' = Some initial
  /\ dragStart c' = dragStart c.
Proof.
  intros c' dx dy.
  destruct (exists_last Hmoves) as [ds [d Hds]].
  subst c'. rewrite Hds, positions_snoc.
  unfold move_through. rewrite fold_left_app. simpl.
  fold (move_through w h c (positions (dragStart c) ds)).
  destruct (move_through_dragged w h (positions (dragStart c) ds) c
              Hmode Hinit) as [H1 [H2 [H3 [H4 H5]]]].
  set (c1 := move_through w h c (positions (dragStart c) ds)) in *.
  set (e := mkPointer _ _ w h).
  assert (Hm1 : dragMode c1 <> DragNone) by now rewrite H1.
  rewrite (handlePointerMove_dragging c1 e Hm1 H2). simpl.
  rewrite H1, H3.
  split; [|now repeat split].
  destruct (last_position_sum (dragStart c) ds) as [Lx Ly].
  destruct (sum_snoc ds d) as [Sx Sy].
  assert (Ex : fst (last_position (dragStart c) ds) + fst d - fst (dragStart c)
               == dx).
  { unfold dx. rewrite Hds, Sx, Lx. ring. }
  assert (Ey : snd (last_position (dragStart c) ds) + snd d - snd (dragStart c)
               == dy).
  { unfold dy. rewrite Hds, Sy, Ly. ring. }
  clearbody dx dy. clear Lx Ly Sx Sy Hds.
  revert H5. generalize (overlays c1).
  induction (overlays c) as [|o os IH]; intros l H; inversion H; subst; simpl.
  - constructor.
  - constructor; [|now apply IH].
    match goal with Hd : dragged _ _ o ?y |- _ => rename Hd into Hdrag end.
    unfold dragged in Hdrag.
    destruct (String.eqb (o_id o) (o_id initial)) eqn:Eid.
    + destruct (dragMode c).
      * contradiction.
      * destruct Hdrag as [x0 [y0 ->]]. simpl. rewrite Eid. simpl.
        split; [apply clamp_compat, percent_compat, Ex|].
        split; [apply clamp_compat, percent_compat, Ey|].
        split; [reflexivity|].
        split; apply clamp_bounds; discriminate.
      * destruct Hdrag as [s0 ->]. simpl. rewrite Eid. simpl.
        split; [apply clamp_compat, resize_compat; [exact Ex|exact Ey]|].
        split; [reflexivity|].
        apply clamp_bounds; discriminate.
    + subst. now rewrite Eid.
Qed.

Lemma drag_reaches_clamped_start_plus_total_delta_witness :
  exists o',
    overlays (move_through 1000 500 ex_canvas
                (positions (dragStart ex_canvas) ex_deltas))
    = [o'; ex_other_overlay]
    /\ o_x o' == 60 /\ o_y o' == 55.
Proof.
  assert (Hw : ~ 1000 == 0) by discriminate.
  assert (Hh : ~ 500 == 0) by discriminate.
  assert (Hmode : dragMode ex_canvas <> DragNone) by discriminate.
  assert (Hmoves : ex_deltas <> []) by discriminate.
  destruct (@drag_reaches_clamped_start_plus_total_delta
              ex_canvas ex_overlay 1000 500 ex_deltas Hw Hh Hmode eq_refl Hmoves)
    as [H _].
  change (overlays ex_canvas) with [ex_overlay; ex_other_overlay] in H.
  inversion H as [|? o1 ? l1 Ho Hos]. subst.
  inversion Hos as [|? o2 ? l2 Ho2 Hos2]. subst.
  inversion Hos2. subst.
  simpl in Ho. destruct Ho as [Hx [Hy _]].
  eexists. split; [reflexivity|]. split.
  - eapply Qeq_trans; [exact Hx|reflexivity].
  - eapply Qeq_trans; [exact Hy|reflexivity].
Defined.

End LabsFacts.

(** ** C9: the grain stage *)

Module GrainFacts.
Import Labs.

Lemma pixel_at_next (r g b a : Z) (rest : list Z) (i : nat) :
  pixel_at (r :: g :: b :: a :: rest) (S i) = pixel_at rest i.
Proof.
  unfold pixel_at.
  replace (4 * S i)%nat with (S (S (S (S (4 * i)))))%nat by lia.
  reflexivity.
Qed.

Lemma pixel_at_short (data : list Z) (i : nat) (px : Z * Z * Z * Z) :
  pixel_at data (S i) = Some px ->
  exists r g b a rest, data = r :: g :: b :: a :: rest.
Proof.
  unfold pixel_at.
  replace (4 * S i)%nat with (S (S (S (S (4 * i)))))%nat by lia.
  destruct data as [|r [|g [|b [|a rest]]]]; simpl; try discriminate.
  intros _. now exists r, g, b, a, rest.
Qed.

(** The loop, pixel by pixel: a pixel that is not fully transparent gets
    the noise of one draw on its three colour channels, the draw being the
    next one after those of the earlier such pixels. *)
Lemma grain_loop_pixel (grain : float) (rand : nat -> float) (i : nat) :
  forall (k : nat) (data : list Z) (r g b a : Z),
  pixel_at data i = Some (r, g, b, a) ->
  pixel_at (grain_loop grain rand k data) i
  = Some (if (a =? 0)%Z then (r, g, b, a)
          else
            let noise :=
              grain_noise grain (rand (k + opaque_before data i)%nat) in
            (ToUint8Clamp (byte_to_float r + noise)%float,
             ToUint8Clamp (byte_to_float g + noise)%float,
             ToUint8Clamp (byte_to_float b + noise)%float, a)).
Proof.
  induction i as [|i IH]; intros k data r g b a Hpx.
  - unfold pixel_at in Hpx. simpl in Hpx.
    destruct data as [|r' [|g' [|b' [|a' rest]]]]; try discriminate.
    injection Hpx as -> -> -> ->. cbn [grain_loop opaque_before].
    rewrite Nat.add_0_r. now destruct (a =? 0)%Z.
  - destruct (pixel_at_short data i Hpx) as [r' [g' [b' [a' [rest ->]]]]].
    rewrite pixel_at_next in Hpx. cbn [grain_loop opaque_before].
    destruct (a' =? 0)%Z; rewrite pixel_at_next, (IH _ _ _ _ _ _ Hpx).
    + reflexivity.
    + now replace (S k + opaque_before rest i)%nat
        with (k + (1 + opaque_before rest i))%nat by lia.
Qed.

Lemma grain_loop_length (grain : float) (rand : nat -> float)
    (data : list Z) :
  forall k, List.length (grain_loop grain rand k data) = List.length data.
Proof.
  assert (H : forall n data, (List.length data <= n)%nat ->
              forall k, List.length (grain_loop grain rand k data)
                        = List.length data).
  { induction n as [|n IH]; intros d Hn k.
    - destruct d; [reflexivity|simpl in Hn; lia].
    - destruct d as [|r [|g [|b [|a rest]]]]; try reflexivity.
      cbn [grain_loop].
      destruct (a =? 0)%Z; cbn [List.length]; rewrite IH; try reflexivity;
        simpl in Hn; lia. }
  intro k. now apply (H (List.length data)).
Qed.

(** The claim as worded fails on the scale and on the draws: at grain 100
    the factor is 51 and the code moves each channel of the first pixel by
    13, all three by the noise of the same draw, where noise scaled by
    100 / 255 * 0.2 would leave the stored bytes as they are. *)
Lemma grain_noise_is_wider_and_shared :
  grain_stage 100 ex_rand ex_data
  = [113; 113; 113; 255;  7; 8; 9; 0;  87; 87; 87; 128]%Z
  /\ spec_grain_stage 100 ex_rand ex_data = ex_data
  /\ grain_stage 100 ex_rand ex_data <> spec_grain_stage 100 ex_rand ex_data
  /\ PrimFloat.eqb (grain_factor 100) 51 = true
  /\ PrimFloat.ltb (100 / 255 * 0.2)%float 0.08 = true.
Proof.
  split; [vm_compute; reflexivity|].
  split; [vm_compute; reflexivity|].
  split; [vm_compute; discriminate|].
  split; vm_compute; reflexivity.
Qed.

(** C9, amended.  When grain is not greater than 0 the stage returns the
    data as they are.  When it is, the data keep their length, a fully
    transparent pixel and every alpha byte are unchanged, and each colour
    channel of a pixel that is not fully transparent is stored, clamped and
    rounded to the nearest integer, ties to even, after adding
    (r - 0.5) * factor in double precision, with factor =
    grain / 100 * 255 * 0.2 and r one draw of [Math.random()] shared by the
    three channels of the pixel: the draw that follows those of the
    earlier pixels that are not fully transparent. *)
Theorem grain_stage_perturbs_opaque_pixels
    (grain : float) (rand : nat -> float) (data : list Z) (i : nat)
    (r g b a : Z)
    (Hpx : pixel_at data i = Some (r, g, b, a)) :
  (PrimFloat.ltb 0 grain = false -> grain_stage grain rand data = data)
  /\ (PrimFloat.ltb 0 grain = true ->
      List.length (grain_stage grain rand data) = List.length data
      /\ ((a = 0)%Z -> pixel_at (grain_stage grain rand data) i
                       = Some (r, g, b, a))
      /\ ((a <> 0)%Z ->
          let draw := rand (opaque_before data i) in
          let noise := ((draw - 0.5) * ((grain / 100) * 255 * 0.2))%float in
          pixel_at (grain_stage grain rand data) i
          = Some (ToUint8Clamp (byte_to_float r + noise)%float,
                  ToUint8Clamp (byte_to_float g + noise)%float,
                  ToUint8Clamp (byte_to_float b + noise)%float, a))).
Proof.
  split.
  - intro Hle. unfold grain_stage. now rewrite Hle.
  - intro Hpos. unfold grain_stage. rewrite Hpos.
    split; [apply grain_loop_length|].
    pose proof (grain_loop_pixel grain rand i 0 data Hpx) as H.
    cbn [Nat.add] in H.
    split.
    + intros ->. exact H.
    + intros Ha. cbv zeta. apply Z.eqb_neq in Ha. rewrite Ha in H. exact H.
Qed.

Lemma grain_stage_perturbs_opaque_pixels_witness :
  pixel_at (grain_stage 100 ex_rand ex_data) 2 = Some (87, 87, 87, 128)%Z
  /\ pixel_at (grain_stage 100 ex_rand ex_data) 1 = Some (7, 8, 9, 0)%Z
  /\ pixel_at (grain_stage 100 (fun _ => ex_tie_draw) ex_data) 0
     = Some (100, 100, 100, 255)%Z.
Proof.
  split; [|split].
  - destruct (@grain_stage_perturbs_opaque_pixels
                100 ex_rand ex_data 2 100 100 100 128 eq_refl)
      as [_ H].
    destruct (H eq_refl) as [_ [_ H4]].
    assert (Ha : (128 <> 0)%Z) by discriminate.
    rewrite (H4 Ha). vm_compute. reflexivity.
  - destruct (@grain_stage_perturbs_opaque_pixels
                100 ex_rand ex_data 1 7 8 9 0 eq_refl)
      as [_ H].
    destruct (H eq_refl) as [_ [H3 _]]. exact (H3 eq_refl).
  - destruct (@grain_stage_perturbs_opaque_pixels
                100 (fun _ => ex_tie_draw) ex_data 0 100 100 100 255 eq_refl)
      as [_ H].
    destruct (H eq_refl) as [_ [_ H4]].
    assert (Ha : (255 <> 0)%Z) by discriminate.
    rewrite (H4 Ha). vm_compute. reflexivity.
Defined.

End GrainFacts.

(** ** JSON.stringify tells values apart *)

(** *** Numbers *)

Lemma span_num_app (d r : string) :
  all_num d = true -> num_tail r -> span_num (d ++ r) = (d, r).
Proof.
  intros Hd Hr. induction d as [|c d IH]; simpl.
  - destruct r as [|c r]; [reflexivity|]. simpl in *. now rewrite Hr.
  - simpl in Hd. apply andb_true_iff in Hd. destruct Hd as [Hc Hd].
    rewrite Hc, (IH Hd). reflexivity.
Qed.

Lemma string_of_uint_all_num (u : Decimal.uint) :
  all_num (NilEmpty.string_of_uint u) = true.
Proof. induction u; simpl; try reflexivity; exact IHu. Qed.

Lemma string_of_Z_all_num (z : Z) : all_num (string_of_Z z) = true.
Proof.
  unfold string_of_Z, NilZero.string_of_int, NilZero.string_of_uint.
  destruct (Z.to_int z) as [u|u]; destruct u; try reflexivity;
    apply (string_of_uint_all_num (_ _)) || (simpl; apply string_of_uint_all_num).
Qed.

Lemma to_int_not_nil (z : Z) :
  Z.to_int z <> Decimal.Pos Decimal.Nil /\ Z.to_int z <> Decimal.Neg Decimal.Nil.
Proof.
  destruct z as [|p|p]; simpl; split; try discriminate;
    intro H; injection H as H; exact (DecimalPos.Unsigned.to_uint_nonnil _ H).
Qed.

Lemma string_of_Z_inj (a b : Z) : string_of_Z a = string_of_Z b -> a = b.
Proof.
  unfold string_of_Z. intro H.
  apply (f_equal NilZero.int_of_string) in H.
  destruct (to_int_not_nil a) as [Ha1 Ha2], (to_int_not_nil b) as [Hb1 Hb2].
  rewrite !NilZero.isi in H by assumption.
  injection H as H. now apply DecimalZ.to_int_inj.
Qed.

Lemma string_of_Z_head (z : Z) :
  exists c s, string_of_Z z = String c s /\ is_num_char c = true.
Proof.
  pose proof (string_of_Z_all_num z) as H.
  destruct (string_of_Z z) as [|c s] eqn:E.
  - exfalso. unfold string_of_Z, NilZero.string_of_int,
      NilZero.string_of_uint in E.
    destruct (to_int_not_nil z) as [H1 H2].
    destruct (Z.to_int z) as [u|u]; destruct u; try discriminate;
      congruence.
  - simpl in H. apply andb_true_iff in H. now exists c, s.
Qed.

Lemma string_of_Z_delimits (a b : Z) (r r' : string) :
  num_tail r -> num_tail r' ->
  string_of_Z a ++ r = string_of_Z b ++ r' -> a = b /\ r = r'.
Proof.
  intros Hr Hr' H. apply (f_equal span_num) in H.
  rewrite !span_num_app in H
    by (try apply string_of_Z_all_num; assumption).
  injection H as H1 H2. split; [now apply string_of_Z_inj|exact H2].
Qed.

(** *** Strings *)

Lemma json_escape_cons (c : ascii) (s : string) :
  json_escape (String c s) = json_escape (String c "") ++ json_escape s.
Proof.
  cbn [json_escape]. now rewrite append_nil_r.
Qed.

Lemma unescape_head_escape (c : ascii) (x : string) :
  unescape_head (json_escape (String c "") ++ x) = Some (c, x).
Proof.
  destruct c as [[|] [|] [|] [|] [|] [|] [|] [|]]; reflexivity.
Qed.

Lemma json_escape_delimits (s : string) :
  forall s' r r',
  json_escape s ++ dquote ++ r = json_escape s' ++ dquote ++ r' ->
  s = s' /\ r = r'.
Proof.
  induction s as [|c s IH]; intros [|c' s'] r r' H.
  - simpl in H. injection H as H. now split.
  - exfalso. apply (f_equal unescape_head) in H.
    rewrite json_escape_cons, append_assoc, unescape_head_escape in H.
    discriminate H.
  - exfalso. apply (f_equal unescape_head) in H.
    rewrite json_escape_cons, append_assoc, unescape_head_escape in H.
    discriminate H.
  - rewrite (json_escape_cons c s), (json_escape_cons c' s'),
      !append_assoc in H.
    apply (f_equal unescape_head) in H.
    rewrite !unescape_head_escape in H. injection H as Hc H.
    destruct (IH _ _ _ H) as [-> ->]. now subst.
Qed.

Lemma json_quote_delimits (s s' r r' : string) :
  json_quote s ++ r = json_quote s' ++ r' -> s = s' /\ r = r'.
Proof.
  unfold json_quote. rewrite !append_assoc.
  change (dquote ++ ?x) with (String "034" x). intro H.
  cbn [append dquote] in H. injection H as H.
  fold dquote in H.
  exact (@json_escape_delimits _ _ _ _ H).
Qed.

(** *** Values *)

Lemma head_kind_num (c : ascii) (s : string) :
  is_num_char c = true -> head_kind (String c s) = Some KNum.
Proof.
  destruct c as [[|] [|] [|] [|] [|] [|] [|] [|]];
    intro H; solve [reflexivity | discriminate H].
Qed.

Lemma head_kind_stringify (v : jsval) (r : string) :
  head_kind (JSON_stringify v ++ r) = Some (kind_of v).
Proof.
  destruct v as [| [|] | n | s | l | o]; try reflexivity.
  destruct (string_of_Z_head n) as (c & s & E & Hc).
  cbn [JSON_stringify kind_of]. rewrite E. cbn [append].
  now apply head_kind_num.
Qed.

Lemma concat_cons_app (x : string) (t : list string) (y : string) :
  String.concat "," (x :: t) ++ y
  = x ++ match t with
         | [] => y
         | _ :: _ => String "," (String.concat "," t ++ y)
         end.
Proof.
  destruct t as [|x' t]; [reflexivity|].
  cbn [String.concat]. now rewrite !append_assoc.
Qed.

Section Joined.

Variable A : Type.
Variable ser : A -> string.
Variable close : ascii.
Hypothesis close_not_num : is_num_char close = false.
Hypothesis close_not_comma : close <> ","%char.
Hypothesis ser_head : forall a x, ~ starts_with close (ser a ++ x).

Lemma joined_delimits (l : list A) :
  Forall (delimits ser) l ->
  forall l' r r',
  String.concat "," (map ser l) ++ String close r
  = String.concat "," (map ser l') ++ String close r' ->
  l = l' /\ r = r'.
Proof.
  induction 1 as [|x t Hx Ht IH]; intros [|x' t'] r r' H.
  - simpl in H. injection H as H. now split.
  - exfalso. cbn [map] in H. rewrite concat_cons_app in H.
    apply (ser_head x' (match map ser t' with [] => String close r'
                        | _ :: _ => String "," (String.concat "," (map ser t')
                                                ++ String close r') end)).
    rewrite <- H. reflexivity.
  - exfalso. cbn [map] in H. rewrite concat_cons_app in H.
    apply (ser_head x (match map ser t with [] => String close r
                       | _ :: _ => String "," (String.concat "," (map ser t)
                                               ++ String close r) end)).
    rewrite H. reflexivity.
  - cbn [map] in H. rewrite !concat_cons_app in H.
    apply Hx in H.
    + destruct H as [-> H].
      destruct t as [|y t], t' as [|y' t']; cbn [map] in H.
      * injection H as H. now subst.
      * exfalso. injection H as H _. now apply close_not_comma.
      * exfalso. injection H as H _. symmetry in H. now apply close_not_comma.
      * injection H as H. destruct (IH (y' :: t') r r' H) as [E ->].
        now rewrite E.
    + destruct (map ser t); [exact close_not_num|reflexivity].
    + destruct (map ser t'); [exact close_not_num|reflexivity].
Qed.

End Joined.

Lemma entry_delimits (A : Type) (f : A -> string) (kv : string * A) :
  delimits f (snd kv) ->
  delimits (fun kv => json_quote (fst kv) ++ ":" ++ f (snd kv)) kv.
Proof.
  intros Hf [k' v'] r r' Hr Hr' H. destruct kv as [k v]. cbn [fst snd] in *.
  rewrite !append_assoc in H.
  apply json_quote_delimits in H. destruct H as [-> H].
  cbn [append] in H. injection H as H.
  destruct (Hf _ _ _ Hr Hr' H) as [-> ->]. now split.
Qed.

Lemma entry_head (A : Type) (f : A -> string) (kv : string * A) (x : string) :
  ~ starts_with "}" ((json_quote (fst kv) ++ ":" ++ f (snd kv)) ++ x).
Proof. unfold json_quote. cbn. discriminate. Qed.

Lemma stringify_object_delimits (A : Type) (f : A -> string)
    (o : list (string * A)) :
  Forall (fun kv => delimits f (snd kv)) o ->
  forall o' r r',
  stringify_object f o ++ r = stringify_object f o' ++ r' -> o = o' /\ r = r'.
Proof.
  intros Ho o' r r' H. unfold stringify_object in H.
  rewrite !append_assoc in H. cbn [append] in H. injection H as H.
  refine (@joined_delimits _ _ "}" eq_refl _ (@entry_head _ f) o _ _ _ _ H).
  - discriminate.
  - eapply Forall_impl; [|exact Ho]. intros kv. apply entry_delimits.
Qed.

Lemma value_head (v : jsval) (x : string) :
  ~ starts_with "]" (JSON_stringify v ++ x).
Proof.
  intro H. pose proof (head_kind_stringify v x) as Hk.
  destruct (JSON_stringify v ++ x) as [|c s]; [exact H|].
  simpl in H. subst c. discriminate Hk.
Qed.

Lemma stringify_array_delimits (A : Type) (ser : A -> string)
    (Hhead : forall a x, ~ starts_with "]" (ser a ++ x)) (l : list A) :
  Forall (delimits ser) l ->
  forall l' r r',
  ("[" ++ String.concat "," (map ser l) ++ "]") ++ r
  = ("[" ++ String.concat "," (map ser l') ++ "]") ++ r' -> l = l' /\ r = r'.
Proof.
  intros Hl l' r r' H.
  rewrite !append_assoc in H. cbn [append] in H. injection H as H.
  refine (@joined_delimits _ _ "]" eq_refl _ Hhead l Hl _ _ _ H).
  discriminate.
Qed.

Lemma JSON_stringify_delimits (v : jsval) : delimits JSON_stringify v.
Proof.
  induction v as [| b | n | s | l IH | o IH] using jsval_induction;
    intros v' r r' Hr Hr' H;
    pose proof (f_equal head_kind H) as Hk;
    rewrite !head_kind_stringify in Hk;
    destruct v' as [| b' | n' | s' | l' | o']; try discriminate Hk; clear Hk.
  - cbn in H. injection H as H. now split.
  - destruct b, b'; cbn in H; try discriminate H;
      injection H as H; now split.
  - cbn [JSON_stringify] in H.
    destruct (@string_of_Z_delimits _ _ _ _ Hr Hr' H) as [-> ->]. now split.
  - cbn [JSON_stringify] in H.
    destruct (@json_quote_delimits _ _ _ _ H) as [-> ->]. now split.
  - change (JSON_stringify (VArr l))
      with ("[" ++ String.concat "," (map JSON_stringify l) ++ "]") in H.
    change (JSON_stringify (VArr l'))
      with ("[" ++ String.concat "," (map JSON_stringify l') ++ "]") in H.
    destruct (@stringify_array_delimits _ _ value_head l IH _ _ _ H)
      as [-> ->].
    now split.
  - change (JSON_stringify (VObj o))
      with (stringify_object JSON_stringify o) in H.
    change (JSON_stringify (VObj o'))
      with (stringify_object JSON_stringify o') in H.
    destruct (@stringify_object_delimits _ _ o IH _ _ _ H) as [-> ->].
    now split.
Qed.

(** *** Sections, custom properties and blocks *)

Lemma append_cancel (p x y : string) : p ++ x = p ++ y -> x = y.
Proof.
  induction p as [|c p IH]; cbn [append]; intro H; [exact H|].
  injection H as H. now apply IH.
Qed.

Lemma append_nil_l (x : string) : "" ++ x = x.
Proof. reflexivity. Qed.

Ltac strip p H := apply (@append_cancel p) in H.

Ltac strip_quoted H :=
  apply json_quote_delimits in H;
  let E := fresh "E" in
  destruct H as [E H]; try discriminate E; clear E.

Lemma stringify_section_delimits (st : SectionState) :
  delimits stringify_section st.
Proof.
  intros st' r r' _ _ H. unfold stringify_section in H.
  destruct st as [e f], st' as [e' f']. cbn [enabled st_fields] in H.
  assert (Hfields : forall x x',
            stringify_object JSON_stringify f ++ "}" ++ x
            = stringify_object JSON_stringify f' ++ "}" ++ x' ->
            f = f' /\ x = x').
  { intros x x' Hx.
    apply stringify_object_delimits in Hx.
    - destruct Hx as [-> Hx]. strip "}" Hx. now split.
    - apply Forall_forall. intros kv _. apply JSON_stringify_delimits. }
  destruct e as [e|], e' as [e'|];
    rewrite !append_assoc in H; rewrite ?append_nil_l in H;
    strip "{" H; strip_quoted H; strip ":" H.
  - apply JSON_stringify_delimits in H; [|reflexivity|reflexivity].
    destruct H as [-> H]. strip "," H. strip_quoted H. strip ":" H.
    destruct (Hfields _ _ H) as [-> ->]. now split.
  - destruct (Hfields _ _ H) as [-> ->]. now split.
Qed.

Lemma stringify_sections_inj (a b : list (string * SectionState)) :
  stringify_sections a = stringify_sections b -> a = b.
Proof.
  intro H. unfold stringify_sections in H.
  rewrite <- (append_nil_r (stringify_object _ a)),
          <- (append_nil_r (stringify_object _ b)) in H.
  apply stringify_object_delimits in H; [tauto|].
  apply Forall_forall. intros kv _. apply stringify_section_delimits.
Qed.

Lemma CustomType_value_inj (t t' : CustomType) :
  CustomType_value t = CustomType_value t' -> t = t'.
Proof. destruct t, t'; intro H; try reflexivity; discriminate H. Qed.

Lemma stringify_custom_delimits (cv : CustomProperty) :
  delimits stringify_custom cv.
Proof.
  intros cv' r r' _ _ H. unfold stringify_custom in H.
  destruct cv as [i l t v], cv' as [i' l' t' v'].
  cbn [cp_id cp_label cp_type cp_value] in H.
  destruct v as [v|], v' as [v'|];
    rewrite !append_assoc in H; rewrite ?append_nil_l in H;
    strip "{" H; strip_quoted H; strip ":" H;
    apply json_quote_delimits in H; destruct H as [-> H];
    strip "," H; strip_quoted H; strip ":" H;
    apply json_quote_delimits in H; destruct H as [-> H];
    strip "," H; strip_quoted H; strip ":" H;
    apply json_quote_delimits in H; destruct H as [Ht H];
    apply CustomType_value_inj in Ht; subst t';
    try discriminate H.
  - strip "," H. strip_quoted H. strip ":" H.
    apply JSON_stringify_delimits in H; [|reflexivity|reflexivity].
    destruct H as [-> H]. strip "}" H. now subst.
  - strip "}" H. now subst.
Qed.

Lemma custom_head (cv : CustomProperty) (x : string) :
  ~ starts_with "]" (stringify_custom cv ++ x).
Proof. unfold stringify_custom. cbn. discriminate. Qed.

Lemma stringify_customValues_inj (a b : option (list CustomProperty)) :
  stringify_customValues a = stringify_customValues b -> a = b.
Proof.
  destruct a as [a|], b as [b|]; cbn [stringify_customValues option_map];
    intro H; try discriminate H; [|reflexivity].
  assert (H' : ("[" ++ String.concat "," (map stringify_custom a) ++ "]") ++ ""
               = ("[" ++ String.concat "," (map stringify_custom b) ++ "]") ++ "")
    by (rewrite !append_nil_r; exact (f_equal (fun o => match o with Some x => x | None => "" end) H)).
  clear H. rename H' into H.
  apply (@stringify_array_delimits _ _ custom_head) in H.
  - destruct H as [-> _]. reflexivity.
  - apply Forall_forall. intros cv _. apply stringify_custom_delimits.
Qed.

Lemma option_string_eqb_eq (a b : option string) :
  option_string_eqb a b = true <-> a = b.
Proof.
  destruct a as [a|], b as [b|]; cbn [option_string_eqb];
    try (split; intro H; (discriminate H || reflexivity)).
  rewrite String.eqb_eq. split; [now intros ->|now intros [= ->]].
Qed.

(** A block in both lists is a modified one exactly when one of the four
    members differs. *)
Lemma block_changed_false (b old : BlockState) :
  block_changed b old = false
  <-> b_sections b = b_sections old /\ isActive b = isActive old
      /\ customLabel b = customLabel old
      /\ customValues b = customValues old.
Proof.
  unfold block_changed. rewrite !orb_false_iff, !negb_false_iff.
  rewrite String.eqb_eq, Bool.eqb_true_iff, !option_string_eqb_eq.
  split.
  - intros [[[Hs Ha] Hl] Hc]. repeat split; try assumption.
    + now apply stringify_sections_inj.
    + now apply stringify_customValues_inj.
  - intros (-> & -> & -> & ->). repeat split; reflexivity.
Qed.

(** ** C8: the change summary *)

Lemma obj_get_set {A : Type} (m : list (string * A)) (k k' : string) (v : A) :
  obj_get (obj_set m k v) k'
  = if String.eqb k k' then Some v else obj_get m k'.
Proof.
  induction m as [|[k0 v0] m IH]; simpl.
  - reflexivity.
  - destruct (String.eqb_spec k0 k) as [->|Hne]; simpl.
    + destruct (String.eqb k k'); reflexivity.
    + rewrite IH. destruct (String.eqb_spec k0 k') as [->|Hne'].
      * destruct (String.eqb_spec k k') as [->|_]; [contradiction|reflexivity].
      * reflexivity.
Qed.

(** A [Map] built from the blocks answers for an id with the last block
    that has it. *)
Lemma Map_of_blocks_get (bs : list BlockState) (k : string) :
  obj_get (Map_of_blocks bs) k = last_with_id bs k.
Proof.
  unfold Map_of_blocks, last_with_id.
  induction bs as [|b bs IH] using rev_ind; [reflexivity|].
  rewrite fold_left_app, rev_app_distr. simpl.
  rewrite obj_get_set, IH. reflexivity.
Qed.

Lemma last_with_id_some_id (bs : list BlockState) (k : string) :
  (match last_with_id bs k with Some _ => true | None => false end)
  = some_id bs k.
Proof.
  unfold last_with_id, some_id.
  destruct (find _ (rev bs)) as [b|] eqn:Hf.
  - apply find_some in Hf. destruct Hf as [Hin Hk]. symmetry.
    apply existsb_exists. exists b. split; [now apply in_rev|exact Hk].
  - symmetry. apply not_true_is_false. intro H. apply existsb_exists in H.
    destruct H as [b [Hin Hk]]. apply in_rev in Hin.
    pose proof (find_none _ _ Hf b Hin) as Hn. simpl in Hn. congruence.
Qed.

Lemma Map_of_blocks_has (bs : list BlockState) (k : string) :
  Map_has (Map_of_blocks bs) k = some_id bs k.
Proof.
  unfold Map_has. rewrite Map_of_blocks_get. apply last_with_id_some_id.
Qed.


Lemma some_id_In (bs : list BlockState) (i : string) :
  some_id bs i = true <-> In i (map b_id bs).
Proof.
  unfold some_id. rewrite existsb_exists, in_map_iff. split.
  - intros [b [Hin Hb]]. apply String.eqb_eq in Hb. now exists b.
  - intros [b [Hb Hin]]. exists b. split; [exact Hin|now apply String.eqb_eq].
Qed.

Lemma find_split {A : Type} (p : A -> bool) (l : list A) (x : A) :
  find p l = Some x
  <-> exists l1 l2, l = (l1 ++ x :: l2)%list /\ p x = true
                    /\ forall y, In y l1 -> p y = false.
Proof.
  split.
  - revert x. induction l as [|a l IH]; intros x H; simpl in H; [discriminate|].
    destruct (p a) eqn:Ha.
    + injection H as ->. exists [], l. repeat split; [exact Ha|intros y []].
    + destruct (IH _ H) as (l1 & l2 & -> & Hx & Hl1).
      exists (a :: l1), l2. repeat split; [exact Hx|].
      intros y [<-|Hy]; [exact Ha|now apply Hl1].
  - intros (l1 & l2 & -> & Hx & Hl1).
    induction l1 as [|a l1 IH]; simpl.
    + now rewrite Hx.
    + rewrite (Hl1 a (or_introl eq_refl)). apply IH.
      intros y Hy. apply Hl1. now right.
Qed.

(** The block the old [Map] holds for an id is the last of the old list
    with this id. *)
Lemma last_with_id_split (bs : list BlockState) (i : string) (o : BlockState) :
  last_with_id bs i = Some o
  <-> exists before after, bs = (before ++ o :: after)%list /\ b_id o = i
                            /\ ~ In i (map b_id after).
Proof.
  unfold last_with_id. rewrite find_split. split.
  - intros (l1 & l2 & Hrev & Ho & Hl1).
    exists (rev l2), (rev l1). split; [|split].
    + rewrite <- (rev_involutive bs), Hrev, rev_app_distr. simpl.
      now rewrite <- app_assoc.
    + now apply String.eqb_eq.
    + intro Hin. apply in_map_iff in Hin. destruct Hin as [y [Hy Hin]].
      apply in_rev in Hin. apply Hl1 in Hin.
      apply String.eqb_neq in Hin. contradiction.
  - intros (before & after & -> & Ho & Hafter).
    exists (rev after), (rev before). split; [|split].
    + rewrite rev_app_distr. simpl. now rewrite <- app_assoc.
    + now apply String.eqb_eq.
    + intros y Hy. apply String.eqb_neq. intro Hi. apply Hafter.
      apply in_map_iff. exists y. split; [exact Hi|now apply in_rev].
Qed.

Lemma is_modified_spec (oldBlocks : list BlockState) (b : BlockState) :
  is_modified oldBlocks b = true
  <-> exists old, last_with_id oldBlocks (b_id b) = Some old
        /\ ~ (b_sections b = b_sections old /\ isActive b = isActive old
              /\ customLabel b = customLabel old
              /\ customValues b = customValues old).
Proof.
  unfold is_modified. destruct (last_with_id oldBlocks (b_id b)) as [old|].
  - split.
    + intro H. exists old. split; [reflexivity|].
      rewrite <- block_changed_false. now rewrite H.
    + intros (old' & [= <-] & H). rewrite <- block_changed_false in H.
      now destruct (block_changed b old).
  - split; [discriminate|]. intros (old & H & _). discriminate H.
Qed.

Lemma mapM_app_eq {A B : Type} (f : A -> option B) (l1 l2 : list A) :
  mapM f (l1 ++ l2)
  = (r1 <- mapM f l1 ;; r2 <- mapM f l2 ;; Some (r1 ++ r2)%list).
Proof.
  induction l1 as [|a l1 IH]; simpl.
  - now destruct (mapM f l2).
  - destruct (f a) as [b|]; simpl; [|reflexivity]. rewrite IH.
    destruct (mapM f l1) as [r1|]; simpl; [|reflexivity].
    now destruct (mapM f l2).
Qed.

(** Adding under a condition, block by block, adds the descriptions of the
    blocks that meet it, once all of them were made. *)
Lemma foldM_conditional_add (c : BlockState -> bool) (verb : string)
    (bs : list BlockState) (ch : list string) :
  foldM (fun ch b => if c b
                     then l <- label_text b ;; Some (Set_add ch (verb ++ l))
                     else Some ch) ch bs
  = (ds <- mapM describe (map (pair verb) (filter c bs)) ;;
     Some (fold_left Set_add ds ch)).
Proof.
  revert ch. induction bs as [|b bs IH]; intro ch; simpl; [reflexivity|].
  destruct (c b); simpl; [|apply IH].
  unfold describe at 1. simpl.
  destruct (label_text b) as [l|]; simpl; [|reflexivity].
  rewrite IH.
  now destruct (mapM describe (map (pair verb) (filter c bs))).
Qed.

Lemma foldM_pointwise {A S : Type} (f g : S -> A -> option S) (l : list A)
    (s : S) :
  (forall s a, f s a = g s a) -> foldM f s l = foldM g s l.
Proof.
  intro H. revert s. induction l as [|a l IH]; intro s; simpl; [reflexivity|].
  rewrite H. destruct (g s a); simpl; [apply IH|reflexivity].
Qed.

(** The set of changes is the descriptions of the added, the removed and
    the modified blocks, added one after another. *)
Lemma changeList_descriptions (oldBlocks newBlocks : list BlockState) :
  changeList oldBlocks newBlocks
  = (ds <- change_descriptions oldBlocks newBlocks ;;
     Some (fold_left Set_add ds [])).
Proof.
  unfold changeList, change_descriptions, changed_blocks, added_blocks,
    removed_blocks, modified_blocks.
  rewrite (foldM_pointwise
             (fun ch b => if negb (Map_has (Map_of_blocks oldBlocks) (b_id b))
                          then l <- label_text b ;; Some (Set_add ch ("Added " ++ l))
                          else Some ch)
             (fun ch b => if negb (some_id oldBlocks (b_id b))
                          then l <- label_text b ;; Some (Set_add ch ("Added " ++ l))
                          else Some ch))
    by (intros; now rewrite Map_of_blocks_has).
  rewrite foldM_conditional_add, !mapM_app_eq.
  destruct (mapM describe (map (pair "Added ") _)) as [r1|]; simpl;
    [|reflexivity].
  rewrite (foldM_pointwise
             (fun ch b => if negb (Map_has (Map_of_blocks newBlocks) (b_id b))
                          then l <- label_text b ;; Some (Set_add ch ("Removed " ++ l))
                          else Some ch)
             (fun ch b => if negb (some_id newBlocks (b_id b))
                          then l <- label_text b ;; Some (Set_add ch ("Removed " ++ l))
                          else Some ch))
    by (intros; now rewrite Map_of_blocks_has).
  rewrite foldM_conditional_add.
  destruct (mapM describe (map (pair "Removed ") _)) as [r2|]; simpl;
    [|reflexivity].
  rewrite (foldM_pointwise
             (fun ch b => match obj_get (Map_of_blocks oldBlocks) (b_id b) with
                          | Some old =>
                              if block_changed b old
                              then l <- label_text b ;;
                                   Some (Set_add ch ("Modified " ++ l))
                              else Some ch
                          | None => Some ch
                          end)
             (fun ch b => if is_modified oldBlocks b
                          then l <- label_text b ;;
                               Some (Set_add ch ("Modified " ++ l))
                          else Some ch)).
  2:{ intros ch b. rewrite Map_of_blocks_get. unfold is_modified.
      destruct (last_with_id oldBlocks (b_id b)); reflexivity. }
  rewrite foldM_conditional_add.
  destruct (mapM describe (map (pair "Modified ") _)) as [r3|]; simpl;
    [|reflexivity].
  now rewrite !fold_left_app.
Qed.

(** A run of [add]s leaves in the set what it held and, after it, every
    new string at its first occurrence. *)
Lemma fold_Set_add (l : list string) :
  forall set,
  fold_left Set_add l set
  = (set ++ filter (fun y => negb (existsb (String.eqb y) set))
                   (first_occurrences l))%list.
Proof.
  induction l as [|x l IH]; intro set; simpl.
  - now rewrite app_nil_r.
  - rewrite IH. unfold Set_add, push.
    destruct (existsb (String.eqb x) set) eqn:E; simpl.
    + f_equal. rewrite filter_twice. apply filter_ext. intro y.
      destruct (String.eqb_spec y x) as [->|_]; simpl; [now rewrite E|reflexivity].
    + rewrite <- app_assoc. simpl. f_equal. f_equal.
      rewrite filter_twice. apply filter_ext. intro y.
      rewrite existsb_app. simpl. rewrite orb_false_r, negb_orb.
      apply andb_comm.
Qed.

Lemma Set_of_descriptions (l : list string) :
  fold_left Set_add l [] = first_occurrences l.
Proof.
  rewrite fold_Set_add. simpl.
  induction (first_occurrences l) as [|y t IH]; simpl; [reflexivity|].
  now rewrite IH.
Qed.

Lemma first_occurrences_In (l : list string) (y : string) :
  In y (first_occurrences l) -> In y l.
Proof.
  revert y. induction l as [|x l IH]; intros y H; simpl in *; [exact H|].
  destruct H as [H|H]; [now left|].
  apply filter_In in H. right. apply IH. tauto.
Qed.

Lemma first_occurrences_NoDup (l : list string) :
  NoDup l -> first_occurrences l = l.
Proof.
  induction 1 as [|x l Hx Hl IH]; simpl; [reflexivity|].
  rewrite IH. f_equal. apply forallb_filter_id. apply forallb_forall.
  intros y Hy. apply negb_true_iff. apply String.eqb_neq. intros ->.
  contradiction.
Qed.

Lemma section_field_plain (b : BlockState) (sec fld : string) (v : jsval) :
  block_well_typed b = true -> section_field b sec fld = Some v ->
  plain v = true.
Proof.
  intros Hb H. unfold block_well_typed in Hb. apply andb_true_iff in Hb.
  destruct Hb as [Hb _]. rewrite forallb_forall in Hb.
  unfold section_field in H.
  destruct (obj_get (b_sections b) sec) as [st|] eqn:Es; [|discriminate].
  destruct (@obj_get_In _ _ _ _ Es) as [k Hin].
  destruct (@obj_get_In _ _ _ _ H) as [k' Hin'].
  specialize (Hb _ Hin). cbn [snd] in Hb. rewrite forallb_forall in Hb.
  specialize (Hb _ Hin'). cbn [snd] in Hb. unfold value_well_typed in Hb.
  apply andb_true_iff in Hb. tauto.
Qed.

(** The label of a block whose values are well typed prints. *)
Lemma label_text_total (b : BlockState) :
  block_well_typed b = true -> exists l, label_text b = Some l.
Proof.
  intro Hb. unfold label_text, getSmartLabel.
  assert (Hv : forall sec fld,
            exists s, ToString (match section_field b sec fld with
                                | Some r => r
                                | None => VNull
                                end) = Some s).
  { intros sec fld. destruct (section_field b sec fld) as [v|] eqn:E.
    - apply plain_prints. exact (@section_field_plain _ _ _ _ Hb E).
    - now eexists. }
  assert (Ho : forall sec fld,
            exists s, ToString_opt (section_field b sec fld) = Some s).
  { intros sec fld. apply plain_prints_opt.
    destruct (section_field b sec fld) as [v|] eqn:E; [|exact I].
    exact (@section_field_plain _ _ _ _ Hb E). }
  repeat match goal with
         | |- context [if ?c then _ else _] => destruct c
         end;
    try (simpl; now eexists);
    destruct (b_type b); simpl;
    repeat match goal with
           | |- context [if ?c then _ else _] => destruct c
           end;
    try (simpl; now eexists); try apply Hv.
  all: match goal with
       | |- context [ToString_opt (section_field _ ?s ?f)] =>
           let x := fresh "x" in
           destruct (Ho s f) as [x ->]; simpl; now eexists
       end.
Qed.

(** The claim as worded fails on the count: three Subject blocks, as
    [addBlock] creates them, were each modified, the three modifications
    have one description, and the summary is that description and not
    "3 Changes". *)
Lemma three_modifications_one_description :
  map b_id ex_three_subjects = ["block-1"; "block-2"; "block-3"]
  /\ modified_blocks ex_three_subjects ex_three_subjects_off
     = ex_three_subjects_off
  /\ List.length ex_three_subjects_off = 3%nat
  /\ getChangeSummary ex_three_subjects ex_three_subjects_off
     = Some "Modified Human"
  /\ getChangeSummary ex_three_subjects ex_three_subjects_off
     <> Some "3 Changes (e.g. Modified Human)".
Proof.
  split; [reflexivity|]. split; [vm_compute; reflexivity|].
  split; [reflexivity|]. split; [vm_compute; reflexivity|].
  vm_compute. discriminate.
Qed.

(** C8, amended.  The summary is made from the descriptions of the changed
    blocks: "Added <label>" for each block of the new list whose id is not
    in the old list, then "Removed <label>" for each block of the old list
    whose id is not in the new list, then "Modified <label>" for each block
    of the new list whose id is in the old list and which differs from the
    last old block with this id in its sections, [isActive], [customLabel]
    or custom values.  Making a description prints the block's label,
    which may throw; when every description was made the summary counts
    each distinct description once, at its first occurrence: "Regenerated"
    for none, the description for one, the two joined by a comma for two,
    and "N Changes (e.g. <first>)" for N distinct descriptions otherwise.
    So three or more changes whose descriptions are pairwise different give
    "N Changes (e.g. <first>)" for the number N of changes, one added block
    gives "Added <label>", an unchanged list gives "Regenerated", and the
    summary is made whenever the values of all blocks are well typed. *)
Theorem change_summary_counts_distinct_descriptions
    (oldBlocks newBlocks : list BlockState) :
  let changed := changed_blocks oldBlocks newBlocks in
  changed
  = (map (pair "Added ")
         (filter (fun b => negb (some_id oldBlocks (b_id b))) newBlocks)
     ++ map (pair "Removed ")
            (filter (fun b => negb (some_id newBlocks (b_id b))) oldBlocks)
     ++ map (pair "Modified ") (filter (is_modified oldBlocks) newBlocks))%list
  /\ (forall bs i, some_id bs i = true <-> In i (map b_id bs))
  /\ (forall b,
        is_modified oldBlocks b = true
        <-> exists old,
              last_with_id oldBlocks (b_id b) = Some old
              /\ ~ (b_sections b = b_sections old
                    /\ isActive b = isActive old
                    /\ customLabel b = customLabel old
                    /\ customValues b = customValues old))
  /\ (forall i old,
        last_with_id oldBlocks i = Some old
        <-> exists before after,
              oldBlocks = (before ++ old :: after)%list /\ b_id old = i
              /\ ~ In i (map b_id after))
  /\ (forall change,
        describe change
        = option_map (append (fst change)) (label_text (snd change)))
  /\ getChangeSummary oldBlocks newBlocks
     = (descriptions <- mapM describe changed ;;
        let distinct := first_occurrences descriptions in
        Some match distinct with
             | [] => "Regenerated"
             | [c0] => c0
             | [c0; c1] => c0 ++ ", " ++ c1
             | c0 :: _ =>
                 string_of_nat (List.length distinct)
                   ++ " Changes (e.g. " ++ c0 ++ ")"
             end)
  /\ (forall descriptions c0 c1 c2 rest,
        mapM describe changed = Some descriptions ->
        NoDup descriptions ->
        descriptions = c0 :: c1 :: c2 :: rest ->
        getChangeSummary oldBlocks newBlocks
        = Some (string_of_nat (List.length changed)
                  ++ " Changes (e.g. " ++ c0 ++ ")"))
  /\ ((forall b, In b oldBlocks \/ In b newBlocks ->
                 block_well_typed b = true) ->
      exists summary, getChangeSummary oldBlocks newBlocks = Some summary)
  /\ (forall b, getChangeSummary [] [b]
                = option_map (append "Added ") (label_text b))
  /\ (forall b, getChangeSummary [b] [b] = Some "Regenerated").
Proof.
  intro changed.
  assert (Hsum : getChangeSummary oldBlocks newBlocks
                 = (descriptions <- mapM describe changed ;;
                    Some (summary_of (first_occurrences descriptions)))).
  { unfold getChangeSummary. rewrite changeList_descriptions.
    unfold change_descriptions. fold changed.
    destruct (mapM describe changed) as [ds|]; simpl; [|reflexivity].
    now rewrite Set_of_descriptions. }
  assert (Hdesc : forall change,
            describe change
            = option_map (append (fst change)) (label_text (snd change))).
  { intros [verb b]. unfold describe. simpl. now destruct (label_text b). }
  split; [reflexivity|].
  split; [apply some_id_In|].
  split; [apply is_modified_spec|].
  split; [apply last_with_id_split|].
  split; [exact Hdesc|].
  split; [exact Hsum|].
  split.
  { intros descriptions c0 c1 c2 rest Hds Hnd Hshape.
    rewrite Hsum, Hds. simpl.
    rewrite (first_occurrences_NoDup Hnd).
    assert (Hlen : List.length changed = List.length descriptions).
    { clear - Hds. revert descriptions Hds.
      induction changed as [|c l IH]; intros ds H.
      - injection H as <-. reflexivity.
      - destruct (mapM_cons _ _ _ H) as (d & ds' & -> & _ & H').
        simpl. f_equal. now apply IH. }
    rewrite Hlen, Hshape. reflexivity. }
  split.
  { intro Hwt. rewrite Hsum.
    destruct (@mapM_total _ _ describe changed) as [ds ->].
    - intros [verb b] Hin. rewrite Hdesc. cbn [fst snd].
      destruct (@label_text_total b) as [l ->]; [|now eexists].
      apply Hwt. unfold changed, changed_blocks, added_blocks,
        removed_blocks, modified_blocks in Hin.
      rewrite !in_app_iff, !in_map_iff in Hin.
      destruct Hin as [(x & [= _ <-] & Hx)|[(x & [= _ <-] & Hx)
                                          |(x & [= _ <-] & Hx)]];
        apply filter_In in Hx; tauto.
    - simpl. now eexists. }
  split.
  { intro b. unfold getChangeSummary, changeList. simpl.
    destruct (label_text b) as [l|]; reflexivity. }
  intro b. unfold getChangeSummary. rewrite changeList_descriptions.
  unfold change_descriptions, changed_blocks, added_blocks, removed_blocks,
    modified_blocks, is_modified, last_with_id, some_id.
  simpl. rewrite String.eqb_refl. simpl.
  assert (Hsame : block_changed b b = false)
    by (apply block_changed_false; repeat split).
  now rewrite Hsame.
Qed.

Lemma change_summary_counts_distinct_descriptions_witness :
  NoDup ["Modified Detective"; "Modified Rain-soaked alley"; "Modified Mood 1"]
  /\ getChangeSummary ex_scene ex_scene_off
     = Some "3 Changes (e.g. Modified Detective)".
Proof.
  assert (Hnd : NoDup ["Modified Detective"; "Modified Rain-soaked alley";
                       "Modified Mood 1"])
    by (apply distinctb_NoDup; vm_compute; reflexivity).
  split; [exact Hnd|].
  refine (proj1 (proj2 (proj2 (proj2 (proj2 (proj2 (proj2
            (@change_summary_counts_distinct_descriptions
               ex_scene ex_scene_off)))))))
            _ "Modified Detective" "Modified Rain-soaked alley"
            "Modified Mood 1" [] _ Hnd eq_refl).
  vm_compute. reflexivity.
Defined.

(* ================================================================== *)
(** * Further properties of the code *)
(* ================================================================== *)

(** ** String methods *)

Lemma trimStart_fixed (c : ascii) (t : string) :
  is_whitespace c = false -> trimStart (String c t) = String c t.
Proof. intro H. simpl. now rewrite H. Qed.

Lemma trimStart_head (s : string) :
  trimStart s = ""
  \/ exists c t, trimStart s = String c t /\ is_whitespace c = false.
Proof.
  induction s as [|c s IH]; [now left|]. simpl.
  destruct (is_whitespace c) eqn:E; [exact IH|].
  right. now exists c, s.
Qed.

Lemma trimEnd_head (c : ascii) (t : string) :
  is_whitespace c = false -> exists t', trimEnd (String c t) = String c t'.
Proof.
  intro H. simpl. destruct (trimEnd t) as [|d t'].
  - rewrite H. now exists "".
  - now exists (String d t').
Qed.

Lemma trimEnd_idem (s : string) : trimEnd (trimEnd s) = trimEnd s.
Proof.
  induction s as [|c s IH]; [reflexivity|]. simpl.
  destruct (trimEnd s) as [|d t] eqn:E.
  - destruct (is_whitespace c) eqn:W; [reflexivity|]. simpl. now rewrite W.
  - change (trimEnd (String c (String d t))) with
      (match trimEnd (String d t) with
       | "" => if is_whitespace c then "" else String c ""
       | t' => String c t'
       end).
    now rewrite IH.
Qed.

Lemma trim_idem (s : string) : trim (trim s) = trim s.
Proof.
  unfold trim.
  destruct (trimStart_head s) as [E | [c [t [E W]]]]; rewrite E.
  - reflexivity.
  - destruct (@trimEnd_head c t W) as [t' E'].
    rewrite E', (@trimStart_fixed c t' W), <- E'. apply trimEnd_idem.
Qed.

Lemma trim_nonempty_length (s : string) :
  nonempty s = true -> (0 <? String.length s)%nat = true.
Proof. destruct s; [discriminate|reflexivity]. Qed.

(** ** The API key *)

(** X1.  [getEffectiveApiKey]: a stored key that is not blank wins over the
    build key, whatever that is; the key returned never carries
    surrounding whitespace; a build key that is no string or mentions
    "undefined" is never returned. *)
Theorem effective_key_prefers_stored_key (env : KeyStore) :
  (forall localKey, gemini_api_key env = Some localKey ->
                    nonempty (trim localKey) = true ->
                    getEffectiveApiKey env = trim localKey)
  /\ trim (getEffectiveApiKey env) = getEffectiveApiKey env
  /\ (gemini_api_key env = None ->
      match API_KEY env with
      | Some (VStr envKey) =>
          String_includes envKey "undefined" = true ->
          getEffectiveApiKey env = ""
      | _ => getEffectiveApiKey env = ""
      end).
Proof.
  repeat split.
  - intros localKey E Hne. unfold getEffectiveApiKey. rewrite E.
    rewrite (trim_nonempty_length _ Hne).
    destruct localKey; [discriminate|]. reflexivity.
  - unfold getEffectiveApiKey.
    assert (Henv : trim match API_KEY env with
                        | Some (VStr envKey) =>
                            if nonempty envKey
                               && (0 <? String.length envKey)%nat
                               && negb (String_includes envKey "undefined")
                            then trim envKey else ""
                        | _ => ""
                        end
                   = match API_KEY env with
                     | Some (VStr envKey) =>
                         if nonempty envKey
                            && (0 <? String.length envKey)%nat
                            && negb (String_includes envKey "undefined")
                         then trim envKey else ""
                     | _ => ""
                     end).
    { destruct (API_KEY env) as [[| | |envKey| |]|]; try reflexivity.
      destruct (_ && _); [apply trim_idem|reflexivity]. }
    destruct (gemini_api_key env) as [localKey|]; [|exact Henv].
    destruct (_ && _); [apply trim_idem|exact Henv].
  - intro E. unfold getEffectiveApiKey. rewrite E.
    destruct (API_KEY env) as [[| | |envKey| |]|]; try reflexivity.
    intro Hu. rewrite Hu. now rewrite andb_false_r.
Qed.

Lemma effective_key_prefers_stored_key_witness :
  getEffectiveApiKey (mkKeyStore (Some "  AIza-user  ") (Some (VStr "AIza-build")))
  = "AIza-user".
Proof.
  refine (proj1 (@effective_key_prefers_stored_key
                   (mkKeyStore (Some "  AIza-user  ") (Some (VStr "AIza-build"))))
                "  AIza-user  " eq_refl eq_refl).
Defined.

(** X2.  [handleSaveApiKey] followed by [getEffectiveApiKey]: a key that is not
    blank is stored trimmed, is the key every later request uses, and the
    indicator is on. *)
Theorem saved_key_is_effective_key (env : KeyStore) (customApiKey : string) :
  nonempty (trim customApiKey) = true ->
  let '(env', hasEffectiveKey, _) := handleSaveApiKey env customApiKey in
  gemini_api_key env' = Some (trim customApiKey)
  /\ getEffectiveApiKey env' = trim customApiKey
  /\ hasEffectiveKey = true
  /\ API_KEY env' = API_KEY env.
Proof.
  intro Hne. unfold handleSaveApiKey. rewrite Hne.
  repeat split. unfold getEffectiveApiKey. simpl.
  rewrite trim_idem, Hne, (trim_nonempty_length _ Hne). reflexivity.
Qed.

Lemma saved_key_is_effective_key_witness :
  getEffectiveApiKey (fst (fst (handleSaveApiKey (mkKeyStore None None) " k-1 ")))
  = "k-1".
Proof.
  pose proof (@saved_key_is_effective_key (mkKeyStore None None) " k-1 " eq_refl)
    as H.
  simpl in H. destruct H as [_ [H _]]. exact H.
Defined.

(** ** The retry loop *)

Lemma backoff_delays_snoc (d : Z) (slept : list Z) (n : nat) :
  (push slept d ++ map (fun k => (d * 2 * 2 ^ Z.of_nat k)%Z) (seq 0 n))%list
  = (slept ++ map (fun k => (d * 2 ^ Z.of_nat k)%Z) (seq 0 (S n)))%list.
Proof.
  unfold push. rewrite <- app_assoc. f_equal. simpl.
  rewrite Z.mul_1_r. f_equal.
  rewrite <- seq_shift, map_map. apply map_ext. intro k.
  rewrite Nat2Z.inj_succ, Z.pow_succ_r by lia. ring.
Qed.

Lemma retry_loop_step {T : Type} (operation : nat -> Attempt T)
    (retries : Z) (remaining i : nat) (delay : Z) (slept : list Z) :
  retry_loop operation retries (S remaining) i delay slept
  = match operation i with
    | Resolved v => mkRun (Fulfilled v) (S i) slept
    | Rejected error =>
        match error_msg error with
        | None => mkRun (Failed MessageTypeError) (S i) slept
        | Some msg =>
            if isQuotaError (error_status error) msg
            then mkRun (Failed (NewError "QUOTA_EXHAUSTED")) (S i) slept
            else if isServerBusy (error_status error) msg
                    && (Z.of_nat i <? retries - 1)%Z
            then retry_loop operation retries remaining (S i)
                            (delay * 2)%Z (push slept delay)
            else if (strict_eq_num (error_status error) 400
                     || strict_eq_num (error_status error) 403)
                    && String_includes msg "key"
            then mkRun (Failed (NewError "API_KEY_INVALID")) (S i) slept
            else mkRun (Failed (Rethrown error)) (S i) slept
        end
    end.
Proof. reflexivity. Qed.

Lemma run_of_one_call {T : Type} (s : Settled T) (i n : nat) (delay : Z)
    (slept : list Z) :
  s <> Failed (NewError "Max retries exceeded") ->
  let r := mkRun s (S i) slept in
  (i < calls r <= i + S n)%nat
  /\ waits r = (slept ++ map (fun k => (delay * 2 ^ Z.of_nat k)%Z)
                             (seq 0 (calls r - 1 - i)))%list
  /\ settled r <> Failed (NewError "Max retries exceeded").
Proof.
  intros Hs. cbn. replace (i - 0 - i)%nat with 0%nat by lia. cbn.
  rewrite app_nil_r. repeat split; [lia|lia|exact Hs].
Qed.

(** The loop from any of its states: it calls [operation] at least once
    more and at most [remaining] times, sleeps the doubled delays between
    the calls, and does not fall out of its last iteration. *)
Lemma retry_loop_schedule {T : Type} (operation : nat -> Attempt T)
    (retries : Z) (remaining : nat) :
  forall (i : nat) (delay : Z) (slept : list Z),
  Z.of_nat (i + S remaining) = retries ->
  let r := retry_loop operation retries (S remaining) i delay slept in
  (i < calls r <= i + S remaining)%nat
  /\ waits r
     = (slept ++ map (fun k => (delay * 2 ^ Z.of_nat k)%Z)
                     (seq 0 (calls r - 1 - i)))%list
  /\ settled r <> Failed (NewError "Max retries exceeded").
Proof.
  induction remaining as [|remaining IH]; intros i delay slept Hinv;
    cbv zeta; rewrite retry_loop_step.
  all: destruct (operation i) as [v|error];
    [apply run_of_one_call; discriminate|].
  all: destruct (error_msg error) as [msg|];
    [|apply run_of_one_call; discriminate].
  all: destruct (isQuotaError _ msg);
    [apply run_of_one_call; discriminate|].
  - assert (Hlast : (Z.of_nat i <? retries - 1)%Z = false)
      by (apply Z.ltb_ge; lia).
    rewrite Hlast, andb_false_r.
    destruct (_ && _); apply run_of_one_call; discriminate.
  - destruct (isServerBusy _ msg && (Z.of_nat i <? retries - 1)%Z).
    2:{ destruct (_ && _); apply run_of_one_call; discriminate. }
    specialize (IH (S i) (delay * 2)%Z (push slept delay)).
    assert (Hinv' : Z.of_nat (S i + S remaining) = retries) by lia.
    destruct (IH Hinv') as [Hc [Hw Hs]].
    set (r := retry_loop operation retries (S remaining) (S i) (delay * 2)%Z
                         (push slept delay)) in *.
    repeat split; try lia; [|exact Hs].
    rewrite Hw.
    replace (calls r - 1 - i)%nat with (S (calls r - 1 - S i))%nat by lia.
    rewrite <- backoff_delays_snoc. f_equal.
Qed.

(** X3.  [retryWithBackoff]: it never calls the operation more than [retries]
    times; the delays it sleeps between the calls are [initialDelay],
    doubled each time; and "Max retries exceeded" is thrown only when
    [retries] allows no call at all, an error of the last call being
    thrown instead. *)
Theorem retry_calls_and_delays {T : Type} (apiKey : string)
    (operation : nat -> Attempt T) (retries initialDelay : Z) :
  let r := retryWithBackoff apiKey operation retries initialDelay in
  (calls r <= Z.to_nat retries)%nat
  /\ waits r = backoff_delays initialDelay (calls r - 1)
  /\ (settled r = Failed (NewError "Max retries exceeded")
      <-> (nonempty apiKey = true /\ (retries <= 0)%Z))
  /\ (nonempty apiKey = false ->
      calls r = 0%nat /\ settled r = Failed (NewError "API_KEY_MISSING")).
Proof.
  unfold retryWithBackoff.
  destruct (nonempty apiKey) eqn:Hkey; cbn [negb].
  2:{ cbn. split; [lia|]. split; [reflexivity|]. split; [|now split].
      split; [discriminate|]. intros [H _]; discriminate. }
  destruct (Z.to_nat retries) as [|remaining] eqn:Hn.
  - cbn. split; [lia|]. split; [reflexivity|]. split; [|discriminate].
    split; [intros _; split; [reflexivity|lia]|reflexivity].
  - assert (Hinv : Z.of_nat (0 + S remaining) = retries) by lia.
    destruct (retry_loop_schedule operation remaining 0 initialDelay [] Hinv)
      as [Hc [Hw Hs]].
    set (r := retry_loop operation retries (S remaining) 0 initialDelay [])
      in *.
    split; [lia|]. split; [|split; [|discriminate]].
    + rewrite Hw. cbn [app]. unfold backoff_delays. do 2 f_equal. lia.
    + split; [intro H; exfalso; now apply Hs|intros [_ H]; lia].
Qed.

(** After [k] failures that read as a busy server, with calls left, the
    loop stands at call [k], having slept [k] doubled delays. *)
Lemma retry_loop_after_transient {T : Type} (operation : nat -> Attempt T)
    (retries : Z) (k : nat) :
  forall (remaining i : nat) (delay : Z) (slept : list Z),
  (forall j, (j < k)%nat ->
             exists e, operation (i + j)%nat = Rejected e
                       /\ is_transient e = true) ->
  (Z.of_nat (i + k) < retries)%Z ->
  retry_loop operation retries (k + remaining) i delay slept
  = retry_loop operation retries remaining (i + k)
               (delay * 2 ^ Z.of_nat k)%Z
               (slept ++ map (fun j => (delay * 2 ^ Z.of_nat j)%Z) (seq 0 k))%list.
Proof.
  induction k as [|k IH]; intros remaining i delay slept Hop Hlt.
  - cbn. now rewrite Nat.add_0_r, Z.mul_1_r, app_nil_r.
  - destruct (Hop 0%nat) as [e [He Ht]]; [lia|].
    rewrite Nat.add_0_r in He.
    cbn [Nat.add retry_loop]. rewrite He.
    unfold is_transient in Ht.
    destruct (error_msg e) as [msg|]; [|discriminate].
    apply andb_true_iff in Ht. destruct Ht as [Hq Hb].
    apply negb_true_iff in Hq. rewrite Hq, Hb.
    assert (Hi : (Z.of_nat i <? retries - 1)%Z = true)
      by (apply Z.ltb_lt; lia).
    rewrite Hi. cbn [andb].
    rewrite IH.
    + replace (S i + k)%nat with (i + S k)%nat by lia.
      rewrite backoff_delays_snoc. f_equal.
      rewrite Nat2Z.inj_succ, Z.pow_succ_r by lia. ring.
    + intros j Hj. destruct (Hop (S j)) as [e' He']; [lia|].
      exists e'. now replace (S i + j)%nat with (i + S j)%nat by lia.
    + lia.
Qed.

(** X4.  [retryWithBackoff] absorbs a busy server: when the first [k] calls
    fail with errors that read as 503 or "overloaded" and call [k], still
    within [retries], succeeds, its value is returned after [k] doubled
    delays. *)
Theorem retry_returns_after_busy_server {T : Type} (apiKey : string)
    (operation : nat -> Attempt T) (retries initialDelay : Z) (k : nat)
    (v : T) :
  nonempty apiKey = true ->
  (Z.of_nat k < retries)%Z ->
  (forall j, (j < k)%nat ->
             exists e, operation j = Rejected e /\ is_transient e = true) ->
  operation k = Resolved v ->
  retryWithBackoff apiKey operation retries initialDelay
  = mkRun (Fulfilled v) (S k) (backoff_delays initialDelay k).
Proof.
  intros Hkey Hlt Hop Hk. unfold retryWithBackoff. rewrite Hkey. cbn [negb].
  replace (Z.to_nat retries) with (k + S (Z.to_nat retries - S k))%nat by lia.
  rewrite retry_loop_after_transient; [|exact Hop|lia].
  cbn [retry_loop Nat.add]. rewrite Hk. reflexivity.
Qed.

Lemma retry_returns_after_busy_server_witness :
  retryWithBackoff "key" ex_operation 3 2000
  = mkRun (Fulfilled "image") 3 [2000; 4000]%Z.
Proof.
  refine (@retry_returns_after_busy_server string "key" ex_operation 3 2000 2
            "image" eq_refl eq_refl _ eq_refl).
  intros [|[|j]] Hj; [now exists ex_busy|now exists ex_busy|lia].
Defined.

(** X5.  [retryWithBackoff] never retries a quota error: at the first error that
    reads as 429, "quota" or "resource_exhausted" it throws
    QUOTA_EXHAUSTED, without another call and without sleeping again. *)
Theorem retry_fails_fast_on_quota {T : Type} (apiKey : string)
    (operation : nat -> Attempt T) (retries initialDelay : Z) (k : nat)
    (error : Thrown) :
  nonempty apiKey = true ->
  (Z.of_nat k < retries)%Z ->
  (forall j, (j < k)%nat ->
             exists e, operation j = Rejected e /\ is_transient e = true) ->
  operation k = Rejected error ->
  is_quota error = true ->
  retryWithBackoff apiKey operation retries initialDelay
  = mkRun (Failed (NewError "QUOTA_EXHAUSTED")) (S k)
          (backoff_delays initialDelay k).
Proof.
  intros Hkey Hlt Hop Hk Hq. unfold retryWithBackoff. rewrite Hkey. cbn [negb].
  replace (Z.to_nat retries) with (k + S (Z.to_nat retries - S k))%nat by lia.
  rewrite retry_loop_after_transient; [|exact Hop|lia].
  cbn [retry_loop Nat.add]. rewrite Hk.
  unfold is_quota in Hq. destruct (error_msg error) as [msg|]; [|discriminate].
  rewrite Hq. reflexivity.
Qed.

Lemma retry_fails_fast_on_quota_witness :
  retryWithBackoff "key"
    (fun k => match k with
              | O => Rejected ex_busy
              | _ => @Rejected string ex_quota
              end) 3 2000
  = mkRun (Failed (NewError "QUOTA_EXHAUSTED")) 2 [2000]%Z.
Proof.
  refine (@retry_fails_fast_on_quota string "key" _ 3 2000 1 ex_quota
            eq_refl eq_refl _ eq_refl eq_refl).
  intros [|j] Hj; [now exists ex_busy|lia].
Defined.

(** ** The chroma key *)

Lemma near_white_square (r g b : Z) :
  (Z.sqrt ((255 - r) ^ 2 + (255 - g) ^ 2 + (255 - b) ^ 2) <? 50)%Z
  = ((255 - r) ^ 2 + (255 - g) ^ 2 + (255 - b) ^ 2 <? 2500)%Z.
Proof.
  set (s := ((255 - r) ^ 2 + (255 - g) ^ 2 + (255 - b) ^ 2)%Z).
  assert (Hs : (0 <= s)%Z) by (unfold s; rewrite !Z.pow_2_r; nia).
  destruct (Z.ltb_spec s 2500) as [H|H].
  - apply Z.ltb_lt. apply Z.sqrt_lt_square; lia.
  - apply Z.ltb_ge. apply Z.sqrt_le_square; lia.
Qed.

Lemma chroma_key_pixel (i : nat) :
  forall (data : list Z) (r g b a : Z),
  Labs.pixel_at data i = Some (r, g, b, a) ->
  Labs.pixel_at (chroma_key data) i
  = Some (r, g, b,
          if ((255 - r) ^ 2 + (255 - g) ^ 2 + (255 - b) ^ 2 <? 2500)%Z
          then 0%Z else a).
Proof.
  induction i as [|i IH]; intros data r g b a Hpx.
  - unfold Labs.pixel_at in Hpx. simpl in Hpx.
    destruct data as [|r' [|g' [|b' [|a' rest]]]]; try discriminate.
    injection Hpx as -> -> -> ->.
    cbn [chroma_key]. rewrite near_white_square. reflexivity.
  - destruct (GrainFacts.pixel_at_short data i Hpx)
      as [r' [g' [b' [a' [rest ->]]]]].
    rewrite GrainFacts.pixel_at_next in Hpx.
    cbn [chroma_key]. rewrite GrainFacts.pixel_at_next. now apply IH.
Qed.

Lemma by_pixels (P : list Z -> Prop) :
  (forall data, (List.length data < 4)%nat -> P data) ->
  (forall r g b a rest, P rest -> P (r :: g :: b :: a :: rest)) ->
  forall data, P data.
Proof.
  intros Hshort Hstep.
  assert (H : forall n data, (List.length data <= n)%nat -> P data).
  { induction n as [|n IH]; intros d Hn.
    - apply Hshort. lia.
    - destruct d as [|r [|g [|b [|a rest]]]];
        try (apply Hshort; simpl; lia).
      apply Hstep, IH. simpl in Hn. lia. }
  intro data. now apply (H (List.length data)).
Qed.

Lemma chroma_key_short (data : list Z) :
  (List.length data < 4)%nat -> chroma_key data = data.
Proof.
  destruct data as [|r [|g [|b [|a rest]]]]; try reflexivity.
  simpl. lia.
Qed.

(** X6.  The chroma key of [processTransparency]: of a pixel it changes the
    alpha entry only, and only to 0; it clears a pixel exactly when the
    squared distance of its colour from white is below 2500, so every pixel
    whose channels are all 227 or more is cleared and no pixel with a
    channel of 205 or less is; the data keeps its length. *)
Theorem chroma_key_clears_near_white (data : list Z) (i : nat) (r g b a : Z) :
  Labs.pixel_at data i = Some (r, g, b, a) ->
  exists a',
    Labs.pixel_at (chroma_key data) i = Some (r, g, b, a')
    /\ a' = (if ((255 - r) ^ 2 + (255 - g) ^ 2 + (255 - b) ^ 2 <? 2500)%Z
             then 0 else a)%Z
    /\ ((227 <= r <= 255)%Z -> (227 <= g <= 255)%Z -> (227 <= b <= 255)%Z ->
        a' = 0%Z)
    /\ ((r <= 205)%Z \/ (g <= 205)%Z \/ (b <= 205)%Z -> a' = a)
    /\ List.length (chroma_key data) = List.length data.
Proof.
  intro Hpx. eexists. split; [apply chroma_key_pixel; exact Hpx|].
  split; [reflexivity|]. split; [|split].
  - intros Hr Hg Hb.
    assert (H : ((255 - r) ^ 2 + (255 - g) ^ 2 + (255 - b) ^ 2 <? 2500)%Z = true)
      by (apply Z.ltb_lt; rewrite !Z.pow_2_r; nia).
    now rewrite H.
  - intros H.
    assert (H' : ((255 - r) ^ 2 + (255 - g) ^ 2 + (255 - b) ^ 2 <? 2500)%Z = false)
      by (apply Z.ltb_ge; rewrite !Z.pow_2_r;
          pose proof (Z.square_nonneg (255 - r));
          pose proof (Z.square_nonneg (255 - g));
          pose proof (Z.square_nonneg (255 - b));
          destruct H as [H|[H|H]];
          [assert (50 * 50 <= (255 - r) * (255 - r))%Z
             by (apply Z.mul_le_mono_nonneg; lia)
          |assert (50 * 50 <= (255 - g) * (255 - g))%Z
             by (apply Z.mul_le_mono_nonneg; lia)
          |assert (50 * 50 <= (255 - b) * (255 - b))%Z
             by (apply Z.mul_le_mono_nonneg; lia)]; lia).
    now rewrite H'.
  - clear. induction data using by_pixels.
    + now rewrite (chroma_key_short data H).
    + cbn [chroma_key List.length]. now rewrite IHdata.
Qed.

Lemma chroma_key_clears_near_white_witness :
  Labs.pixel_at (chroma_key [250; 251; 249; 255;  200; 255; 255; 255]%Z) 0
  = Some (250, 251, 249, 0)%Z
  /\ Labs.pixel_at (chroma_key [250; 251; 249; 255;  200; 255; 255; 255]%Z) 1
     = Some (200, 255, 255, 255)%Z.
Proof.
  split.
  - destruct (@chroma_key_clears_near_white
                [250; 251; 249; 255;  200; 255; 255; 255]%Z 0
                250 251 249 255 eq_refl) as [a' [Hp [_ [H _]]]].
    rewrite Hp, H; [reflexivity|lia|lia|lia].
  - destruct (@chroma_key_clears_near_white
                [250; 251; 249; 255;  200; 255; 255; 255]%Z 1
                200 255 255 255 eq_refl) as [a' [Hp [_ [_ [H _]]]]].
    rewrite Hp, H; [reflexivity|left; lia].
Defined.

(** X7.  The chroma key loop of [processTransparency], run again over the data
    it produced, changes nothing: it reads the colour channels only, which
    it leaves alone. *)
Theorem chroma_key_idempotent (data : list Z) :
  chroma_key (chroma_key data) = chroma_key data.
Proof.
  induction data using by_pixels.
  - now rewrite !(chroma_key_short data H).
  - cbn [chroma_key]. rewrite IHdata.
    destruct (Z.sqrt _ <? 50)%Z; reflexivity.
Qed.

(** ** Text clean-up *)

Lemma prefix_app (p a b : string) :
  String.prefix p a = true -> String.prefix p (a ++ b) = true.
Proof.
  revert a. induction p as [|c p IH]; intros a H;
    [now destruct (a ++ b)|].
  destruct a as [|d a]; [discriminate|]. simpl in *.
  destruct (ascii_dec c d); [now apply IH|discriminate].
Qed.

Lemma includes_app_l (a b p : string) :
  String_includes (a ++ b) p = false -> String_includes a p = false.
Proof.
  induction a as [|c a IH]; intro H.
  - destruct p; [|reflexivity]. destruct b; discriminate.
  - cbn [String_includes append] in *.
    apply orb_false_iff in H. destruct H as [H1 H2].
    apply orb_false_iff. split; [|now apply IH].
    destruct (String.prefix p (String c a)) eqn:E; [|reflexivity].
    pose proof (@prefix_app p (String c a) b E) as E'. cbn [append] in E'. congruence.
Qed.

Lemma includes_tail (c : ascii) (s p : string) :
  String_includes (String c s) p = false -> String_includes s p = false.
Proof. cbn [String_includes]. intro H. now apply orb_false_iff in H. Qed.

Lemma trimStart_includes (s p : string) :
  String_includes s p = false -> String_includes (trimStart s) p = false.
Proof.
  induction s as [|c s IH]; intro H; [exact H|]. simpl.
  destruct (is_whitespace c); [|exact H].
  apply IH. now apply includes_tail in H.
Qed.

Lemma trimEnd_is_prefix (s : string) : exists t, s = trimEnd s ++ t.
Proof.
  induction s as [|c s [t IH]]; [now exists ""|]. simpl.
  destruct (trimEnd s) as [|d u] eqn:E.
  - destruct (is_whitespace c).
    + now exists (String c s).
    + exists s. reflexivity.
  - exists t. simpl. now rewrite IH at 1.
Qed.

Lemma trim_includes (s p : string) :
  String_includes s p = false -> String_includes (trim s) p = false.
Proof.
  intro H. unfold trim. apply trimStart_includes in H.
  destruct (trimEnd_is_prefix (trimStart s)) as [t Ht].
  rewrite Ht in H. now apply includes_app_l in H.
Qed.

Lemma remove_all_from_drop (pat : string) (k : nat) :
  forall s, remove_all_from pat k s = remove_all_from pat 0 (drop k s).
Proof.
  induction k as [|k IH]; intro s; [now destruct s|].
  destruct s as [|c s]; [reflexivity|]. simpl. apply IH.
Qed.

Lemma drop_length (k : nat) :
  forall s, (String.length (drop k s) <= String.length s)%nat.
Proof.
  induction k as [|k IH]; intro s; [now destruct s|].
  destruct s as [|c s]; [simpl; lia|]. simpl. specialize (IH s). lia.
Qed.

Lemma prefix_cons (a b : ascii) (p s : string) :
  String.prefix (String a p) (String b s)
  = if ascii_dec a b then String.prefix p s else false.
Proof. reflexivity. Qed.

Lemma prefix_nil_l (s : string) : String.prefix "" s = true.
Proof. now destruct s. Qed.

(** One step of the scan for fences. *)
Lemma fence_scan_other (c : ascii) (s : string) :
  c <> "`"%char ->
  remove_all "```" (String c s) = String c (remove_all "```" s).
Proof.
  intro Hc. unfold remove_all. cbn [remove_all_from]. rewrite prefix_cons.
  destruct (ascii_dec "`" c) as [E|_]; [now subst|reflexivity].
Qed.

Lemma fence_scan_tick (s : string) :
  String.prefix "``" s = false ->
  remove_all "```" (String "`" s) = String "`" (remove_all "```" s).
Proof.
  intro H. unfold remove_all. cbn [remove_all_from]. rewrite prefix_cons.
  destruct (ascii_dec "`" "`") as [_|N]; [|now elim N].
  now rewrite H.
Qed.

Lemma fence_scan_fence (s : string) :
  String.prefix "``" s = true ->
  remove_all "```" (String "`" s) = remove_all "```" (drop 2 s).
Proof.
  intro H. unfold remove_all. cbn [remove_all_from]. rewrite prefix_cons.
  destruct (ascii_dec "`" "`") as [_|N]; [|now elim N].
  rewrite H. apply remove_all_from_drop.
Qed.

(** What is left of a text that starts with no backtick, or with no two,
    starts with none, or with no two. *)
Lemma unfenced_no_backtick (s : string) :
  String.prefix "`" s = false ->
  String.prefix "`" (remove_all "```" s) = false.
Proof.
  destruct s as [|c s]; [reflexivity|]. rewrite prefix_cons.
  destruct (ascii_dec "`" c) as [E|N].
  - now rewrite prefix_nil_l.
  - intros _. rewrite fence_scan_other by congruence.
    rewrite prefix_cons. now destruct (ascii_dec "`" c).
Qed.

Lemma unfenced_no_two_backticks (s : string) :
  String.prefix "``" s = false ->
  String.prefix "``" (remove_all "```" s) = false.
Proof.
  destruct s as [|c s]; [reflexivity|]. rewrite prefix_cons.
  destruct (ascii_dec "`" c) as [<-|N].
  - intro H.
    rewrite fence_scan_tick.
    2:{ destruct s as [|d s]; [reflexivity|]. rewrite prefix_cons.
        change (String.prefix "`" (String d s)) with
          (if ascii_dec "`" d then String.prefix "" s else false) in H.
        destruct (ascii_dec "`" d); [|reflexivity].
        now rewrite prefix_nil_l in H. }
    rewrite prefix_cons. destruct (ascii_dec "`" "`"); [|reflexivity].
    now apply unfenced_no_backtick.
  - intros _. rewrite fence_scan_other by congruence.
    rewrite prefix_cons. now destruct (ascii_dec "`" c).
Qed.

Lemma remove_all_fence_free (n : nat) :
  forall s, (String.length s <= n)%nat ->
            String_includes (remove_all "```" s) "```" = false.
Proof.
  induction n as [|n IH]; intros s Hn.
  - destruct s; [reflexivity|simpl in Hn; lia].
  - destruct s as [|c s]; [reflexivity|].
    destruct (ascii_dec "`" c) as [<-|N].
    + destruct (String.prefix "``" s) eqn:Hp.
      * rewrite fence_scan_fence by exact Hp. apply IH.
        pose proof (drop_length 2 s). simpl in Hn. lia.
      * rewrite fence_scan_tick by exact Hp.
        cbn [String_includes]. apply orb_false_iff. split.
        -- rewrite prefix_cons. destruct (ascii_dec "`" "`"); [|reflexivity].
           now apply unfenced_no_two_backticks.
        -- apply IH. simpl in Hn. lia.
    + rewrite fence_scan_other by congruence.
      cbn [String_includes]. apply orb_false_iff. split.
      * rewrite prefix_cons. now destruct (ascii_dec "`" c).
      * apply IH. simpl in Hn. lia.
Qed.

(** X8.  [cleanJson] of [analyzeReference] and [refineBlocks]: the text handed
    to [JSON.parse] holds no Markdown code fence, and neither starts nor
    ends with whitespace. *)
Theorem cleanJson_has_no_code_fence (jsonStr : string) :
  String_includes (cleanJson jsonStr) "```" = false
  /\ trim (cleanJson jsonStr) = cleanJson jsonStr.
Proof.
  unfold cleanJson. split; [|apply trim_idem].
  apply trim_includes. now apply (@remove_all_fence_free (String.length (remove_all "```json" jsonStr))).
Qed.

(** ** The download name *)

Lemma toLowerCase_unit_idem (c : ascii) :
  toLowerCase_unit (toLowerCase_unit c) = toLowerCase_unit c.
Proof. destruct c as [[] [] [] [] [] [] [] []]; reflexivity. Qed.

Lemma toLowerCase_unit_whitespace (c : ascii) :
  is_whitespace (toLowerCase_unit c) = is_whitespace c.
Proof. destruct c as [[] [] [] [] [] [] [] []]; reflexivity. Qed.

Lemma Forall_chars_app (P : ascii -> Prop) (a b : string) :
  Forall P (list_ascii_of_string a) -> Forall P (list_ascii_of_string b) ->
  Forall P (list_ascii_of_string (a ++ b)).
Proof.
  intros Ha Hb. induction a as [|c a IH]; [exact Hb|].
  simpl in *. inversion Ha; subst. constructor; [assumption|now apply IH].
Qed.

Lemma replace_whitespace_runs_chars (inRun : bool) (s : string) :
  Forall (fun c => is_whitespace c = false)
         (list_ascii_of_string (replace_whitespace_runs "-" inRun s)).
Proof.
  revert inRun. induction s as [|c s IH]; intro inRun; [constructor|].
  simpl. destruct (is_whitespace c) eqn:W.
  - destruct inRun; simpl; [apply IH|constructor; [reflexivity|apply IH]].
  - simpl. constructor; [exact W|apply IH].
Qed.

Lemma toLowerCase_chars (s : string) :
  Forall (fun c => is_whitespace c = false) (list_ascii_of_string s) ->
  Forall (fun c => is_whitespace c = false /\ toLowerCase_unit c = c)
         (list_ascii_of_string (toLowerCase s)).
Proof.
  induction s as [|c s IH]; intro H; [constructor|].
  simpl in *. inversion H; subst. constructor; [|now apply IH].
  split; [now rewrite toLowerCase_unit_whitespace|apply toLowerCase_unit_idem].
Qed.

(** X9.  [handleDownload]: whatever the file is called, the name the image is
    downloaded under holds no whitespace and no capital letter. *)
Theorem download_name_is_plain (fileName : string) :
  Forall (fun c => is_whitespace c = false /\ toLowerCase_unit c = c)
         (list_ascii_of_string (download_name fileName)).
Proof.
  unfold download_name.
  apply Forall_chars_app; [repeat constructor|].
  apply Forall_chars_app; [|repeat constructor].
  apply toLowerCase_chars, replace_whitespace_runs_chars.
Qed.

(** ** The prompt compiler: what it does not depend on *)

Lemma find_filter_and {A : Type} (P Q : A -> bool) (l : list A) :
  find (fun x => P x && Q x) (filter Q l) = find (fun x => P x && Q x) l.
Proof.
  induction l as [|x l IH]; [reflexivity|]. simpl.
  destruct (Q x) eqn:E; simpl; rewrite ?E, IH.
  - reflexivity.
  - now rewrite andb_false_r.
Qed.

Lemma find_active_filter (t : BlockType) (l : list BlockState) :
  find (is_active_of t) (filter isActive l) = find (is_active_of t) l.
Proof. apply (find_filter_and (fun b => BlockType_eqb (b_type b) t)). Qed.

Lemma insert_by_least {A : Type} (p : A -> nat) (x : A) (l : list A) :
  Forall (fun z => (p x <= p z)%nat) l -> insert_by p x l = x :: l.
Proof.
  destruct l as [|y l]; [reflexivity|]. intro H. simpl.
  apply Forall_inv in H. apply Nat.leb_le in H. now rewrite H.
Qed.

Lemma filter_insert_by {A : Type} (p : A -> nat) (f : A -> bool) (x : A)
    (l : list A) :
  StronglySorted (prio_le p) l ->
  filter f (insert_by p x l)
  = if f x then insert_by p x (filter f l) else filter f l.
Proof.
  induction 1 as [|y l Hs IH Hall].
  - simpl. now destruct (f x).
  - cbn [insert_by]. destruct (Nat.leb_spec (p x) (p y)) as [Hle|Hgt].
    + change (filter f (x :: y :: l))
        with (if f x then x :: filter f (y :: l) else filter f (y :: l)).
      destruct (f x); [|reflexivity].
      rewrite insert_by_least; [reflexivity|].
      apply incl_Forall with (l1 := y :: l); [apply incl_filter|].
      constructor; [exact Hle|].
      eapply Forall_impl; [|exact Hall]. unfold prio_le. intros; lia.
    + cbn [filter]. rewrite IH.
      destruct (f x), (f y); try reflexivity.
      cbn [insert_by]. apply Nat.leb_gt in Hgt. now rewrite Hgt.
Qed.

(** Filtering commutes with the stable sort. *)
Lemma filter_sort_by {A : Type} (p : A -> nat) (f : A -> bool) (l : list A) :
  filter f (sort_by p l) = sort_by p (filter f l).
Proof.
  induction l as [|x l IH]; [reflexivity|]. cbn [sort_by filter].
  rewrite filter_insert_by by apply sort_by_sorted.
  rewrite IH. now destruct (f x).
Qed.

(** Two sorted lists that agree priority by priority are equal. *)
Lemma sorted_unique {A : Type} (p : A -> nat) (l1 : list A) :
  forall l2,
  StronglySorted (prio_le p) l1 -> StronglySorted (prio_le p) l2 ->
  (forall k, filter (fun a => p a =? k)%nat l1
             = filter (fun a => p a =? k)%nat l2) ->
  l1 = l2.
Proof.
  induction l1 as [|a l1 IH]; intros l2 H1 H2 Hk.
  - destruct l2 as [|b l2]; [reflexivity|].
    specialize (Hk (p b)). simpl in Hk. now rewrite Nat.eqb_refl in Hk.
  - destruct l2 as [|b l2].
    { specialize (Hk (p a)). simpl in Hk. now rewrite Nat.eqb_refl in Hk. }
    apply StronglySorted_inv in H1. destruct H1 as [H1 Ha].
    apply StronglySorted_inv in H2. destruct H2 as [H2 Hb].
    assert (Hnone : forall (x : A) (l : list A),
              Forall (prio_le p x) l -> forall k, (k < p x)%nat ->
              filter (fun a => p a =? k)%nat l = []).
    { intros x l Hall k Hlt. induction Hall as [|y l Hy _ IHl]; [reflexivity|].
      simpl. unfold prio_le in Hy.
      destruct (Nat.eqb_spec (p y) k); [lia|exact IHl]. }
    assert (Hp : p a = p b).
    { destruct (Nat.lt_trichotomy (p a) (p b)) as [Hlt|[E|Hlt]]; [|exact E|].
      - specialize (Hk (p a)). simpl in Hk. rewrite Nat.eqb_refl in Hk.
        destruct (Nat.eqb_spec (p b) (p a)); [lia|].
        now rewrite (Hnone b l2 Hb (p a) Hlt) in Hk.
      - specialize (Hk (p b)). simpl in Hk. rewrite Nat.eqb_refl in Hk.
        destruct (Nat.eqb_spec (p a) (p b)); [lia|].
        now rewrite (Hnone a l1 Ha (p b) Hlt) in Hk. }
    assert (Hab : a = b).
    { specialize (Hk (p a)). simpl in Hk. rewrite <- Hp in Hk.
      rewrite Nat.eqb_refl in Hk. now injection Hk. }
    subst b. f_equal. apply IH; [exact H1|exact H2|].
    intro k. specialize (Hk k). simpl in Hk.
    destruct (p a =? k)%nat; [now injection Hk|exact Hk].
Qed.

Lemma priority_of_type (b : BlockState) (t : BlockType) :
  (block_priority b =? TYPE_PRIORITY t)%nat = BlockType_eqb (b_type b) t.
Proof. unfold block_priority. now destruct (b_type b), t. Qed.

Lemma priority_has_type (k : nat) :
  (exists t, k = TYPE_PRIORITY t)
  \/ forall b, (block_priority b =? k)%nat = false.
Proof.
  do 8 (destruct k as [|k];
        [left;
         first [now exists SUBJECT | now exists CAMERA | now exists LIGHTING
               | now exists BACKGROUND | now exists FX | now exists STYLE
               | now exists POST_PROCESSING | now exists MOOD]|]).
  right. intro b. unfold block_priority. now destruct (b_type b).
Qed.

(** The sorted list is settled by the blocks of each type, in their order. *)
Lemma sort_by_types (l1 l2 : list BlockState) :
  (forall t, of_type t l1 = of_type t l2) ->
  sort_by block_priority l1 = sort_by block_priority l2.
Proof.
  intro H. apply (sorted_unique (p := block_priority));
    try apply sort_by_sorted.
  intro k. rewrite !sort_by_stable.
  destruct (priority_has_type k) as [[t ->]|Hnone].
  - specialize (H t). unfold of_type in H.
    rewrite (filter_ext _ (fun b => BlockType_eqb (b_type b) t)
                        (fun b => priority_of_type b t)).
    rewrite (filter_ext _ (fun b => BlockType_eqb (b_type b) t)
                        (fun b => priority_of_type b t)).
    exact H.
  - rewrite !(filter_ext _ (fun _ => false) Hnone).
    clear. induction l1; induction l2; simpl; auto.
Qed.

Lemma find_active_of_type (t : BlockType) (l : list BlockState) :
  find (is_active_of t) l = find isActive (of_type t l).
Proof.
  induction l as [|b l IH]; [reflexivity|]. unfold of_type, is_active_of in *.
  simpl. destruct (BlockType_eqb (b_type b) t); simpl; [|exact IH].
  destruct (isActive b); [reflexivity|exact IH].
Qed.

Lemma find_active_sorted (t : BlockType) (l : list BlockState) :
  find (is_active_of t) (sort_by block_priority l) = find (is_active_of t) l.
Proof.
  rewrite !find_active_of_type. f_equal. unfold of_type.
  rewrite <- !(filter_ext _ _ (fun b => priority_of_type b t)).
  apply sort_by_stable.
Qed.

(** A block's clause reads the sorted list only to find, for a type, its
    first active block. *)
Lemma renderBlock_ext (l1 l2 : list BlockState) (aspectRatio : string)
    (block : BlockState) :
  (forall t, find (is_active_of t) l1 = find (is_active_of t) l2) ->
  renderBlock l1 aspectRatio block = renderBlock l2 aspectRatio block.
Proof.
  intro H. unfold renderBlock.
  assert (Ha : activeSections l1 block = activeSections l2 block).
  { unfold activeSections. apply filter_ext. intro entry.
    unfold sectionIsActive.
    destruct (find_section _ (fst entry)) as [secDef|]; [|reflexivity].
    destruct (_ && _); [reflexivity|].
    destruct (condition secDef) as [c|]; [|reflexivity].
    unfold isSectionVisible, controllingBlock.
    destruct (c_blockType c) as [t|]; [now rewrite H|reflexivity]. }
  now rewrite Ha.
Qed.

Lemma mapM_ext {A B : Type} (f g : A -> option B) (l : list A) :
  (forall a, f a = g a) -> mapM f l = mapM g l.
Proof.
  intro H. induction l as [|a l IH]; [reflexivity|].
  simpl. now rewrite H, IH.
Qed.

Lemma filter_idem {A : Type} (f : A -> bool) (l : list A) :
  filter f (filter f l) = filter f l.
Proof.
  induction l as [|a l IH]; [reflexivity|]. simpl.
  destruct (f a) eqn:E; simpl; [now rewrite E, IH|exact IH].
Qed.

Lemma filter_filter_implied {A : Type} (f g : A -> bool) (l : list A) :
  (forall a, f a = true -> g a = true) ->
  filter f (filter g l) = filter f l.
Proof.
  intro H. induction l as [|a l IH]; [reflexivity|]. simpl.
  destruct (g a) eqn:Eg; simpl.
  - now rewrite IH.
  - destruct (f a) eqn:Ef; [|exact IH].
    apply H in Ef. congruence.
Qed.

Lemma filter_implied_outer {A : Type} (f g : A -> bool) (l : list A) :
  (forall a, f a = true -> g a = true) ->
  filter g (filter f l) = filter f l.
Proof.
  intro H. induction l as [|a l IH]; [reflexivity|]. simpl.
  destruct (f a) eqn:Ef; [|exact IH].
  simpl. now rewrite (H a Ef), IH.
Qed.

Lemma blocksToProcess_active (locals globals : list BlockState)
    (useBaseStyle : bool) :
  filter isActive (blocksToProcess locals globals useBaseStyle)
  = blocksToProcess (filter isActive locals) (filter isActive globals)
                    useBaseStyle.
Proof.
  unfold blocksToProcess. rewrite filter_idem.
  set (keep := fun gb : BlockState =>
         if negb (isActive gb) then false
         else if singleActiveInstance (BLOCK_DEFINITIONS (b_type gb))
                 && has_type (map b_type (filter isActive locals)) (b_type gb)
         then false else true).
  assert (Hk : forall gb, keep gb = true -> isActive gb = true).
  { intros gb. unfold keep. now destruct (isActive gb). }
  assert (Hg : filter isActive (filter keep globals) = filter keep globals)
    by exact (@filter_implied_outer _ keep isActive globals Hk).
  destruct useBaseStyle; cbn [andb]; [|reflexivity].
  destruct (0 <? List.length globals)%nat eqn:Hn.
  - rewrite filter_app, Hg.
    destruct (0 <? List.length (filter isActive globals))%nat eqn:Hn'.
    + now rewrite (@filter_filter_implied _ keep isActive globals Hk).
    + destruct (filter isActive globals) as [|g gs] eqn:Hf; [|discriminate].
      rewrite <- (@filter_filter_implied _ keep isActive globals Hk), Hf.
      reflexivity.
  - destruct globals; [reflexivity|discriminate].
Qed.

(** X10.  [constructPromptFromBlocks] reads active blocks only: switching a block
    off has the effect on the prompt that deleting it has, whether the
    block is one of the document or a global one. *)
Theorem prompt_ignores_inactive_blocks (localBlocks : list BlockState)
    (baseStyle : string) (useBaseStyle : bool) (globalBlocks : list BlockState)
    (aspectRatio : string) :
  constructPromptFromBlocks localBlocks baseStyle useBaseStyle globalBlocks
                            aspectRatio
  = constructPromptFromBlocks (filter isActive localBlocks) baseStyle
                              useBaseStyle (filter isActive globalBlocks)
                              aspectRatio.
Proof.
  unfold constructPromptFromBlocks, promptParts. f_equal.
  rewrite <- blocksToProcess_active.
  set (L := blocksToProcess localBlocks globalBlocks useBaseStyle).
  assert (Ht : isTransparencyEnabled (filter isActive L)
               = isTransparencyEnabled L).
  { unfold isTransparencyEnabled. now rewrite find_active_filter. }
  rewrite Ht. rewrite <- !filter_sort_by, filter_idem.
  rewrite (@mapM_ext _ _
             (renderBlock (filter isActive (sort_by block_priority L))
                          aspectRatio)
             (renderBlock (sort_by block_priority L) aspectRatio));
    [reflexivity|].
  intro b. apply renderBlock_ext. intro t. apply find_active_filter.
Qed.

Lemma has_type_of_type (t : BlockType) (l : list BlockState) :
  has_type (map b_type (filter isActive l)) t
  = match find isActive (of_type t l) with Some _ => true | None => false end.
Proof.
  induction l as [|b l IH]; [reflexivity|]. unfold of_type in *. simpl.
  destruct (isActive b) eqn:Ea; simpl.
  - destruct (BlockType_eqb (b_type b) t) eqn:Et.
    + apply BlockType_eqb_eq in Et. subst t.
      rewrite BlockType_eqb_refl. simpl. now rewrite Ea.
    + assert (Et' : BlockType_eqb t (b_type b) = false).
      { destruct (BlockType_eqb t (b_type b)) eqn:E; [|reflexivity].
        apply BlockType_eqb_eq in E. subst t.
        now rewrite BlockType_eqb_refl in Et. }
      unfold has_type in *. simpl. rewrite Et'. exact IH.
  - destruct (BlockType_eqb (b_type b) t); simpl; [rewrite Ea|]; exact IH.
Qed.

Lemma of_type_app (t : BlockType) (l1 l2 : list BlockState) :
  of_type t (l1 ++ l2) = (of_type t l1 ++ of_type t l2)%list.
Proof. apply filter_app. Qed.

(** X11.  The prompt depends on the blocks of a document only through the
    sequence of the blocks of each type: two documents whose blocks of
    every type are the same, in the same order, compile to the same prompt,
    however the types are interleaved. *)
Theorem prompt_depends_on_order_within_types
    (localBlocks1 localBlocks2 : list BlockState) (baseStyle : string)
    (useBaseStyle : bool) (globalBlocks : list BlockState)
    (aspectRatio : string) :
  (forall t, of_type t localBlocks1 = of_type t localBlocks2) ->
  constructPromptFromBlocks localBlocks1 baseStyle useBaseStyle globalBlocks
                            aspectRatio
  = constructPromptFromBlocks localBlocks2 baseStyle useBaseStyle globalBlocks
                              aspectRatio.
Proof.
  intro H. unfold constructPromptFromBlocks, promptParts. f_equal.
  assert (HL : forall t,
            of_type t (blocksToProcess localBlocks1 globalBlocks useBaseStyle)
            = of_type t (blocksToProcess localBlocks2 globalBlocks useBaseStyle)).
  { intro t. unfold blocksToProcess.
    destruct (useBaseStyle && _); [|apply H].
    rewrite !of_type_app, H. f_equal. f_equal. apply filter_ext. intro gb.
    now rewrite !has_type_of_type, H. }
  rewrite (sort_by_types _ _ HL).
  assert (Ht : isTransparencyEnabled
                 (blocksToProcess localBlocks1 globalBlocks useBaseStyle)
               = isTransparencyEnabled
                   (blocksToProcess localBlocks2 globalBlocks useBaseStyle)).
  { unfold isTransparencyEnabled. now rewrite !find_active_of_type, HL. }
  now rewrite Ht.
Qed.

Lemma prompt_depends_on_order_within_types_witness :
  constructPromptFromBlocks ex_subject_first "" false [] "1:1"
  = constructPromptFromBlocks ex_background_first "" false [] "1:1".
Proof.
  apply (@prompt_depends_on_order_within_types
           ex_subject_first ex_background_first "" false [] "1:1").
  intro t. destruct t; reflexivity.
Defined.

(** ** The inspector and the compiler agree on conditions *)

(** X12.  [visibleSections] of the inspector and the condition test of
    [constructPromptFromBlocks], given the same blocks (at least one): the
    inspector shows a conditional section exactly when the compiler finds
    its condition met, the sort the compiler applies first making no
    difference; so every section the compiler renders of a block is one the
    inspector shows. *)
Theorem inspector_and_compiler_agree_on_conditions (block : BlockState)
    (allBlocks : list BlockState) :
  allBlocks <> [] ->
  (forall section,
     sectionIsShown block allBlocks section
     = match condition section with
       | Some c => isSectionVisible (sort_by block_priority allBlocks) block c
       | None => true
       end)
  /\ (forall entry,
        In entry (activeSections (sort_by block_priority allBlocks) block) ->
        exists section,
          s_id section = fst entry
          /\ In section (visibleSections block allBlocks)).
Proof.
  intro Hne.
  assert (Hshown : forall section,
     sectionIsShown block allBlocks section
     = match condition section with
       | Some c => isSectionVisible (sort_by block_priority allBlocks) block c
       | None => true
       end).
  { intro section. unfold sectionIsShown, isSectionVisible, controllingBlock.
    destruct (condition section) as [c|]; [|reflexivity].
    destruct (c_blockType c) as [t|]; [|reflexivity].
    destruct allBlocks as [|b0 rest]; [now elim Hne|].
    cbn [List.length Nat.ltb Nat.leb]. now rewrite find_active_sorted. }
  split; [exact Hshown|].
  intros entry Hin. unfold activeSections in Hin.
  apply filter_In in Hin. destruct Hin as [_ Hact].
  unfold sectionIsActive in Hact.
  destruct (find_section _ (fst entry)) as [secDef|] eqn:Hf; [|discriminate].
  unfold find_section in Hf. pose proof (find_some _ _ Hf) as [Hin Hid].
  exists secDef. split; [now apply String.eqb_eq|].
  unfold visibleSections. apply filter_In. split; [exact Hin|].
  rewrite Hshown. destruct (_ && _); [discriminate|].
  now destruct (condition secDef).
Qed.

Lemma inspector_and_compiler_agree_on_conditions_witness :
  sectionIsShown ex_mood ex_scene
    (mkSection "emotion" "Emotion" false
       (Some (mkCondition (Some SUBJECT) "core" "category" (CondSet human_like)))
       [ mkField "primary" "Feeling" FText (VStr "");
         mkField "intensity" "Intensity" FSlider (VNum 50) ])
  = true.
Proof.
  rewrite (proj1 (@inspector_and_compiler_agree_on_conditions
                    ex_mood ex_scene ltac:(discriminate))).
  reflexivity.
Defined.

(** ** The compiler on blocks that are switched off *)

(** X13.  The compiler returns a prompt as soon as the blocks that are switched
    on have fields of the declared shapes: a block that is switched off may
    hold anything, a [null] included. *)
Theorem prompt_needs_active_blocks_well_typed
    (localBlocks globalBlocks : list BlockState) (baseStyle aspectRatio : string)
    (useBaseStyle : bool) :
  (forall b, In b localBlocks -> isActive b = true ->
             block_well_typed b = true) ->
  (forall b, In b globalBlocks -> isActive b = true ->
             block_well_typed b = true) ->
  exists out,
    constructPromptFromBlocks localBlocks baseStyle useBaseStyle globalBlocks
      aspectRatio = Some out.
Proof.
  intros Hl Hg. unfold constructPromptFromBlocks, promptParts.
  set (toProcess := blocksToProcess localBlocks globalBlocks useBaseStyle).
  set (sortedBlocks := sort_by block_priority toProcess).
  destruct (@mapM_total _ _ (renderBlock sortedBlocks aspectRatio)
              (filter isActive sortedBlocks)) as [r ->].
  - intros b Hb. apply renderBlock_total.
    apply filter_In in Hb. destruct Hb as [Hb Hon].
    apply (Permutation_in _
             (Permutation_sym (sort_by_perm block_priority toProcess))) in Hb.
    unfold toProcess, blocksToProcess in Hb.
    destruct (useBaseStyle && _); [|now apply Hl].
    apply in_app_or in Hb. destruct Hb as [Hb|Hb]; [|now apply Hl].
    apply filter_In in Hb. now apply Hg.
  - simpl. now eexists.
Qed.

Lemma prompt_needs_active_blocks_well_typed_witness :
  block_well_typed ex_broken_off = false
  /\ exists out,
       constructPromptFromBlocks [ex_subject; ex_broken_off] "" true []
         "1:1" = Some out.
Proof.
  split; [reflexivity|].
  apply prompt_needs_active_blocks_well_typed.
  - intros b [<-|[<-|[]]]; [reflexivity|discriminate].
  - intros b [].
Defined.

(** ** The editor: deleting and duplicating blocks *)

Lemma some_id_filter_out (bs : list BlockState) (id : string) :
  some_id (filter (fun b => negb (String.eqb (b_id b) id)) bs) id = false.
Proof.
  unfold some_id. induction bs as [|b bs IH]; [reflexivity|]. simpl.
  destruct (String.eqb (b_id b) id) eqn:E; simpl; [exact IH|].
  now rewrite E.
Qed.

Lemma active_count_filter_le (t : BlockType) (f : BlockState -> bool)
    (bs : list BlockState) :
  (active_count t (filter f bs) <= active_count t bs)%nat.
Proof.
  unfold active_count. induction bs as [|b bs IH]; [simpl; lia|]. simpl.
  destruct (f b); simpl; destruct (is_active_of t b); simpl; lia.
Qed.

Lemma filter_fresh_id (bs : list BlockState) (id : string) :
  some_id bs id = false ->
  filter (fun b => negb (String.eqb (b_id b) id)) bs = bs.
Proof.
  unfold some_id. induction bs as [|b bs IH]; [reflexivity|]. simpl.
  intro H. apply orb_false_iff in H. destruct H as [H1 H2].
  rewrite H1. simpl. now rewrite IH.
Qed.

(** X14.  [removeBlock]: it never touches the global blocks, and refuses a global
    id, leaving the document as it is; for any other id it deletes the
    blocks of that id and no other, the selection then no longer names the
    id (the selection "general" is no block), and a document with at most
    one active block per single-instance type stays one. *)
Theorem removeBlock_deletes_local_blocks_only (st : EditorState)
    (id : string) :
  let st' := removeBlock st id in
  globalBlocks st' = globalBlocks st
  /\ (some_id (globalBlocks st) id = true -> blocks st' = blocks st)
  /\ (some_id (globalBlocks st) id = false ->
      some_id (blocks st') id = false
      /\ (id <> "general" -> selectedBlockId st' <> Some id)
      /\ forall b, In b (blocks st') <-> In b (blocks st) /\ b_id b <> id)
  /\ (single_active (blocks st) -> single_active (blocks st')).
Proof.
  unfold removeBlock.
  destruct (some_id (globalBlocks st) id) eqn:Hg; cbn [blocks globalBlocks
    selectedBlockId].
  - repeat split; try discriminate; auto.
  - split; [reflexivity|]. split; [discriminate|]. split.
    + intros _. split; [apply some_id_filter_out|]. split.
      * intro Hid.
        destruct (selectedBlockId st) as [sel|] eqn:Hsel; cbn.
        -- destruct (String.eqb_spec sel id) as [E|E]; congruence.
        -- discriminate.
      * intro b. rewrite filter_In. split; intros [H1 H2]; split; auto.
        -- intro E. rewrite E, String.eqb_refl in H2. discriminate.
        -- apply negb_true_iff. now apply String.eqb_neq.
    + intros Hrule t Ht. specialize (Hrule t Ht).
      pose proof (active_count_filter_le t
                    (fun b => negb (String.eqb (b_id b) id)) (blocks st)).
      lia.
Qed.

Lemma some_id_deactivate_type (t : BlockType) (bs : list BlockState)
    (id : string) :
  some_id (deactivate_type t bs) id = some_id bs id.
Proof.
  unfold some_id, deactivate_type. induction bs as [|b bs IH]; [reflexivity|].
  simpl. rewrite IH. now destruct (_ && _).
Qed.

Lemma deactivate_type_count (t : BlockType) (bs : list BlockState) :
  active_count t (deactivate_type t bs) = 0%nat.
Proof.
  unfold active_count, deactivate_type.
  induction bs as [|b bs IH]; [reflexivity|]. simpl.
  unfold is_active_of at 1.
  destruct (BlockType_eqb (b_type b) t) eqn:Et;
    destruct (isActive b) eqn:Ea; simpl; rewrite ?Et, ?Ea; simpl; exact IH.
Qed.

(** X15.  [addBlock] followed by [removeBlock] of the block just added: for a
    type that may have several active instances the document is as before;
    for a single-instance type the blocks of the type that [addBlock]
    switched off stay off, so the document is left with no active block of
    the type. *)
Theorem add_then_remove_leaves_type_inactive (st : EditorState)
    (type : BlockType) (now : Z) :
  some_id (globalBlocks st) ("block-" ++ string_of_Z now) = false ->
  some_id (blocks st) ("block-" ++ string_of_Z now) = false ->
  let st' := removeBlock (addBlock st type now) ("block-" ++ string_of_Z now) in
  blocks st'
  = (if singleActiveInstance (BLOCK_DEFINITIONS type)
     then deactivate_type type (blocks st) else blocks st)
  /\ (singleActiveInstance (BLOCK_DEFINITIONS type) = true ->
      active_count type (blocks st') = 0%nat)
  /\ selectedBlockId st' = Some "general".
Proof.
  intros Hg Hl. unfold removeBlock, addBlock, insertNewBlock.
  cbn [globalBlocks blocks selectedBlockId b_id b_type]. rewrite Hg.
  cbn [blocks selectedBlockId option_string_eqb].
  rewrite String.eqb_refl. unfold push. rewrite filter_app.
  cbn [filter b_id]. rewrite String.eqb_refl. cbn [negb]. rewrite app_nil_r.
  assert (Hblocks :
    filter (fun b => negb (String.eqb (b_id b) ("block-" ++ string_of_Z now)))
           (if singleActiveInstance (BLOCK_DEFINITIONS type)
            then map (fun b => if BlockType_eqb (b_type b) type && isActive b
                               then set_isActive b false else b) (blocks st)
            else blocks st)
    = (if singleActiveInstance (BLOCK_DEFINITIONS type)
       then deactivate_type type (blocks st) else blocks st)).
  { destruct (singleActiveInstance (BLOCK_DEFINITIONS type)).
    - apply (filter_fresh_id (deactivate_type type (blocks st))).
      now rewrite some_id_deactivate_type.
    - now apply filter_fresh_id. }
  rewrite Hblocks. split; [reflexivity|]. split; [|reflexivity].
  intro Hs. rewrite Hs. apply deactivate_type_count.
Qed.

Lemma add_then_remove_leaves_type_inactive_witness :
  blocks (removeBlock (addBlock (mkEditor [ex_background] [] true None None)
                                BACKGROUND 9)
                      ("block-" ++ string_of_Z 9))
  = [ex_background_off].
Proof.
  exact (proj1 (@add_then_remove_leaves_type_inactive
                  (mkEditor [ex_background] [] true None None) BACKGROUND 9
                  eq_refl eq_refl)).
Defined.

Lemma findIndex_split (id : string) (l1 : list BlockState) (orig : BlockState)
    (l2 : list BlockState) :
  b_id orig = id -> (forall b, In b l1 -> b_id b <> id) ->
  findIndex (fun b => String.eqb (b_id b) id) (l1 ++ orig :: l2)
  = Some (List.length l1).
Proof.
  intros Ho Hl1. induction l1 as [|a l1 IH]; simpl.
  - now rewrite Ho, String.eqb_refl.
  - destruct (String.eqb_spec (b_id a) id) as [E|E].
    + exfalso. apply (Hl1 a); [now left|exact E].
    + rewrite IH; [reflexivity|]. intros b Hb. apply Hl1. now right.
Qed.

Lemma splice_after_split {A : Type} (x : A) (l1 : list A) (o : A)
    (l2 : list A) :
  splice_after (Some (List.length l1)) x (l1 ++ o :: l2)
  = (l1 ++ o :: x :: l2)%list.
Proof.
  unfold splice_after.
  replace (S (List.length l1)) with (List.length (l1 ++ [o]))
    by (rewrite length_app; simpl; lia).
  replace (l1 ++ o :: l2)%list with ((l1 ++ [o]) ++ l2)%list
    by (now rewrite <- app_assoc).
  rewrite firstn_app, firstn_all, Nat.sub_diag, skipn_app, skipn_all,
    Nat.sub_diag. cbn [firstn skipn app]. rewrite app_nil_r, <- app_assoc.
  reflexivity.
Qed.

Lemma findIndex_none (id : string) (bs : list BlockState) :
  some_id bs id = false ->
  findIndex (fun b => String.eqb (b_id b) id) bs = None.
Proof.
  unfold some_id. induction bs as [|b bs IH]; [reflexivity|]. simpl.
  intro H. apply orb_false_iff in H. destruct H as [H1 H2].
  now rewrite H1, IH.
Qed.

(** X16.  [duplicateBlock]: the copy of a block of the document is put right
    after the first block of that id, every other block keeping its place;
    it gets a new id and the numbered label of its type, carries the
    sections of the original, and becomes the selection.  A block whose id
    is not in the document is copied to the front. *)
Theorem duplicate_is_placed_after_original (st : EditorState)
    (block : BlockState) (now : Z) :
  some_id (globalBlocks st) (b_id block) = false ->
  let st' := duplicateBlock st block now in
  let copy :=
    mkBlock ("block-" ++ string_of_Z now) (b_type block)
            (Some (d_label (BLOCK_DEFINITIONS (b_type block)) ++ " "
                     ++ string_of_nat (count_of_type (b_type block) (blocks st) + 1)))
            (if singleActiveInstance (BLOCK_DEFINITIONS (b_type block))
             then false else isActive block)
            (b_sections block) (customValues block) (referenceImage block)
            (isGlobal block) in
  selectedBlockId st' = Some (b_id copy)
  /\ (forall l1 orig l2,
        blocks st = (l1 ++ orig :: l2)%list -> b_id orig = b_id block ->
        (forall b, In b l1 -> b_id b <> b_id block) ->
        blocks st' = (l1 ++ orig :: copy :: l2)%list)
  /\ (some_id (blocks st) (b_id block) = false ->
      blocks st' = copy :: blocks st).
Proof.
  intro Hg. unfold duplicateBlock. rewrite Hg.
  cbn [blocks selectedBlockId b_id]. split; [reflexivity|].
  set (copy := mkBlock _ _ _ _ _ _ _ _). split.
  - intros l1 orig l2 Hsplit Ho Hl1.
    rewrite (f_equal (findIndex (fun b => String.eqb (b_id b) (b_id block)))
                     Hsplit).
    rewrite (@findIndex_split (b_id block) l1 orig l2 Ho Hl1).
    transitivity (splice_after (Some (List.length l1)) copy (l1 ++ orig :: l2));
      [f_equal; exact Hsplit|apply splice_after_split].
  - intro Hl. rewrite (@findIndex_none (b_id block) (blocks st) Hl).
    reflexivity.
Qed.

Lemma duplicate_is_placed_after_original_witness :
  map b_id (blocks (duplicateBlock
                      (mkEditor [ex_subject; ex_background; ex_mood] [] true
                                None None)
                      ex_background 9))
  = ["block-1"; "block-2"; "block-9"; "block-3"].
Proof.
  rewrite (proj1 (proj2 (@duplicate_is_placed_after_original
                           (mkEditor [ex_subject; ex_background; ex_mood] []
                                     true None None)
                           ex_background 9 eq_refl))
                 [ex_subject] ex_background [ex_mood] eq_refl eq_refl).
  - reflexivity.
  - intros b [<-|[]]. discriminate.
Defined.

(** ** The inspector: editing a block *)

Lemma section_field_set_section (block : BlockState) (sectionId : string)
    (state : SectionState) (s f : string) :
  section_field (set_section block sectionId state) s f
  = if String.eqb sectionId s then obj_get (st_fields state) f
    else section_field block s f.
Proof.
  unfold section_field, set_section. cbn [b_sections].
  rewrite obj_get_set. now destruct (String.eqb sectionId s).
Qed.

Lemma sectionState_of_fields (block : BlockState) (s f : string) :
  obj_get (st_fields (sectionState_of block s)) f = section_field block s f.
Proof.
  unfold sectionState_of, section_field.
  now destruct (obj_get (b_sections block) s).
Qed.

Lemma sectionState_of_set_section (block : BlockState) (sectionId : string)
    (state : SectionState) :
  sectionState_of (set_section block sectionId state) sectionId = state.
Proof.
  unfold sectionState_of, set_section. cbn [b_sections].
  now rewrite obj_get_set, String.eqb_refl.
Qed.

Lemma isTransparencyEnabled_ext (b b' : BlockState) (l1 l2 : list BlockState) :
  b_type b' = b_type b -> isActive b' = isActive b ->
  section_field b' "transparency" "remove_bg"
  = section_field b "transparency" "remove_bg" ->
  isTransparencyEnabled (l1 ++ b' :: l2) = isTransparencyEnabled (l1 ++ b :: l2).
Proof.
  intros Ht Ha Hf. unfold isTransparencyEnabled.
  induction l1 as [|a l1 IH]; cbn [app find].
  - unfold is_active_of. rewrite Ht, Ha.
    destruct (_ && _); [now rewrite Hf|reflexivity].
  - destruct (is_active_of BACKGROUND a); [reflexivity|exact IH].
Qed.

(** X17.  [updateField] and [toggleSection]: a field edit writes the one field and
    leaves every other field, and the section's switch, as they were; a
    section switch leaves every field as it was, so it never changes whether
    the compiler asks for an isolated background. *)
Theorem inspector_edit_touches_one_member (block : BlockState)
    (sectionId fieldId : string) (value : jsval) (on : bool) :
  (let b' := updateField block sectionId fieldId value in
   section_field b' sectionId fieldId = Some value
   /\ (forall s f, s <> sectionId \/ f <> fieldId ->
                   section_field b' s f = section_field block s f)
   /\ enabled (sectionState_of b' sectionId)
      = enabled (sectionState_of block sectionId))
  /\ (let b' := toggleSection block sectionId on in
      enabled (sectionState_of b' sectionId) = Some (VBool on)
      /\ (forall s f, section_field b' s f = section_field block s f)
      /\ forall l1 l2,
           isTransparencyEnabled (l1 ++ b' :: l2)
           = isTransparencyEnabled (l1 ++ block :: l2)).
Proof.
  split; cbv zeta.
  - unfold updateField. split; [|split].
    + rewrite section_field_set_section, String.eqb_refl. cbn [st_fields].
      now rewrite obj_get_set, String.eqb_refl.
    + intros s f Hsf. rewrite section_field_set_section.
      destruct (String.eqb_spec sectionId s) as [<-|Hs]; [|reflexivity].
      cbn [st_fields]. rewrite obj_get_set.
      destruct (String.eqb_spec fieldId f) as [<-|Hf].
      * destruct Hsf as [H|H]; now elim H.
      * apply sectionState_of_fields.
    + now rewrite sectionState_of_set_section.
  - unfold toggleSection.
    assert (Hfields : forall s f,
              section_field
                (set_section block sectionId
                   (mkSectionState (Some (VBool on))
                      (st_fields (sectionState_of block sectionId)))) s f
              = section_field block s f).
    { intros s f. rewrite section_field_set_section.
      destruct (String.eqb_spec sectionId s) as [<-|Hs]; [|reflexivity].
      cbn [st_fields]. apply sectionState_of_fields. }
    split; [now rewrite sectionState_of_set_section|].
    split; [exact Hfields|].
    intros l1 l2. apply isTransparencyEnabled_ext; try reflexivity.
    apply Hfields.
Qed.

Lemma option_string_eqb_refl (o : option string) : option_string_eqb o o = true.
Proof. destruct o; [apply String.eqb_refl|reflexivity]. Qed.

(** The summary of a change to one block that keeps its id. *)
Lemma summary_of_one_block (old new : BlockState) :
  b_id new = b_id old ->
  getChangeSummary [old] [new]
  = if block_changed new old
    then option_map (append "Modified ") (label_text new)
    else Some "Regenerated".
Proof.
  intro Hid. unfold getChangeSummary, changeList, Map_of_blocks, Map_has.
  cbn [fold_left obj_set obj_get foldM bind]. rewrite Hid, String.eqb_refl.
  cbn [negb bind].
  destruct (block_changed new old); [|reflexivity].
  now destruct (label_text new).
Qed.

Lemma label_text_set_customValues (block : BlockState)
    (cvs : list CustomProperty) :
  label_text (set_customValues block cvs) = label_text block.
Proof. reflexivity. Qed.

(** X18.  [addCustomProperty] followed by [removeCustomProperty] of the property
    just added gives the block back when it had custom properties before;
    on a block that never had any it leaves an empty list where there was
    none, which [getChangeSummary] reports as a modification: the summary
    is "Modified <label>" when the block's label prints, and the call
    throws when it does not. *)
Theorem custom_property_add_then_remove (block : BlockState) (now : Z) :
  ~ In ("custom-" ++ string_of_Z now) (map cp_id (customValues_of block)) ->
  let b' := removeCustomProperty (addCustomProperty block now)
                                 ("custom-" ++ string_of_Z now) in
  customValues b' = Some (customValues_of block)
  /\ (customValues block <> None -> b' = block)
  /\ getChangeSummary [block] [b']
     = match customValues block with
       | None => option_map (append "Modified ") (label_text block)
       | Some _ => Some "Regenerated"
       end.
Proof.
  intro Hfresh. cbv zeta.
  set (id := "custom-" ++ string_of_Z now) in *.
  assert (Hfilter : filter (fun cp => negb (String.eqb (cp_id cp) id))
                           (customValues_of block
                              ++ [mkCustom id "New Detail" CText (Some (VStr ""))])
                    = customValues_of block).
  { rewrite filter_app. cbn [filter cp_id]. rewrite String.eqb_refl.
    cbn [negb]. rewrite app_nil_r.
    induction (customValues_of block) as [|cp cvs IH]; [reflexivity|].
    cbn [filter]. cbn [map] in Hfresh.
    destruct (String.eqb_spec (cp_id cp) id) as [E|E].
    - exfalso. apply Hfresh. now left.
    - cbn [negb]. f_equal. apply IH. intro H. apply Hfresh. now right. }
  assert (Hb : removeCustomProperty (addCustomProperty block now) id
               = set_customValues block (customValues_of block)).
  { unfold removeCustomProperty, addCustomProperty.
    change (customValues_of (set_customValues block ?c)) with c.
    fold id. rewrite Hfilter. reflexivity. }
  assert (Hcv : customValues (removeCustomProperty (addCustomProperty block now) id)
                = Some (customValues_of block))
    by now rewrite Hb.
  split; [exact Hcv|]. split.
  - intro Hsome. rewrite Hb. unfold set_customValues, customValues_of.
    destruct block as [i t l a s [cvs|] r]; [reflexivity|now elim Hsome].
  - rewrite Hb, summary_of_one_block by reflexivity.
    rewrite label_text_set_customValues.
    unfold block_changed, set_customValues, customValues_of.
    cbn [b_sections isActive customLabel customValues].
    rewrite String.eqb_refl, Bool.eqb_reflx, option_string_eqb_refl.
    destruct (customValues block) as [cvs|]; cbn.
    + now rewrite String.eqb_refl.
    + reflexivity.
Qed.

Lemma custom_property_add_then_remove_witness :
  getChangeSummary [ex_plain_block]
    [removeCustomProperty (addCustomProperty ex_plain_block 5)
                          ("custom-" ++ string_of_Z 5)]
  = Some "Modified Camera 1".
Proof.
  exact (proj2 (proj2 (@custom_property_add_then_remove ex_plain_block 5
                         (fun H => match H with end)))).
Defined.

(** ** The project view: global blocks and the library *)

Lemma active_count_deactivate_other (t t' : BlockType) (bs : list BlockState) :
  (active_count t (deactivate_type t' bs) <= active_count t bs)%nat.
Proof.
  unfold active_count, deactivate_type. apply filter_map_length_le.
  intros b _. destruct (_ && _); [|easy].
  unfold is_active_of. simpl. now rewrite andb_false_r.
Qed.

Lemma addGlobalBlock_eq (globals : list BlockState) (type : BlockType)
    (now : Z) (rnd : string) :
  exists newBlock,
    addGlobalBlock globals type now rnd
    = ((if singleActiveInstance (BLOCK_DEFINITIONS type)
        then deactivate_type type globals else globals) ++ [newBlock])%list
    /\ b_type newBlock = type /\ isActive newBlock = true
    /\ b_sections newBlock = default_sections (BLOCK_DEFINITIONS type)
    /\ customLabel newBlock
       = Some (if negb (singleActiveInstance (BLOCK_DEFINITIONS type))
                  && (0 <? count_of_type type globals)%nat
               then d_label (BLOCK_DEFINITIONS type) ++ " "
                      ++ string_of_nat (count_of_type type globals + 1)
               else d_label (BLOCK_DEFINITIONS type)).
Proof.
  eexists. unfold addGlobalBlock, push. split; [reflexivity|].
  now repeat split.
Qed.

(** X19.  The global scope under [addGlobalBlock] and [removeGlobalBlock]: both
    keep at most one active block for every single-instance type, the new
    block being appended active after the active blocks of its type were
    switched off. *)
Theorem global_add_and_remove_keep_single_active (globals : list BlockState)
    (type : BlockType) (now : Z) (rnd : string)
    (selectedGlobalBlockId : option string) (id : string) :
  single_active globals ->
  single_active (addGlobalBlock globals type now rnd)
  /\ (singleActiveInstance (BLOCK_DEFINITIONS type) = true ->
      active_count type (addGlobalBlock globals type now rnd) = 1%nat)
  /\ single_active (fst (removeGlobalBlock globals selectedGlobalBlockId id))
  /\ some_id (fst (removeGlobalBlock globals selectedGlobalBlockId id)) id
     = false.
Proof.
  intro Hrule.
  destruct (addGlobalBlock_eq globals type now rnd)
    as [newBlock [Heq [Ht [Ha _]]]].
  assert (Hnew : forall t, active_count t [newBlock]
                           = if BlockType_eqb type t then 1%nat else 0%nat).
  { intro t. unfold active_count, is_active_of. cbn [filter].
    rewrite Ht, Ha, andb_true_r. now destruct (BlockType_eqb type t). }
  split; [|split; [|split]].
  - intros t Hs. rewrite Heq, active_count_app, Hnew.
    destruct (singleActiveInstance (BLOCK_DEFINITIONS type)) eqn:Hsingle.
    + destruct (BlockType_eqb type t) eqn:Et.
      * apply BlockType_eqb_eq in Et. subst t.
        rewrite deactivate_type_count. lia.
      * pose proof (active_count_deactivate_other t type globals).
        specialize (Hrule t Hs). lia.
    + destruct (BlockType_eqb type t) eqn:Et.
      * apply BlockType_eqb_eq in Et. subst t. congruence.
      * specialize (Hrule t Hs). lia.
  - intro Hsingle. rewrite Heq, active_count_app, Hnew, Hsingle,
      deactivate_type_count, BlockType_eqb_refl. reflexivity.
  - intros t Hs. cbn [removeGlobalBlock fst]. specialize (Hrule t Hs).
    pose proof (active_count_filter_le t
                  (fun b => negb (String.eqb (b_id b) id)) globals).
    lia.
  - apply some_id_filter_out.
Qed.

Lemma global_add_and_remove_keep_single_active_witness :
  single_active
    (addGlobalBlock (addGlobalBlock [] BACKGROUND 1 "k3j9x0a1b") BACKGROUND 2
                    "q7w2e5r8t").
Proof.
  assert (H0 : single_active []) by (intros t _; cbn; lia).
  pose proof (proj1 (@global_add_and_remove_keep_single_active
                       [] BACKGROUND 1 "k3j9x0a1b" None "" H0)) as H1.
  exact (proj1 (@global_add_and_remove_keep_single_active
                  (addGlobalBlock [] BACKGROUND 1 "k3j9x0a1b") BACKGROUND 2
                  "q7w2e5r8t" None "" H1)).
Defined.

Lemma active_count_all_off (t : BlockType) (bs : list BlockState) :
  active_count t
    (map (fun b => if BlockType_eqb (b_type b) t
                   then set_isActive b false else b) bs) = 0%nat.
Proof.
  unfold active_count. induction bs as [|b bs IH]; [reflexivity|]. simpl.
  unfold is_active_of at 1.
  destruct (BlockType_eqb (b_type b) t) eqn:Et; simpl; rewrite Et; simpl;
    exact IH.
Qed.

(** X20.  [confirmAddTo]: the copy is appended to the blocks of the file chosen
    as target, every other file staying as it is; for a single-instance
    type every block of the type in the target is switched off first, so
    the target ends with one active block of the type when the copied
    block is active and with none when it is not. *)
Theorem library_copy_switches_type_off {Rest : Type}
    (files : list (StarryFile Rest)) (targetFileId : string)
    (sourcePreviewForAdd : option string) (block : BlockState) (now : Z) :
  nonempty targetFileId = true ->
  let files' :=
    confirmAddTo files targetFileId sourcePreviewForAdd block now in
  Forall2
    (fun f f' =>
       sf_id f' = sf_id f
       /\ (sf_id f <> targetFileId -> f' = f)
       /\ (sf_id f = targetFileId ->
           exists copy,
             sf_blocks f'
             = ((if singleActiveInstance (BLOCK_DEFINITIONS (b_type block))
                 then map (fun b => if BlockType_eqb (b_type b) (b_type block)
                                    then set_isActive b false else b)
                          (sf_blocks f)
                 else sf_blocks f) ++ [copy])%list
             /\ b_id copy = "lib-copy-" ++ string_of_Z now
             /\ b_sections copy = b_sections block
             /\ isActive copy = isActive block
             /\ (singleActiveInstance (BLOCK_DEFINITIONS (b_type block)) = true ->
                 active_count (b_type block) (sf_blocks f')
                 = if isActive block then 1%nat else 0%nat)))
    files files'.
Proof.
  intro Hne. cbv zeta. unfold confirmAddTo. rewrite Hne. cbn [negb].
  induction files as [|f files IH]; [constructor|].
  cbn [map]. constructor; [|exact IH].
  destruct (String.eqb_spec (sf_id f) targetFileId) as [E|E].
  - cbn [sf_id sf_blocks]. split; [reflexivity|].
    split; [intro H; now elim H|]. intros _.
    eexists. split; [reflexivity|]. cbn [b_id b_sections isActive].
    repeat split. intro Hs. rewrite Hs. unfold push.
    rewrite active_count_app, active_count_all_off.
    unfold active_count, is_active_of. cbn [filter b_type isActive].
    rewrite BlockType_eqb_refl. cbn [andb].
    now destruct (isActive block).
  - split; [reflexivity|]. split; [reflexivity|]. intro H. now elim E.
Qed.

Lemma library_copy_switches_type_off_witness :
  nonempty "f1" = true
  /\ Forall2 (fun f f' => sf_id f' = sf_id f) ex_files
             (confirmAddTo ex_files "f1" None ex_background_off 3).
Proof.
  split; [reflexivity|].
  eapply Forall2_impl;
    [|exact (@library_copy_switches_type_off unit ex_files "f1" None
               ex_background_off 3 eq_refl)].
  intros a b [H _]. exact H.
Defined.

(** The library, type by type. *)

Lemma BlockType_value_eqb (a b : BlockType) :
  String.eqb (BlockType_value a) (BlockType_value b) = BlockType_eqb a b.
Proof. now destruct a, b. Qed.

Lemma library_push_get (acc : list (string * list LibraryItem)) (k k' : string)
    (item : LibraryItem) :
  obj_get (library_push acc k item) k'
  = if String.eqb k k'
    then Some (match obj_get acc k with
               | Some items => items ++ [item]
               | None => [item]
               end)%list
    else obj_get acc k'.
Proof.
  unfold library_push, push.
  destruct (obj_get acc k); now rewrite obj_get_set.
Qed.

Lemma library_unshift_get (acc : list (string * list LibraryItem))
    (k k' : string) (item : LibraryItem) :
  obj_get (library_unshift acc k item) k'
  = if String.eqb k k'
    then Some (match obj_get acc k with
               | Some items => item :: items
               | None => [item]
               end)
    else obj_get acc k'.
Proof.
  unfold library_unshift.
  destruct (obj_get acc k); now rewrite obj_get_set.
Qed.

(** What a library under construction answers for a type: its items, given
    that it never holds an empty list. *)
Lemma library_fold_push {Rest : Type} (file : StarryFile Rest) (t : BlockType)
    (bs : list BlockState) :
  forall (acc : list (string * list LibraryItem)) (items : list LibraryItem),
  obj_get acc (BlockType_value t)
  = match items with [] => None | _ => Some items end ->
  obj_get (fold_left (fun acc block =>
                        library_push acc (BlockType_value (b_type block))
                                     (file_item file block)) bs acc)
          (BlockType_value t)
  = match (items ++ map (file_item file) (of_type t bs))%list with
    | [] => None
    | l => Some l
    end.
Proof.
  induction bs as [|b bs IH]; intros acc items Hacc; cbn [fold_left].
  - cbn [of_type filter map]. rewrite app_nil_r, Hacc. now destruct items.
  - unfold of_type. cbn [filter].
    destruct (BlockType_eqb (b_type b) t) eqn:Et.
    + apply BlockType_eqb_eq in Et.
      cbn [map].
      replace (items ++ file_item file b
                 :: map (file_item file)
                        (filter (fun b0 => BlockType_eqb (b_type b0) t) bs))%list
        with ((items ++ [file_item file b])
                ++ map (file_item file) (of_type t bs))%list
        by (now rewrite <- app_assoc).
      apply IH. rewrite library_push_get, Et, String.eqb_refl.
      rewrite Hacc. destruct items; reflexivity.
    + apply IH. rewrite library_push_get, BlockType_value_eqb, Et.
      exact Hacc.
Qed.

Lemma library_fold_files {Rest : Type} (t : BlockType)
    (files : list (StarryFile Rest)) :
  forall (acc : list (string * list LibraryItem)) (items : list LibraryItem),
  obj_get acc (BlockType_value t)
  = match items with [] => None | _ => Some items end ->
  obj_get (fold_left
             (fun acc file =>
                fold_left (fun acc block =>
                             library_push acc (BlockType_value (b_type block))
                                          (file_item file block))
                          (sf_blocks file) acc) files acc)
          (BlockType_value t)
  = match (items ++ flat_map (fun file => map (file_item file)
                                              (of_type t (sf_blocks file)))
                             files)%list with
    | [] => None
    | l => Some l
    end.
Proof.
  induction files as [|f files IH]; intros acc items Hacc; cbn [fold_left].
  - cbn [flat_map]. rewrite app_nil_r, Hacc. now destruct items.
  - cbn [flat_map]. rewrite app_assoc. apply IH.
    rewrite (library_fold_push f t (sf_blocks f) acc items Hacc).
    now destruct (items ++ _)%list.
Qed.

Lemma library_fold_globals (t : BlockType) (globals : list BlockState) :
  forall (acc : list (string * list LibraryItem)) (items : list LibraryItem),
  obj_get acc (BlockType_value t)
  = match items with [] => None | _ => Some items end ->
  obj_get (fold_left (fun acc block =>
                        library_unshift acc (BlockType_value (b_type block))
                                        (global_item block)) globals acc)
          (BlockType_value t)
  = match (rev (map global_item (of_type t globals)) ++ items)%list with
    | [] => None
    | l => Some l
    end.
Proof.
  induction globals as [|g globals IH]; intros acc items Hacc; cbn [fold_left].
  - cbn [of_type filter map rev app]. rewrite Hacc. now destruct items.
  - unfold of_type. cbn [filter].
    destruct (BlockType_eqb (b_type g) t) eqn:Et.
    + apply BlockType_eqb_eq in Et. cbn [map rev].
      rewrite <- app_assoc. cbn [app].
      apply (IH _ (global_item g :: items)).
      rewrite library_unshift_get, Et, String.eqb_refl.
      rewrite Hacc. destruct items; reflexivity.
    + apply IH. rewrite library_unshift_get, BlockType_value_eqb, Et.
      exact Hacc.
Qed.

(** X21.  [libraryBlocks]: under each type the library lists every global block
    of the type, the one added last first, and then every block of the type
    of every file, file by file in their order; a type that has no block
    has no entry. *)
Theorem library_groups_blocks_by_type {Rest : Type}
    (files : list (StarryFile Rest)) (globals : list BlockState)
    (t : BlockType) :
  obj_get (libraryBlocks files globals) (BlockType_value t)
  = match (rev (map global_item (of_type t globals))
           ++ flat_map (fun file => map (file_item file)
                                        (of_type t (sf_blocks file)))
                       files)%list with
    | [] => None
    | items => Some items
    end.
Proof.
  unfold libraryBlocks.
  rewrite <- (app_nil_l (flat_map _ files)).
  apply library_fold_globals.
  rewrite (library_fold_files t files [] [] eq_refl).
  now destruct (_ ++ _)%list.
Qed.

(** ** Tag lists and item lists *)

Lemma existsb_eqb_In (x : string) (l : list string) :
  existsb (String.eqb x) l = true <-> In x l.
Proof.
  rewrite existsb_exists. split.
  - intros [y [Hin Heq]]. apply String.eqb_eq in Heq. now subst.
  - intro Hin. exists x. split; [exact Hin|apply String.eqb_refl].
Qed.

Lemma NoDup_snoc {A : Type} (l : list A) (x : A) :
  NoDup l -> ~ In x l -> NoDup (l ++ [x]).
Proof.
  intros Hl Hx. apply NoDup_app; [exact Hl|repeat constructor; easy|].
  intros y Hy [<-|[]]. now apply Hx.
Qed.

(** X22.  A tag list is kept in order by [addTag] and [removeTag]: no tag twice,
    no empty tag, no tag with white space around it; [addTag] adds the
    trimmed text at the end unless it is empty or already there, and
    [removeTag] leaves no occurrence of the tag. *)
Theorem tag_list_stays_distinct_and_trimmed (value : list string)
    (tag : string) :
  NoDup value ->
  Forall (fun t => t <> "" /\ trim t = t) value ->
  NoDup (addTag value tag)
  /\ Forall (fun t => t <> "" /\ trim t = t) (addTag value tag)
  /\ (trim tag <> "" -> In (trim tag) (addTag value tag))
  /\ (forall t, In t value -> In t (addTag value tag))
  /\ NoDup (removeTag value tag)
  /\ Forall (fun t => t <> "" /\ trim t = t) (removeTag value tag)
  /\ ~ In tag (removeTag value tag).
Proof.
  intros Hnd Hall.
  assert (Hrem : NoDup (removeTag value tag)
                 /\ Forall (fun t => t <> "" /\ trim t = t)
                           (removeTag value tag)
                 /\ ~ In tag (removeTag value tag)).
  { unfold removeTag. split; [now apply NoDup_filter|]. split.
    - apply Forall_forall. intros t Ht. apply filter_In in Ht.
      rewrite Forall_forall in Hall. now apply Hall.
    - intro Hin. apply filter_In in Hin. destruct Hin as [_ Hin].
      now rewrite String.eqb_refl in Hin. }
  destruct Hrem as [R1 [R2 R3]].
  unfold addTag, push, nonempty.
  destruct (String.eqb_spec (trim tag) "") as [He|He]; cbn [negb andb].
  { split; [exact Hnd|]. split; [exact Hall|].
    split; [intro H; now elim H|]. split; [now intros t Ht|].
    now split. }
  destruct (existsb (String.eqb (trim tag)) value) eqn:Hex; cbn [negb].
  - apply existsb_eqb_In in Hex.
    split; [exact Hnd|]. split; [exact Hall|].
    split; [now intros _|]. split; [now intros t Ht|].
    now split.
  - assert (Hnot : ~ In (trim tag) value).
    { intro Hin. apply existsb_eqb_In in Hin. congruence. }
    split; [now apply NoDup_snoc|]. split.
    { apply Forall_app. split; [exact Hall|].
      constructor; [|constructor]. split; [exact He|apply trim_idem]. }
    split; [intros _; apply in_or_app; right; now left|].
    split; [intros t Ht; apply in_or_app; now left|].
    now split.
Qed.

Lemma tag_list_stays_distinct_and_trimmed_witness :
  addTag ["neon"; "rain"] "  fog " = ["neon"; "rain"; "fog"]
  /\ NoDup (addTag ["neon"; "rain"] "  fog ").
Proof.
  split; [vm_compute; reflexivity|].
  refine (proj1 (@tag_list_stays_distinct_and_trimmed ["neon"; "rain"]
                   "  fog " _ _)).
  - repeat constructor; cbn; intuition discriminate.
  - repeat (constructor; [split; [discriminate|vm_compute; reflexivity]|]).
    constructor.
Defined.

Lemma NoDup_remove_nth {A : Type} (l : list A) :
  forall idx, NoDup l -> NoDup (firstn idx l ++ skipn (S idx) l).
Proof.
  induction l as [|x l IH]; intros idx Hnd.
  - now destruct idx.
  - inversion Hnd as [|? ? Hx Hl]; subst. destruct idx as [|idx].
    + exact Hl.
    + cbn [firstn skipn app]. constructor; [|now apply IH].
      intro Hin. apply Hx. apply in_app_or in Hin.
      destruct Hin as [Hin|Hin].
      * rewrite <- (firstn_skipn idx l). apply in_or_app. now left.
      * rewrite <- (firstn_skipn (S idx) l). apply in_or_app. now right.
Qed.

Lemma length_remove_nth {A : Type} (l : list A) (idx : nat) :
  (List.length (firstn idx l ++ skipn (S idx) l) <= List.length l)%nat.
Proof.
  rewrite length_app, length_firstn, length_skipn. lia.
Qed.

Lemma same_name_In (name : string) (value : list DetailedItem) :
  existsb (same_name name) value = true
  <-> In (toLowerCase name) (map (fun v => toLowerCase (di_name v)) value).
Proof.
  rewrite existsb_exists, in_map_iff. unfold same_name. split.
  - intros [v [Hin Heq]]. apply String.eqb_eq in Heq. now exists v.
  - intros [v [Heq Hin]]. exists v. split; [exact Hin|].
    now apply String.eqb_eq.
Qed.

(** X23.  The item list under [addItem] and [removeItem]: the names stay
    distinct with the case of letters ignored, none empty, and a list
    within the limit [maxItems] stays within it. *)
Theorem item_list_keeps_names_distinct_and_limit (value : list DetailedItem)
    (maxItems : option Z) (name : string) (idx : nat) :
  NoDup (map (fun v => toLowerCase (di_name v)) value) ->
  let within (l : list DetailedItem) :=
    forall m, maxItems = Some m -> (Z.of_nat (List.length l) <= m)%Z in
  let added := addItem value maxItems name in
  let removed := removeItem value idx in
  NoDup (map (fun v => toLowerCase (di_name v)) added)
  /\ (within value -> within added)
  /\ (Forall (fun v => di_name v <> "") value ->
      Forall (fun v => di_name v <> "") added)
  /\ (added = value \/ added = (value ++ [mkDetailedItem (trim name) []])%list)
  /\ NoDup (map (fun v => toLowerCase (di_name v)) removed)
  /\ (within value -> within removed).
Proof.
  intros Hnd within added removed. subst within added removed.
  unfold addItem, removeItem, push, isLimitReached.
  assert (Hrem : NoDup (map (fun v => toLowerCase (di_name v))
                            (firstn idx value ++ skipn (S idx) value))).
  { rewrite map_app, <- firstn_map, <- skipn_map. now apply NoDup_remove_nth. }
  assert (Hlen : forall m, (Z.of_nat (List.length value) <= m)%Z ->
                   (Z.of_nat (List.length (firstn idx value
                                             ++ skipn (S idx) value)) <= m)%Z).
  { intros m Hm. pose proof (length_remove_nth value idx). lia. }
  assert (Hremw : (forall m, maxItems = Some m ->
                             (Z.of_nat (List.length value) <= m)%Z) ->
                  forall m, maxItems = Some m ->
                    (Z.of_nat (List.length (firstn idx value
                                              ++ skipn (S idx) value)) <= m)%Z).
  { intros Hw m Hm. apply Hlen. now apply Hw. }
  unfold nonempty.
  destruct (String.eqb_spec (trim name) "") as [He|He]; cbn [negb].
  { repeat split; try assumption; auto. }
  destruct maxItems as [m|].
  - destruct (m <=? Z.of_nat (List.length value))%Z eqn:Hm.
    { repeat split; try assumption; auto. }
    destruct (existsb (same_name (trim name)) value) eqn:Hex.
    { repeat split; try assumption; auto. }
    assert (Hnot : ~ In (toLowerCase (trim name))
                        (map (fun v => toLowerCase (di_name v)) value)).
    { intro Hin. apply same_name_In in Hin. congruence. }
    repeat split; try assumption; auto.
    + rewrite map_app. now apply NoDup_snoc.
    + intros _ m' Hm'. injection Hm' as <-. rewrite length_app. cbn.
      apply Z.leb_gt in Hm. lia.
    + intro Hall. apply Forall_app. split; [exact Hall|].
      constructor; [exact He|constructor].
  - destruct (existsb (same_name (trim name)) value) eqn:Hex.
    { repeat split; try assumption; auto. }
    assert (Hnot : ~ In (toLowerCase (trim name))
                        (map (fun v => toLowerCase (di_name v)) value)).
    { intro Hin. apply same_name_In in Hin. congruence. }
    repeat split; try assumption; auto.
    + rewrite map_app. now apply NoDup_snoc.
    + intros _ m' Hm'. discriminate.
    + intro Hall. apply Forall_app. split; [exact Hall|].
      constructor; [exact He|constructor].
Qed.

Lemma item_list_keeps_names_distinct_and_limit_witness :
  addItem [mkDetailedItem "Hat" []] (Some 3%Z) " hat "
  = [mkDetailedItem "Hat" []]
  /\ NoDup (map (fun v => toLowerCase (di_name v))
                (addItem [mkDetailedItem "Hat" []] (Some 3%Z) "Scarf")).
Proof.
  split; [vm_compute; reflexivity|].
  refine (proj1 (@item_list_keeps_names_distinct_and_limit
                   [mkDetailedItem "Hat" []] (Some 3%Z) "Scarf" 0 _)).
  repeat constructor. intros [].
Defined.

(** ** Runs of editor actions *)

Lemma local_scope_keeps_single_active_witness :
  single_active
    (blocks (run_ops (mkEditor [] [] true None None)
               [OpAdd BACKGROUND 1; OpAdd BACKGROUND 2; OpDuplicate 1 3;
                OpToggle 0]))
  /\ ids_distinct
       (blocks (run_ops (mkEditor [] [] true None None)
                  [OpAdd BACKGROUND 1; OpAdd BACKGROUND 2; OpDuplicate 1 3;
                   OpToggle 0])).
Proof.
  refine (@local_scope_keeps_single_active
            [OpAdd BACKGROUND 1; OpAdd BACKGROUND 2; OpDuplicate 1 3;
             OpToggle 0]
            (mkEditor [] [] true None None) _ _ _).
  - intros t _. cbn. lia.
  - constructor.
  - vm_compute. intuition discriminate.
Defined.
